(** * Gemini Image Studio: the image analyzer's composition pipeline

    A shallow embedding of [src/components/ImageAnalyzer.tsx], of
    [src/types.ts] and of [analyzeImage] of the Gemini service module.

    Conventions of the embedding.
    - JavaScript strings are [string]: a sequence of code units, here the
      code units below 256.
    - Pixel dimensions ([naturalWidth], [naturalHeight]) and the filter
      strengths are naturals in [N]; [gcd] is Euclid's recursion on them.
    - The geometry of [getProcessedImageAsDataUrl] (the bounding box, the
      transform, the rectangles handed to [drawImage]) is carried out in
      the real numbers [R], with [PI], [cos] and [sin] of the standard
      library: an equation proved about it holds in the browser up to
      floating rounding.
    - Where the program turns doubles into integers the rounding is
      written out ([Double]): [Number] reads a numeral as the nearest
      double, and the height of the final canvas is the truncation of the
      quotient [1024 / (W / H)] as the machine computes it, each division
      rounded to the nearest double.
    - React state is a record, one field per [useState] hook, together
      with [localStorage]; every handler is a function from state to
      state.  What the browser contributes to a call (the decoded image,
      the drawing contexts, the encoder, the remote model) is an argument.
    - A canvas records the [drawImage] calls it received, each with the
      filter and the transform in force, instead of pixels. *)

From Stdlib Require Import String Ascii List NArith ZArith Lia.
From Stdlib Require Import Reals Lra DecimalString.
From Stdlib Require DecimalN.
From Equations Require Import Equations.
From stdpp Require Import base option list strings gmap.

Import ListNotations.

(** ** Double-precision numbers

    A JS number is an IEEE 754 binary64 value.  The finite ones are the
    reals [m * 2^e] with [|m| < 2^53] and [-1074 <= e <= 971].  The
    embedding computes in natural and real numbers; where the rounding of
    a double changes what the program does, the rounding is written out
    with the functions of this module. *)

Module Double.

(** The integer nearest to [n / 2^excess], the even one of two nearest. *)
Definition nearestEvenN (n excess : N) : N :=
  let below := (n / 2 ^ excess)%N in
  let rest := (n mod 2 ^ excess)%N in
  if (2 ^ excess <? 2 * rest)%N
     || ((2 ^ excess =? 2 * rest)%N && N.odd below)
  then (below + 1)%N else below.

(** The double nearest to the natural number [n], when it is finite:
    [n] keeps its 53 leading bits, rounded to nearest, ties to even.
    From [2^1024 - 2^970] upward the result is [Infinity], which is
    outside the embedding: [None]. *)
Definition ofN (n : N) : option N :=
  let excess := (N.size n - 53)%N in
  let rounded := (nearestEvenN n excess * 2 ^ excess)%N in
  if (rounded <? 2 ^ 1024)%N then Some rounded else None.

(** The exponent [k] with [2^(k-1) <= |x| < 2^k]. *)
Definition mag (x : R) : Z := (Int_part (ln (Rabs x) / ln 2) + 1)%Z.

(** The integer nearest to [x], the even one of two nearest. *)
Definition nearestEven (x : R) : Z :=
  let below := Int_part x in
  let rest := (x - IZR below)%R in
  if Rlt_dec rest (1 / 2) then below
  else if Rlt_dec (1 / 2) rest then (below + 1)%Z
  else if Z.even below then below else (below + 1)%Z.

(** The double nearest to the real [x]: 53 significant bits, or fewer
    below [2^(-1022)], where the spacing of the doubles stays [2^(-1074)].
    Overflow to [Infinity] is not represented. *)
Definition round (x : R) : R :=
  let exponent := Z.max (mag x - 53) (-1074) in
  (IZR (nearestEven (x * powerRZ 2 (- exponent))) * powerRZ 2 exponent)%R.

(** [x / y] on doubles: the quotient, correctly rounded. *)
Definition div (x y : R) : R := round (x / y).

End Double.

Local Open Scope string_scope.
Local Open Scope list_scope.

(** ** JavaScript strings *)

Module JS.

(** Code units that [String.prototype.trim] strips: WhiteSpace and
    LineTerminator, restricted to the code units below 256
    (TAB, LF, VT, FF, CR, SPACE, NBSP). *)
Definition isWhiteSpace (c : ascii) : bool :=
  match N_of_ascii c with
  | 9%N | 10%N | 11%N | 12%N | 13%N | 32%N | 160%N => true
  | _ => false
  end.

Fixpoint trimStart (s : string) : string :=
  match s with
  | String c s' => if isWhiteSpace c then trimStart s' else s
  | EmptyString => EmptyString
  end.

Fixpoint trimEnd (s : string) : string :=
  match s with
  | EmptyString => EmptyString
  | String c s' =>
      match trimEnd s' with
      | EmptyString => if isWhiteSpace c then EmptyString else String c EmptyString
      | t => String c t
      end
  end.

(** [s.trim()] *)
Definition trim (s : string) : string := trimEnd (trimStart s).

(** [s.split(sep)] for a separator of one code unit. *)
Fixpoint split (sep : ascii) (s : string) : list string :=
  match s with
  | EmptyString => [EmptyString]
  | String c s' =>
      if Ascii.eqb c sep then EmptyString :: split sep s'
      else match split sep s' with
           | h :: t => String c h :: t
           | [] => [String c EmptyString]
           end
  end.

(** [arr.includes(x)] on an array of strings. *)
Definition includes (arr : list string) (x : string) : bool :=
  existsb (String.eqb x) arr.

(** [arr.join(sep)] *)
Fixpoint join (sep : string) (parts : list string) : string :=
  match parts with
  | [] => EmptyString
  | [p] => p
  | p :: rest => String.append p (String.append sep (join sep rest))
  end.

(** [arr.filter(p)] *)
Definition filter (p : string -> bool) (arr : list string) : list string :=
  List.filter p arr.

(** A template literal's rendering of a non-negative integer: all its
    decimal digits, as JS prints the integers below [10^21]. *)
Definition toString (n : N) : string :=
  NilZero.string_of_uint (N.to_uint n).

(** The mathematical value of a string made of decimal digits only (the
    empty string has the value 0).  Every other string (signs, fractions,
    exponents, hex, surrounding white space) is outside the embedding:
    [None]. *)
Definition numericValue (s : string) : option N :=
  option_map N.of_uint (NilEmpty.uint_of_string s).

(** [Number(s)]: the double nearest to the value of [s].  [None] also
    stands for the numerals that read as [Infinity]. *)
Definition Number (s : string) : option N :=
  match numericValue s with
  | Some n => Double.ofN n
  | None => None
  end.

(** [[...new Set(arr)]]: a [Set] keeps the first occurrence of every
    element, in insertion order. *)
Fixpoint Set_insert (seen : list string) (arr : list string) : list string :=
  match arr with
  | [] => seen
  | x :: rest =>
      if includes seen x then Set_insert seen rest
      else Set_insert (seen ++ [x]) rest
  end.

Definition spreadSet (arr : list string) : list string := Set_insert [] arr.

End JS.

(** ** Regular expressions

    The pattern language needed for [ratioRegex], with Brzozowski
    derivatives as the matcher. *)

Module RegExp.

Inductive t : Type :=
| Void                      (* no string; only arises in derivatives *)
| Eps                       (* the empty string *)
| Chr (c : ascii)           (* a literal code unit *)
| Range (lo hi : ascii)     (* the class [lo-hi] *)
| Cat (r1 r2 : t)
| Alt (r1 r2 : t)
| Star (r : t).

Definition inRange (lo hi c : ascii) : bool :=
  ((N_of_ascii lo <=? N_of_ascii c) && (N_of_ascii c <=? N_of_ascii hi))%N.

(** The language of a pattern. *)
Inductive Matches : t -> list ascii -> Prop :=
| M_Eps : Matches Eps []
| M_Chr c : Matches (Chr c) [c]
| M_Range lo hi c : inRange lo hi c = true -> Matches (Range lo hi) [c]
| M_Cat r1 r2 s1 s2 :
    Matches r1 s1 -> Matches r2 s2 -> Matches (Cat r1 r2) (s1 ++ s2)
| M_AltL r1 r2 s : Matches r1 s -> Matches (Alt r1 r2) s
| M_AltR r1 r2 s : Matches r2 s -> Matches (Alt r1 r2) s
| M_Star0 r : Matches (Star r) []
| M_StarS r s1 s2 :
    Matches r s1 -> Matches (Star r) s2 -> Matches (Star r) (s1 ++ s2).

Fixpoint nullable (r : t) : bool :=
  match r with
  | Void | Chr _ | Range _ _ => false
  | Eps | Star _ => true
  | Cat r1 r2 => nullable r1 && nullable r2
  | Alt r1 r2 => nullable r1 || nullable r2
  end.

Fixpoint deriv (c : ascii) (r : t) : t :=
  match r with
  | Void | Eps => Void
  | Chr c' => if Ascii.eqb c c' then Eps else Void
  | Range lo hi => if inRange lo hi c then Eps else Void
  | Cat r1 r2 =>
      if nullable r1 then Alt (Cat (deriv c r1) r2) (deriv c r2)
      else Cat (deriv c r1) r2
  | Alt r1 r2 => Alt (deriv c r1) (deriv c r2)
  | Star r1 => Cat (deriv c r1) (Star r1)
  end.

Fixpoint matchesb (r : t) (s : list ascii) : bool :=
  match s with
  | [] => nullable r
  | c :: s' => matchesb (deriv c r) s'
  end.

(** [re.test(s)] for a pattern written between [^] and [$], no flags:
    the whole of [s] has to match. *)
Definition test (r : t) (s : string) : bool :=
  matchesb r (list_ascii_of_string s).

(** [\d] *)
Definition digit : t := Range "0" "9".

End RegExp.

(** ** [src/types.ts] *)

Definition generatorAspectRatios : list string :=
  ["1:1"; "3:4"; "4:3"; "9:16"; "16:9"].

Definition analyzerAspectRatios : list string :=
  ["16:9"; "3:2"; "4:3"; "1:1"; "3:4"; "2:3"; "9:16"].

(** ** [src/components/ImageAnalyzer.tsx] *)

Inductive ResizeMode : Type := crop | stretch.

(** The helper [gcd]: [b === 0 ? a : gcd(b, a % b)].  On the
    non-negative integers [%] is the remainder of the division. *)
Equations? gcd (a b : N) : N by wf (N.to_nat b) lt :=
  gcd a b with N.eq_dec b 0%N := {
    | left _ := a;
    | right _ := gcd b (a mod b)%N }.
Proof.
  assert (a mod b < b)%N by (apply N.mod_lt; assumption). lia.
Qed.

Module File.
Record t : Type := { name : string; type : string; size : N }.
End File.

(** What a decoded [Image] element exposes to the component. *)
Module Image.
Record t : Type := { naturalWidth : N; naturalHeight : N }.
End Image.

Module ImageProperties.
Record t : Type := {
  width : N;
  height : N;
  type : string;
  size : N;
  simplifiedRatio : string
}.
End ImageProperties.

(** The seven strengths are set from range inputs with integer steps
    and a minimum of 0. *)
Module ImageFilters.
Record t : Type := {
  brightness : N;
  contrast : N;
  saturate : N;
  grayscale : N;
  sepia : N;
  invert : N;
  hueRotate : N
}.
End ImageFilters.

Definition initialFilterState : ImageFilters.t := {|
  ImageFilters.brightness := 100;
  ImageFilters.contrast := 100;
  ImageFilters.saturate := 100;
  ImageFilters.grayscale := 0;
  ImageFilters.sepia := 0;
  ImageFilters.invert := 0;
  ImageFilters.hueRotate := 0
|}.

Definition AnalyzerAspectRatio : Type := string.

(** The component's state: one field per [useState] hook, and the
    browser's [localStorage]. *)
Record State : Type := {
  selectedFile : option File.t;
  previewUrl : option string;
  analysis : string;
  loading : bool;
  error : option string;
  selectedAspectRatio : AnalyzerAspectRatio;
  autoAspectRatio : option string;
  resizeMode : ResizeMode;
  imageProperties : option ImageProperties.t;
  filters : ImageFilters.t;
  rotation : R;
  isMirrored : bool;
  customRatios : list string;
  newRatio : string;
  ratioInputError : option string;
  localStorage : gmap string string
}.

(** The setter of each hook. *)

Definition setSelectedFile (v : option File.t) (st : State) : State :=
  {| selectedFile := v; previewUrl := previewUrl st; analysis := analysis st;
     loading := loading st; error := error st;
     selectedAspectRatio := selectedAspectRatio st;
     autoAspectRatio := autoAspectRatio st; resizeMode := resizeMode st;
     imageProperties := imageProperties st; filters := filters st;
     rotation := rotation st; isMirrored := isMirrored st;
     customRatios := customRatios st; newRatio := newRatio st;
     ratioInputError := ratioInputError st;
     localStorage := localStorage st |}.

Definition setPreviewUrl (v : option string) (st : State) : State :=
  {| selectedFile := selectedFile st; previewUrl := v;
     analysis := analysis st; loading := loading st; error := error st;
     selectedAspectRatio := selectedAspectRatio st;
     autoAspectRatio := autoAspectRatio st; resizeMode := resizeMode st;
     imageProperties := imageProperties st; filters := filters st;
     rotation := rotation st; isMirrored := isMirrored st;
     customRatios := customRatios st; newRatio := newRatio st;
     ratioInputError := ratioInputError st;
     localStorage := localStorage st |}.

Definition setAnalysis (v : string) (st : State) : State :=
  {| selectedFile := selectedFile st; previewUrl := previewUrl st;
     analysis := v; loading := loading st; error := error st;
     selectedAspectRatio := selectedAspectRatio st;
     autoAspectRatio := autoAspectRatio st; resizeMode := resizeMode st;
     imageProperties := imageProperties st; filters := filters st;
     rotation := rotation st; isMirrored := isMirrored st;
     customRatios := customRatios st; newRatio := newRatio st;
     ratioInputError := ratioInputError st;
     localStorage := localStorage st |}.

Definition setLoading (v : bool) (st : State) : State :=
  {| selectedFile := selectedFile st; previewUrl := previewUrl st;
     analysis := analysis st; loading := v; error := error st;
     selectedAspectRatio := selectedAspectRatio st;
     autoAspectRatio := autoAspectRatio st; resizeMode := resizeMode st;
     imageProperties := imageProperties st; filters := filters st;
     rotation := rotation st; isMirrored := isMirrored st;
     customRatios := customRatios st; newRatio := newRatio st;
     ratioInputError := ratioInputError st;
     localStorage := localStorage st |}.

Definition setError (v : option string) (st : State) : State :=
  {| selectedFile := selectedFile st; previewUrl := previewUrl st;
     analysis := analysis st; loading := loading st; error := v;
     selectedAspectRatio := selectedAspectRatio st;
     autoAspectRatio := autoAspectRatio st; resizeMode := resizeMode st;
     imageProperties := imageProperties st; filters := filters st;
     rotation := rotation st; isMirrored := isMirrored st;
     customRatios := customRatios st; newRatio := newRatio st;
     ratioInputError := ratioInputError st;
     localStorage := localStorage st |}.

Definition setSelectedAspectRatio (v : AnalyzerAspectRatio) (st : State) : State :=
  {| selectedFile := selectedFile st; previewUrl := previewUrl st;
     analysis := analysis st; loading := loading st; error := error st;
     selectedAspectRatio := v; autoAspectRatio := autoAspectRatio st;
     resizeMode := resizeMode st; imageProperties := imageProperties st;
     filters := filters st; rotation := rotation st;
     isMirrored := isMirrored st; customRatios := customRatios st;
     newRatio := newRatio st; ratioInputError := ratioInputError st;
     localStorage := localStorage st |}.

Definition setAutoAspectRatio (v : option string) (st : State) : State :=
  {| selectedFile := selectedFile st; previewUrl := previewUrl st;
     analysis := analysis st; loading := loading st; error := error st;
     selectedAspectRatio := selectedAspectRatio st; autoAspectRatio := v;
     resizeMode := resizeMode st; imageProperties := imageProperties st;
     filters := filters st; rotation := rotation st;
     isMirrored := isMirrored st; customRatios := customRatios st;
     newRatio := newRatio st; ratioInputError := ratioInputError st;
     localStorage := localStorage st |}.

Definition setResizeMode (v : ResizeMode) (st : State) : State :=
  {| selectedFile := selectedFile st; previewUrl := previewUrl st;
     analysis := analysis st; loading := loading st; error := error st;
     selectedAspectRatio := selectedAspectRatio st;
     autoAspectRatio := autoAspectRatio st; resizeMode := v;
     imageProperties := imageProperties st; filters := filters st;
     rotation := rotation st; isMirrored := isMirrored st;
     customRatios := customRatios st; newRatio := newRatio st;
     ratioInputError := ratioInputError st;
     localStorage := localStorage st |}.

Definition setImageProperties (v : option ImageProperties.t) (st : State) : State :=
  {| selectedFile := selectedFile st; previewUrl := previewUrl st;
     analysis := analysis st; loading := loading st; error := error st;
     selectedAspectRatio := selectedAspectRatio st;
     autoAspectRatio := autoAspectRatio st; resizeMode := resizeMode st;
     imageProperties := v; filters := filters st; rotation := rotation st;
     isMirrored := isMirrored st; customRatios := customRatios st;
     newRatio := newRatio st; ratioInputError := ratioInputError st;
     localStorage := localStorage st |}.

Definition setFilters (v : ImageFilters.t) (st : State) : State :=
  {| selectedFile := selectedFile st; previewUrl := previewUrl st;
     analysis := analysis st; loading := loading st; error := error st;
     selectedAspectRatio := selectedAspectRatio st;
     autoAspectRatio := autoAspectRatio st; resizeMode := resizeMode st;
     imageProperties := imageProperties st; filters := v;
     rotation := rotation st; isMirrored := isMirrored st;
     customRatios := customRatios st; newRatio := newRatio st;
     ratioInputError := ratioInputError st;
     localStorage := localStorage st |}.

Definition setRotation (v : R) (st : State) : State :=
  {| selectedFile := selectedFile st; previewUrl := previewUrl st;
     analysis := analysis st; loading := loading st; error := error st;
     selectedAspectRatio := selectedAspectRatio st;
     autoAspectRatio := autoAspectRatio st; resizeMode := resizeMode st;
     imageProperties := imageProperties st; filters := filters st;
     rotation := v; isMirrored := isMirrored st;
     customRatios := customRatios st; newRatio := newRatio st;
     ratioInputError := ratioInputError st;
     localStorage := localStorage st |}.

Definition setIsMirrored (v : bool) (st : State) : State :=
  {| selectedFile := selectedFile st; previewUrl := previewUrl st;
     analysis := analysis st; loading := loading st; error := error st;
     selectedAspectRatio := selectedAspectRatio st;
     autoAspectRatio := autoAspectRatio st; resizeMode := resizeMode st;
     imageProperties := imageProperties st; filters := filters st;
     rotation := rotation st; isMirrored := v;
     customRatios := customRatios st; newRatio := newRatio st;
     ratioInputError := ratioInputError st;
     localStorage := localStorage st |}.

Definition setCustomRatios (v : list string) (st : State) : State :=
  {| selectedFile := selectedFile st; previewUrl := previewUrl st;
     analysis := analysis st; loading := loading st; error := error st;
     selectedAspectRatio := selectedAspectRatio st;
     autoAspectRatio := autoAspectRatio st; resizeMode := resizeMode st;
     imageProperties := imageProperties st; filters := filters st;
     rotation := rotation st; isMirrored := isMirrored st; customRatios := v;
     newRatio := newRatio st; ratioInputError := ratioInputError st;
     localStorage := localStorage st |}.

Definition setNewRatio (v : string) (st : State) : State :=
  {| selectedFile := selectedFile st; previewUrl := previewUrl st;
     analysis := analysis st; loading := loading st; error := error st;
     selectedAspectRatio := selectedAspectRatio st;
     autoAspectRatio := autoAspectRatio st; resizeMode := resizeMode st;
     imageProperties := imageProperties st; filters := filters st;
     rotation := rotation st; isMirrored := isMirrored st;
     customRatios := customRatios st; newRatio := v;
     ratioInputError := ratioInputError st;
     localStorage := localStorage st |}.

Definition setRatioInputError (v : option string) (st : State) : State :=
  {| selectedFile := selectedFile st; previewUrl := previewUrl st;
     analysis := analysis st; loading := loading st; error := error st;
     selectedAspectRatio := selectedAspectRatio st;
     autoAspectRatio := autoAspectRatio st; resizeMode := resizeMode st;
     imageProperties := imageProperties st; filters := filters st;
     rotation := rotation st; isMirrored := isMirrored st;
     customRatios := customRatios st; newRatio := newRatio st;
     ratioInputError := v; localStorage := localStorage st |}.

(** *** [JSON.stringify] on an array of strings *)

Module JSON.

Definition hexDigit (n : N) : ascii :=
  ascii_of_N (if (n <? 10)%N then 48 + n else 87 + n).

(** The escape of one code unit inside a JSON string. *)
Definition quoteChar (c : ascii) : string :=
  let backslash := String (ascii_of_N 92) EmptyString in
  match N_of_ascii c with
  | 34%N => backslash +:+ String c EmptyString
  | 92%N => backslash +:+ backslash
  | 8%N => backslash +:+ "b"
  | 9%N => backslash +:+ "t"
  | 10%N => backslash +:+ "n"
  | 12%N => backslash +:+ "f"
  | 13%N => backslash +:+ "r"
  | n =>
      if (n <? 32)%N
      then backslash +:+ "u00" +:+
           String (hexDigit (n / 16)) (String (hexDigit (n mod 16)) EmptyString)
      else String c EmptyString
  end.

Fixpoint quoteChars (s : string) : string :=
  match s with
  | EmptyString => EmptyString
  | String c s' => quoteChar c +:+ quoteChars s'
  end.

Definition quote (s : string) : string :=
  let dq := String (ascii_of_N 34) EmptyString in
  dq +:+ quoteChars s +:+ dq.

Definition stringify (arr : list string) : string :=
  "[" +:+ JS.join "," (map quote arr) +:+ "]".

End JSON.

(** [localStorage.setItem(key, value)] *)
Definition localStorage_setItem (key value : string) (st : State) : State :=
  {| selectedFile := selectedFile st; previewUrl := previewUrl st;
     analysis := analysis st; loading := loading st; error := error st;
     selectedAspectRatio := selectedAspectRatio st;
     autoAspectRatio := autoAspectRatio st; resizeMode := resizeMode st;
     imageProperties := imageProperties st; filters := filters st;
     rotation := rotation st; isMirrored := isMirrored st;
     customRatios := customRatios st; newRatio := newRatio st;
     ratioInputError := ratioInputError st;
     localStorage := <[key := value]> (localStorage st) |}.

(** *** Custom aspect ratios

    On mount the component reads [customRatios] back from [localStorage];
    from then on the list changes through the handlers below only. *)

Definition saveCustomRatios (ratios : list string) (st : State) : State :=
  let uniqueRatios := JS.spreadSet ratios in
  localStorage_setItem "customAnalyzerRatios" (JSON.stringify uniqueRatios)
    (setCustomRatios uniqueRatios st).

(** [/^[1-9]\d*:[1-9]\d*$/] *)
Definition ratioRegex : RegExp.t :=
  RegExp.Cat (RegExp.Range "1" "9")
    (RegExp.Cat (RegExp.Star RegExp.digit)
       (RegExp.Cat (RegExp.Chr ":")
          (RegExp.Cat (RegExp.Range "1" "9") (RegExp.Star RegExp.digit)))).

Definition handleAddRatio (st : State) : State :=
  let trimmedRatio := JS.trim (newRatio st) in
  if negb (RegExp.test ratioRegex trimmedRatio) then
    setRatioInputError (Some "Invalid format. Use W:H (e.g., 5:4).") st
  else if JS.includes (analyzerAspectRatios ++ customRatios st ++ ["Auto"])
            trimmedRatio then
    setRatioInputError (Some "This aspect ratio already exists.") st
  else
    setRatioInputError None
      (setNewRatio EmptyString
         (saveCustomRatios (customRatios st ++ [trimmedRatio]) st)).

Definition handleRemoveRatio (ratioToRemove : string) (st : State) : State :=
  let updatedRatios :=
    JS.filter (fun r => negb (String.eqb r ratioToRemove)) (customRatios st) in
  let st' := saveCustomRatios updatedRatios st in
  if String.eqb (selectedAspectRatio st) ratioToRemove
  then setSelectedAspectRatio "Auto" st'
  else st'.

(** The [onChange] of the ratio text input. *)
Definition newRatio_onChange (value : string) (st : State) : State :=
  setRatioInputError None (setNewRatio value st).

Definition allAspectRatios (st : State) : list string :=
  "Auto" :: analyzerAspectRatios ++ customRatios st.

(** *** Selecting a file *)

(** [`${a / b}`] for non-negative integers with [b] dividing [a], the
    only quotients the component renders ([b] is [gcd a _]); a zero
    divisor gives [NaN] or [Infinity]. *)
Definition quotientToString (a b : N) : string :=
  if (b =? 0)%N then (if (a =? 0)%N then "NaN" else "Infinity")
  else JS.toString (a / b).

(** The synchronous part of [handleFileChange]; [newPreviewUrl] is what
    [URL.createObjectURL(file)] returned. *)
Definition handleFileChange (file : option File.t) (newPreviewUrl : string)
    (st : State) : State :=
  match file with
  | None => st
  | Some f =>
      setIsMirrored false
        (setRotation 0%R
           (setFilters initialFilterState
              (setImageProperties None
                 (setError None
                    (setAnalysis EmptyString
                       (setPreviewUrl (Some newPreviewUrl)
                          (setSelectedFile (Some f) st)))))))
  end.

(** [image.onload] of [handleFileChange]. *)
Definition handleFileChange_onload (file : File.t) (image : Image.t)
    (st : State) : State :=
  let naturalWidth := Image.naturalWidth image in
  let naturalHeight := Image.naturalHeight image in
  let commonDivisor := gcd naturalWidth naturalHeight in
  setImageProperties
    (Some {| ImageProperties.width := naturalWidth;
             ImageProperties.height := naturalHeight;
             ImageProperties.type := File.type file;
             ImageProperties.size := File.size file;
             ImageProperties.simplifiedRatio :=
               quotientToString naturalWidth commonDivisor +:+ ":" +:+
               quotientToString naturalHeight commonDivisor |})
    (setSelectedAspectRatio "Auto"
       (setAutoAspectRatio
          (Some (JS.toString naturalWidth +:+ ":" +:+ JS.toString naturalHeight))
          st)).

(** [image.onerror] of [handleFileChange]. *)
Definition handleFileChange_onerror (st : State) : State :=
  setImageProperties None
    (setSelectedAspectRatio "16:9" (setAutoAspectRatio None st)).

(** [keyof ImageFilters] *)
Module FilterName.
Inductive t : Type :=
  brightness | contrast | saturate | grayscale | sepia | invert | hueRotate.
End FilterName.

#[export] Instance FilterName_eq_dec : EqDecision FilterName.t.
Proof. solve_decision. Defined.

(** [{ ...prev, [filterName]: value }] *)
Definition ImageFilters_set (filterName : FilterName.t) (value : N)
    (prev : ImageFilters.t) : ImageFilters.t :=
  let pick name := if decide (filterName = name) then fun _ => value
                   else fun old : N => old in
  {| ImageFilters.brightness :=
       pick FilterName.brightness (ImageFilters.brightness prev);
     ImageFilters.contrast :=
       pick FilterName.contrast (ImageFilters.contrast prev);
     ImageFilters.saturate :=
       pick FilterName.saturate (ImageFilters.saturate prev);
     ImageFilters.grayscale :=
       pick FilterName.grayscale (ImageFilters.grayscale prev);
     ImageFilters.sepia := pick FilterName.sepia (ImageFilters.sepia prev);
     ImageFilters.invert := pick FilterName.invert (ImageFilters.invert prev);
     ImageFilters.hueRotate :=
       pick FilterName.hueRotate (ImageFilters.hueRotate prev) |}.

Definition handleFilterChange (filterName : FilterName.t) (value : N)
    (st : State) : State :=
  setFilters (ImageFilters_set filterName value (filters st)) st.

Definition generateFilterString (f : ImageFilters.t) : string :=
  JS.join " "
    [ "brightness(" +:+ JS.toString (ImageFilters.brightness f) +:+ "%)";
      "contrast(" +:+ JS.toString (ImageFilters.contrast f) +:+ "%)";
      "saturate(" +:+ JS.toString (ImageFilters.saturate f) +:+ "%)";
      "grayscale(" +:+ JS.toString (ImageFilters.grayscale f) +:+ "%)";
      "sepia(" +:+ JS.toString (ImageFilters.sepia f) +:+ "%)";
      "invert(" +:+ JS.toString (ImageFilters.invert f) +:+ "%)";
      "hue-rotate(" +:+ JS.toString (ImageFilters.hueRotate f) +:+ "deg)" ].

(** *** Affine transforms *)

Local Open Scope R_scope.

(** A 2D [DOMMatrix]: the point [(x, y)] goes to
    [(a x + c y + e, b x + d y + f)]. *)
Module DOMMatrix.

Record t : Type := { a : R; b : R; c : R; d : R; e : R; f : R }.

Definition identity : t :=
  {| a := 1; b := 0; c := 0; d := 1; e := 0; f := 0 |}.

(** [multiply m n] transforms by [n] first and by [m] second. *)
Definition multiply (m n : t) : t :=
  {| a := a m * a n + c m * b n;
     b := b m * a n + d m * b n;
     c := a m * c n + c m * d n;
     d := b m * c n + d m * d n;
     e := a m * e n + c m * f n + e m;
     f := b m * e n + d m * f n + f m |}.

Definition translation (tx ty : R) : t :=
  {| a := 1; b := 0; c := 0; d := 1; e := tx; f := ty |}.

Definition rotation (angle : R) : t :=
  {| a := cos angle; b := sin angle; c := - sin angle; d := cos angle;
     e := 0; f := 0 |}.

Definition scaling (kx ky : R) : t :=
  {| a := kx; b := 0; c := 0; d := ky; e := 0; f := 0 |}.

Definition transformPoint (m : t) (p : R * R) : R * R :=
  (a m * fst p + c m * snd p + e m, b m * fst p + d m * snd p + f m).

End DOMMatrix.

(** The transform list of the preview [<img>]: CSS transform functions,
    applied to a point from the last one to the first. *)
Inductive TransformFunction : Type :=
| rotateDeg (degrees : R)
| scaleX (k : R).

Definition TransformFunction_matrix (t : TransformFunction) : DOMMatrix.t :=
  match t with
  | rotateDeg degrees => DOMMatrix.rotation (degrees * PI / 180)
  | scaleX k => DOMMatrix.scaling k 1
  end.

Definition transformList_matrix (l : list TransformFunction) : DOMMatrix.t :=
  fold_left (fun m t => DOMMatrix.multiply m (TransformFunction_matrix t))
    l DOMMatrix.identity.

(** [imageTransform]: the entries that survive [.filter(Boolean)]. *)
Definition imageTransform (st : State) : list TransformFunction :=
  rotateDeg (rotation st) :: (if isMirrored st then [scaleX (-1)] else []).

(** *** The canvas *)

(** Modelled from the spec: final pixel dimensions are truncated to
    integers only at buffer-allocation time; this is the assignment to a
    canvas's [width] or [height]. *)
Definition toDimension (x : R) : Z :=
  if Rle_dec 0 x then Int_part x else (- Int_part (- x))%Z.

(** What [drawImage] accepts as its first argument. *)
Class CanvasImageSource (S : Type) : Type := {
  sourceWidth : S -> R;
  sourceHeight : S -> R
}.

Module Canvas.

(** One [drawImage] call as the context received it: the source, the
    context's filter and transform at that moment, the source rectangle
    and the destination rectangle. *)
Record DrawCall (S : Type) : Type := {
  source : S;
  withFilter : string;
  withTransform : DOMMatrix.t;
  sx : R; sy : R; sWidth : R; sHeight : R;
  dx : R; dy : R; dWidth : R; dHeight : R
}.

(** A canvas element together with its 2D context. *)
Record t (S : Type) : Type := {
  width : Z;
  height : Z;
  filter : string;
  transform : DOMMatrix.t;
  bitmap : list (DrawCall S)
}.

Arguments source {S}.
Arguments withFilter {S}.
Arguments withTransform {S}.
Arguments sx {S}.
Arguments sy {S}.
Arguments sWidth {S}.
Arguments sHeight {S}.
Arguments dx {S}.
Arguments dy {S}.
Arguments dWidth {S}.
Arguments dHeight {S}.
Arguments width {S}.
Arguments height {S}.
Arguments filter {S}.
Arguments transform {S}.
Arguments bitmap {S}.

Section API.
Context {S : Type}.

(** [document.createElement('canvas')] *)
Definition createElement : t S :=
  {| width := 300; height := 150; filter := "none";
     transform := DOMMatrix.identity; bitmap := [] |}.

(** [canvas.width = v]: allocates the buffer, which clears the bitmap
    and resets the context. *)
Definition set_width (v : R) (cv : t S) : t S :=
  {| width := toDimension v; height := height cv; filter := "none";
     transform := DOMMatrix.identity; bitmap := [] |}.

Definition set_height (v : R) (cv : t S) : t S :=
  {| width := width cv; height := toDimension v; filter := "none";
     transform := DOMMatrix.identity; bitmap := [] |}.

Definition set_filter (v : string) (cv : t S) : t S :=
  {| width := width cv; height := height cv; filter := v;
     transform := transform cv; bitmap := bitmap cv |}.

Definition set_transform (m : DOMMatrix.t) (cv : t S) : t S :=
  {| width := width cv; height := height cv; filter := filter cv;
     transform := m; bitmap := bitmap cv |}.

(** [ctx.translate], [ctx.rotate], [ctx.scale]: each multiplies the
    current transform on the right. *)
Definition translate (tx ty : R) (cv : t S) : t S :=
  set_transform (DOMMatrix.multiply (transform cv) (DOMMatrix.translation tx ty)) cv.

Definition rotate (angle : R) (cv : t S) : t S :=
  set_transform (DOMMatrix.multiply (transform cv) (DOMMatrix.rotation angle)) cv.

Definition scale (kx ky : R) (cv : t S) : t S :=
  set_transform (DOMMatrix.multiply (transform cv) (DOMMatrix.scaling kx ky)) cv.

(** [ctx.drawImage(image, sx, sy, sWidth, sHeight, dx, dy, dWidth, dHeight)] *)
Definition drawImage9 (image : S) (sx sy sWidth sHeight dx dy dWidth dHeight : R)
    (cv : t S) : t S :=
  {| width := width cv; height := height cv; filter := filter cv;
     transform := transform cv;
     bitmap := bitmap cv ++
       [ {| source := image; withFilter := filter cv;
            withTransform := transform cv;
            sx := sx; sy := sy; sWidth := sWidth; sHeight := sHeight;
            dx := dx; dy := dy; dWidth := dWidth; dHeight := dHeight |} ] |}.

(** [ctx.drawImage(image, dx, dy, dWidth, dHeight)]: the whole source. *)
Definition drawImage5 `{CanvasImageSource S} (image : S) (dx dy dWidth dHeight : R)
    (cv : t S) : t S :=
  drawImage9 image 0 0 (sourceWidth image) (sourceHeight image)
    dx dy dWidth dHeight cv.

(** [ctx.drawImage(image, dx, dy)]: the whole source at its own size. *)
Definition drawImage3 `{CanvasImageSource S} (image : S) (dx dy : R)
    (cv : t S) : t S :=
  drawImage5 image dx dy (sourceWidth image) (sourceHeight image) cv.

End API.
End Canvas.

#[export] Instance Image_source : CanvasImageSource Image.t := {|
  sourceWidth := fun image => IZR (Z.of_N (Image.naturalWidth image));
  sourceHeight := fun image => IZR (Z.of_N (Image.naturalHeight image))
|}.

#[export] Instance Canvas_source {S} : CanvasImageSource (Canvas.t S) := {|
  sourceWidth := fun cv => IZR (Canvas.width cv);
  sourceHeight := fun cv => IZR (Canvas.height cv)
|}.

(** [drawImage] checks its source before it draws: a canvas whose width
    or height is zero makes it throw an [InvalidStateError]. *)
Definition Canvas_isEmpty {S} (cv : Canvas.t S) : bool :=
  (Canvas.width cv =? 0)%Z || (Canvas.height cv =? 0)%Z.

(** *** [getProcessedImageAsDataUrl] *)

(** The bounding box of the image rotated by [rotation] degrees:
    [rotatedWidth] and [rotatedHeight]. *)
Definition rotatedSize (naturalWidth naturalHeight rotation : R) : R * R :=
  let angleRad := rotation * PI / 180 in
  let cos := Rabs (cos angleRad) in
  let sin := Rabs (sin angleRad) in
  let rotatedWidth := naturalWidth * cos + naturalHeight * sin in
  let rotatedHeight := naturalWidth * sin + naturalHeight * cos in
  (rotatedWidth, rotatedHeight).

(** The source rectangle [(sx, sy, sWidth, sHeight)] of the crop branch. *)
Definition cropSource (width height targetAspectRatio : R) : R * R * R * R :=
  let imageAspectRatio := width / height in
  if Rlt_dec targetAspectRatio imageAspectRatio then
    let sWidth := height * targetAspectRatio in
    let sx := (width - sWidth) / 2 in
    (sx, 0, sWidth, height)
  else if Rlt_dec imageAspectRatio targetAspectRatio then
    let sHeight := width / targetAspectRatio in
    let sy := (height - sHeight) / 2 in
    (0, sy, width, sHeight)
  else (0, 0, width, height).

Definition outputWidth : R := 1024.

(** The temporary canvas: the rotated, mirrored and filtered image. *)
Definition drawTempCanvas (image : Image.t) (filters : ImageFilters.t)
    (rotation : R) (isMirrored : bool) : Canvas.t Image.t :=
  let naturalWidth := sourceWidth image in
  let naturalHeight := sourceHeight image in
  let tempCanvas := Canvas.createElement in
  let angleRad := rotation * PI / 180 in
  let '(rotatedWidth, rotatedHeight) :=
    rotatedSize naturalWidth naturalHeight rotation in
  let tempCanvas := Canvas.set_width rotatedWidth tempCanvas in
  let tempCanvas := Canvas.set_height rotatedHeight tempCanvas in
  let tempCanvas := Canvas.set_filter (generateFilterString filters) tempCanvas in
  let tempCanvas :=
    Canvas.translate (rotatedWidth / 2) (rotatedHeight / 2) tempCanvas in
  let tempCanvas := Canvas.rotate angleRad tempCanvas in
  let tempCanvas :=
    if isMirrored then Canvas.scale (-1) 1 tempCanvas else tempCanvas in
  Canvas.drawImage3 image (- naturalWidth / 2) (- naturalHeight / 2) tempCanvas.

(** The final canvas, for the target ratio [ratioW : ratioH].  The
    rectangles handed to [drawImage] are idealised in real arithmetic.
    The height assigned to the canvas is truncated to an integer, where
    the rounding of the doubles decides the result: it is the quotient as
    the machine computes it, both divisions rounded. *)
Definition drawFinalCanvas (tempCanvas : Canvas.t Image.t) (ratioW ratioH : R)
    (resizeMode : ResizeMode) : Canvas.t (Canvas.t Image.t) :=
  let finalCanvas := Canvas.createElement in
  let targetAspectRatio := ratioW / ratioH in
  let outputHeight := outputWidth / targetAspectRatio in
  let finalCanvas := Canvas.set_width outputWidth finalCanvas in
  let finalCanvas :=
    Canvas.set_height (Double.div outputWidth (Double.div ratioW ratioH))
      finalCanvas in
  match resizeMode with
  | stretch => Canvas.drawImage5 tempCanvas 0 0 outputWidth outputHeight finalCanvas
  | crop =>
      let sourceImage := tempCanvas in
      let '(sx, sy, sWidth, sHeight) :=
        cropSource (sourceWidth sourceImage) (sourceHeight sourceImage)
          targetAspectRatio in
      Canvas.drawImage9 sourceImage sx sy sWidth sHeight
        0 0 outputWidth outputHeight finalCanvas
  end.

(** The two canvases of one call, from the component's state. *)
Definition processImage (st : State) (image : Image.t) (ratioW ratioH : N)
    : Canvas.t (Canvas.t Image.t) :=
  drawFinalCanvas
    (drawTempCanvas image (filters st) (rotation st) (isMirrored st))
    (IZR (Z.of_N ratioW)) (IZR (Z.of_N ratioH)) (resizeMode st).

(** [effectiveAspectRatio.split(':').map(Number)], destructured into
    [[ratioW, ratioH]].  [None]: a part that [JS.Number] does not cover,
    a numeral that reads as [Infinity] included. *)
Definition parseRatio (effectiveAspectRatio : string) : option (N * N) :=
  match map JS.Number (JS.split ":" effectiveAspectRatio) with
  | Some ratioW :: Some ratioH :: _ => Some (ratioW, ratioH)
  | _ => None
  end.

(** [effectiveAspectRatio]: the automatic ratio when [Auto] is selected. *)
Definition effectiveAspectRatio (st : State) : option string :=
  if String.eqb (selectedAspectRatio st) "Auto"
  then autoAspectRatio st else Some (selectedAspectRatio st).

(** The MIME type handed to [toDataURL]. *)
Definition outputMimeType (file : File.t) : string :=
  if String.eqb (File.type file) "image/jpeg"
     || String.eqb (File.type file) "image/png"
  then File.type file else "image/png".

(** How a promise settles. *)
Inductive Settled (A : Type) : Type :=
| resolve (value : A)
| reject (message : string).
Arguments resolve {A}.
Arguments reject {A}.

(** What the browser answers during one call: the decoded image of
    [previewUrl] ([None] fires [image.onerror]), whether each
    [getContext('2d')] returned a context, and the message of the
    exception that [drawImage] throws for an empty source. *)
Record Browser : Type := {
  decoded : option Image.t;
  tempCtx : bool;
  finalCtx : bool;
  invalidStateError : string
}.

(** [!s] for a value of type [string | null]. *)
Definition falsy (s : option string) : bool :=
  match s with
  | None => true
  | Some v => String.eqb v EmptyString
  end.

(** What the analysis service receives. *)
Record InlineData : Type := {
  mimeType : string;
  data : option string
}.

(** One part of the contents of a Gemini request. *)
Inductive Part : Type :=
| inlineDataPart (inlineData : InlineData)
| textPart (text : string).

(** What [handleDownload] hands to the temporary link. *)
Record Download : Type := {
  href : string;
  download : string
}.

Section Services.

(** [canvas.toDataURL(type)], the browser's encoder. *)
Variable toDataURL : Canvas.t (Canvas.t Image.t) -> string -> string.

(** [ai.models.generateContent] of the Gemini client: the model name and
    the parts go in, the response text comes back or the call throws. *)
Variable generateContent : string -> list Part -> Settled string.

(** The parts [analyzeImage] builds from its argument. *)
Definition analyzeImage_parts (imageData : InlineData) : list Part :=
  let imagePart :=
    inlineDataPart {| mimeType := mimeType imageData;
                      data := data imageData |} in
  let textPart :=
    textPart ("Describe this image in detail. What is happening, who are "
              +:+ "the subjects, what are the objects, and what is the "
              +:+ "context or mood?") in
  [imagePart; textPart].

(** [analyzeImage] of the service module. *)
Definition analyzeImage (imageData : InlineData) : Settled string :=
  match generateContent "gemini-2.5-flash" (analyzeImage_parts imageData) with
  | resolve text => resolve text
  | reject _ =>
      reject ("Failed to analyze image. The image might be invalid or "
              +:+ "the service is unavailable.")
  end.

(** The body of [image.onload] runs inside [try]: what [drawImage]
    throws for an empty temporary canvas is caught and becomes the
    rejection, with the browser's message.  The result is [None] when the
    target ratio has a part that [Number] does not read as a positive
    finite number: the [NaN] and [Infinity] arithmetic that follows is
    outside the embedding.  The encoder is taken not to throw: the image
    comes from a blob URL of the selected file, which leaves the canvas
    readable. *)
Definition getProcessedImageAsDataUrl (browser : Browser) (st : State)
    : option (Settled string) :=
  match selectedFile st with
  | None => Some (reject "Please select an image file first.")
  | Some file =>
  if falsy (previewUrl st) then
    Some (reject "Please select an image file first.")
  else
  if falsy (effectiveAspectRatio st) then
    Some (reject "Could not determine aspect ratio. Please select one manually.")
  else
  match decoded browser with
  | None => Some (reject "Failed to load image file for processing.")
  | Some image =>
  if negb (tempCtx browser) then
    Some (reject "Could not get temp canvas context")
  else if negb (finalCtx browser) then
    Some (reject "Could not get final canvas context")
  else
  match effectiveAspectRatio st ≫= parseRatio with
  | Some (ratioW, ratioH) =>
      if (ratioW =? 0)%N || (ratioH =? 0)%N then None
      else
        let tempCanvas :=
          drawTempCanvas image (filters st) (rotation st) (isMirrored st) in
        if Canvas_isEmpty tempCanvas then
          Some (reject (invalidStateError browser))
        else
          let finalCanvas := processImage st image ratioW ratioH in
          let mimeType := outputMimeType file in
          Some (resolve (toDataURL finalCanvas mimeType))
  | None => None
  end
  end
  end.

(** [handleAnalyze]: the state once the handler has finished, and the
    request that went to the service, if one did.  The handler reads the
    state of the render it was created in, [st]. *)
Definition handleAnalyze (browser : Browser) (st : State)
    : option (State * option InlineData) :=
  match selectedFile st with
  | None => Some (st, None)
  | Some file =>
      let st' := setAnalysis EmptyString (setError None (setLoading true st)) in
      match getProcessedImageAsDataUrl browser st with
      | None => None
      | Some (reject message) =>
          Some (setLoading false (setError (Some message) st'), None)
      | Some (resolve dataUrl) =>
          let base64Data := JS.split "," dataUrl !! 1%nat in
          let request :=
            {| mimeType := File.type file; data := base64Data |} in
          match analyzeImage request with
          | resolve result =>
              Some (setLoading false (setAnalysis result st'), Some request)
          | reject message =>
              Some (setLoading false (setError (Some message) st'),
                    Some request)
          end
      end
  end.

(** [handleDownload]: the state afterwards and the link that was
    clicked, if one was. *)
Definition handleDownload (browser : Browser) (st : State)
    : option (State * option Download) :=
  match selectedFile st with
  | None => Some (st, None)
  | Some file =>
      let originalError := error st in
      let restore st' :=
        if falsy originalError then st' else setError originalError st' in
      let st' := setError None st in
      match getProcessedImageAsDataUrl browser st with
      | None => None
      | Some (reject message) =>
          Some (restore (setError (Some message) st'), None)
      | Some (resolve dataUrl) =>
          let nameParts := JS.split "." (File.name file) in
          let name := JS.join "." (removelast nameParts) in
          let link :=
            {| href := dataUrl;
               download :=
                 name +:+ "-edited." +:+
                 (if String.eqb (File.type file) "image/jpeg"
                  then "jpg" else "png") |} in
          Some (restore st', Some link)
      end
  end.

End Services.

(** The inputs on which a call reaches [toDataURL]: a selected file with
    its preview URL, a target ratio [ratioW : ratioH] of positive
    integers, a decoded image, both drawing contexts, and a temporary
    canvas of at least one pixel each way. *)
Record Processable (browser : Browser) (st : State) (file : File.t)
    (image : Image.t) (ratioW ratioH : N) : Prop := {
  has_file : selectedFile st = Some file;
  has_preview : falsy (previewUrl st) = false;
  has_ratio : effectiveAspectRatio st ≫= parseRatio = Some (ratioW, ratioH);
  ratioW_positive : (0 < ratioW)%N;
  ratioH_positive : (0 < ratioH)%N;
  has_image : decoded browser = Some image;
  has_tempCtx : tempCtx browser = true;
  has_finalCtx : finalCtx browser = true;
  has_pixels :
    Canvas_isEmpty
      (drawTempCanvas image (filters st) (rotation st) (isMirrored st))
    = false
}.

(** The state of a freshly mounted component. *)
Definition initialState : State :=
  {| selectedFile := None; previewUrl := None; analysis := EmptyString; loading := false;
     error := None; selectedAspectRatio := "Auto"; autoAspectRatio := None;
     resizeMode := crop; imageProperties := None;
     filters := initialFilterState; rotation := 0; isMirrored := false;
     customRatios := []; newRatio := EmptyString; ratioInputError := None;
     localStorage := ∅ |}.

(** A handler has signalled a failure when it leaves the automatic ratio
    unresolved or an error message in the state. *)
Definition signalsFailure (st : State) : bool :=
  negb (bool_decide (is_Some (autoAspectRatio st)))
  || bool_decide (is_Some (error st)).

(** *** Sample inputs *)

Definition sampleFile (type : string) : File.t :=
  {| File.name := "holiday"; File.type := type; File.size := 204800 |}.

Definition sampleImage : Image.t :=
  {| Image.naturalWidth := 1920; Image.naturalHeight := 1080 |}.

(** The state after [sampleImage] of the given MIME type was selected
    and has loaded. *)
Definition loadedState (type : string) : State :=
  handleFileChange_onload (sampleFile type) sampleImage
    (handleFileChange (Some (sampleFile type)) "blob:preview" initialState).

Definition sampleBrowser : Browser :=
  {| decoded := Some sampleImage; tempCtx := true; finalCtx := true;
     invalidStateError := "The image argument is a canvas element with a "
                          +:+ "width or height of 0." |}.

Definition sampleEncoder (canvas : Canvas.t (Canvas.t Image.t)) (type : string)
    : string :=
  "data:" +:+ type +:+ ";base64,AAAA".

Definition sampleService (model : string) (parts : list Part)
    : Settled string :=
  resolve "A landscape.".

(** *** The custom-ratio list as a transition system *)

(** The list never repeats an entry and never shadows [Auto] or a
    built-in ratio. *)
Definition ratiosInvariant (ratios : list string) : Prop :=
  NoDup ratios /\ ("Auto" ∉ ratios) /\
  forall r, r ∈ analyzerAspectRatios -> r ∉ ratios.

(** What the user can do in the custom-ratio panel. *)
Inductive ratioStep : State -> State -> Prop :=
| step_type st value : ratioStep st (newRatio_onChange value st)
| step_add st : ratioStep st (handleAddRatio st)
| step_remove st ratioToRemove : ratioStep st (handleRemoveRatio ratioToRemove st).

(** The strings [W:H] of the syntax section: [W] and [H] are decimal
    numerals that do not start with 0. *)
Definition isDigit (c : ascii) : Prop := RegExp.inRange "0" "9" c = true.
Definition isNonZeroDigit (c : ascii) : Prop := RegExp.inRange "1" "9" c = true.

Definition wellFormedRatio (s : list ascii) : Prop :=
  exists w ws h hs,
    s = (w :: ws) ++ (":"%char :: h :: hs) /\
    isNonZeroDigit w /\ Forall isDigit ws /\
    isNonZeroDigit h /\ Forall isDigit hs.

(** *** Plane geometry, in the words of the specification *)

(** The horizontal flip about the vertical axis through the origin. *)
Definition mirrorPoint (p : R * R) : R * R := (- fst p, snd p).

(** The rotation by [angle] radians about the origin. *)
Definition rotatePoint (angle : R) (p : R * R) : R * R :=
  (fst p * cos angle - snd p * sin angle,
   fst p * sin angle + snd p * cos angle).

Definition translatePoint (tx ty : R) (p : R * R) : R * R :=
  (fst p + tx, snd p + ty).

Definition squareImage : Image.t :=
  {| Image.naturalWidth := 1000; Image.naturalHeight := 1000 |}.
From Stdlib Require Import Sorted.


(** ** The rest of the component *)

(** *** Small controls *)

(** [s.replace(pattern, replacement)] for a pattern of one code unit:
    the first occurrence only. *)
Fixpoint JS_replace (pattern : ascii) (replacement : string) (s : string)
    : string :=
  match s with
  | EmptyString => EmptyString
  | String c s' =>
      if Ascii.eqb c pattern then replacement +:+ s'
      else String c (JS_replace pattern replacement s')
  end.

(** [getDisplayAspectRatio]: the CSS [aspect-ratio] of the preview box. *)
Definition getDisplayAspectRatio (st : State) : string :=
  let ratio := effectiveAspectRatio st in
  match ratio with
  | None => "16 / 9"
  | Some r =>
      if falsy ratio || String.eqb r "Auto" then "16 / 9"
      else JS_replace ":" " / " r
  end.

(** [displayedImageInfo] *)
Definition displayedImageInfo (st : State) : option string :=
  match imageProperties st with
  | None => None
  | Some p =>
      Some (JS.toString (ImageProperties.width p) +:+ "x" +:+
            JS.toString (ImageProperties.height p) +:+ " (" +:+
            ImageProperties.simplifiedRatio p +:+ ")")
  end.

(** A ratio button is disabled while loading, and the [Auto] button
    also while there is no automatic ratio. *)
Definition ratioButton_isDisabled (ratio : string) (st : State) : bool :=
  let isAuto := String.eqb ratio "Auto" in
  loading st || (isAuto && falsy (autoAspectRatio st)).

(** [setIsMirrored(prev => !prev)] *)
Definition mirrorButton_onClick (st : State) : State :=
  setIsMirrored (negb (isMirrored st)) st.

(** *** Reading the stored ratios back *)

(** [JSON.parse] as far as the mount effect looks at its result.  The
    text is read by an automaton, one code unit at a time.
    - [StringArray l]: the text is an array of strings, [l].
    - [NotAnArray]: the first token is not an opening bracket, so
      [JSON.parse] throws or returns something that is not an array.
    - [Unmodelled]: every other text that starts an array (an element
      that is not a string, a code unit above 255, or a syntax error
      inside the array). *)
Module JSONText.

Inductive Parsed : Type :=
| StringArray (items : list string)
| NotAnArray
| Unmodelled.

Inductive state : Type :=
| Start
| AfterOpen
| AfterComma (items : list string)
| InString (items : list string) (cur : list ascii)
| Escape (items : list string) (cur : list ascii)
| Unicode (items : list string) (cur : list ascii) (remaining : nat) (code : N)
| AfterString (items : list string)
| Closed (items : list string)
| NotArray
| Outside.

Definition isSpace (c : ascii) : bool :=
  match N_of_ascii c with
  | 32%N | 9%N | 10%N | 13%N => true
  | _ => false
  end.

Definition hexValue (c : ascii) : option N :=
  let n := N_of_ascii c in
  if ((48 <=? n) && (n <=? 57))%N then Some (n - 48)%N
  else if ((97 <=? n) && (n <=? 102))%N then Some (n - 87)%N
  else if ((65 <=? n) && (n <=? 70))%N then Some (n - 55)%N
  else None.

(** The code unit an escape letter stands for. *)
Definition escaped (c : ascii) : option ascii :=
  match N_of_ascii c with
  | 34%N | 92%N | 47%N => Some c
  | 98%N => Some (ascii_of_N 8)
  | 102%N => Some (ascii_of_N 12)
  | 110%N => Some (ascii_of_N 10)
  | 114%N => Some (ascii_of_N 13)
  | 116%N => Some (ascii_of_N 9)
  | _ => None
  end.

Definition step (s : state) (c : ascii) : state :=
  let n := N_of_ascii c in
  match s with
  | Start =>
      if isSpace c then Start
      else if (n =? 91)%N then AfterOpen else NotArray
  | AfterOpen =>
      if isSpace c then AfterOpen
      else if (n =? 34)%N then InString [] []
      else if (n =? 93)%N then Closed []
      else Outside
  | AfterComma items =>
      if isSpace c then AfterComma items
      else if (n =? 34)%N then InString items []
      else Outside
  | InString items cur =>
      if (n =? 34)%N
      then AfterString (items ++ [string_of_list_ascii (rev cur)])
      else if (n =? 92)%N then Escape items cur
      else if (n <? 32)%N then Outside
      else InString items (c :: cur)
  | Escape items cur =>
      if (n =? 117)%N then Unicode items cur 4 0
      else match escaped c with
           | Some e => InString items (e :: cur)
           | None => Outside
           end
  | Unicode items cur remaining code =>
      match hexValue c, remaining with
      | Some d, 1%nat =>
          let code' := (16 * code + d)%N in
          if (code' <? 256)%N then InString items (ascii_of_N code' :: cur)
          else Outside
      | Some d, S k => Unicode items cur k (16 * code + d)%N
      | _, _ => Outside
      end
  | AfterString items =>
      if isSpace c then AfterString items
      else if (n =? 44)%N then AfterComma items
      else if (n =? 93)%N then Closed items
      else Outside
  | Closed items => if isSpace c then Closed items else Outside
  | NotArray => NotArray
  | Outside => Outside
  end.

Definition run (s : state) (text : list ascii) : state :=
  fold_left step text s.

Definition parse (text : string) : Parsed :=
  match run Start (list_ascii_of_string text) with
  | Closed items => StringArray items
  | Start | NotArray => NotAnArray
  | _ => Unmodelled
  end.

End JSONText.

(** The mount effect: [customRatios] is set from the stored text when
    that text parses to an array.  [None]: a stored text that
    [JSONText.parse] does not cover. *)
Definition useEffect_mount (st : State) : option State :=
  let storedRatios := localStorage st !! "customAnalyzerRatios" in
  if falsy storedRatios then Some st
  else match storedRatios with
       | None => Some st
       | Some text =>
           match JSONText.parse text with
           | JSONText.StringArray parsed => Some (setCustomRatios parsed st)
           | JSONText.NotAnArray => Some st
           | JSONText.Unmodelled => None
           end
       end.

(** Loading the page: every hook starts from its initial value, the
    storage is what the browser kept, and the mount effect runs. *)
Definition pageLoad (storage : gmap string string) : option State :=
  useEffect_mount
    {| selectedFile := None; previewUrl := None; analysis := EmptyString;
       loading := false; error := None; selectedAspectRatio := "Auto";
       autoAspectRatio := None; resizeMode := crop; imageProperties := None;
       filters := initialFilterState; rotation := 0; isMirrored := false;
       customRatios := []; newRatio := EmptyString; ratioInputError := None;
       localStorage := storage |}.

(** *** The component as a transition system *)

(** Everything a user and the browser can do to the component.  The
    controls' [disabled] flags are left out except on the ratio buttons,
    so the relation allows at least what the page allows.  A handler that
    awaits is taken as one step: between its start and its end it only
    writes [loading], [error] and [analysis]. *)
Inductive uiStep : State -> State -> Prop :=
| ui_type st value : uiStep st (newRatio_onChange value st)
| ui_add st : uiStep st (handleAddRatio st)
| ui_remove st ratioToRemove : uiStep st (handleRemoveRatio ratioToRemove st)
| ui_select st ratio :
    ratio ∈ allAspectRatios st ->
    ratioButton_isDisabled ratio st = false ->
    uiStep st (setSelectedAspectRatio ratio st)
| ui_resize st mode : uiStep st (setResizeMode mode st)
| ui_rotate st value : uiStep st (setRotation value st)
| ui_mirror st : uiStep st (mirrorButton_onClick st)
| ui_filter st filterName value :
    uiStep st (handleFilterChange filterName value st)
| ui_resetFilters st : uiStep st (setFilters initialFilterState st)
| ui_file st file newPreviewUrl :
    uiStep st (handleFileChange file newPreviewUrl st)
| ui_onload st file image : uiStep st (handleFileChange_onload file image st)
| ui_onerror st : uiStep st (handleFileChange_onerror st)
| ui_analyze st toDataURL generateContent browser st' request :
    handleAnalyze toDataURL generateContent browser st = Some (st', request) ->
    uiStep st st'
| ui_download st toDataURL browser st' link :
    handleDownload toDataURL browser st = Some (st', link) ->
    uiStep st st'
| ui_reload st st' : pageLoad (localStorage st) = Some st' -> uiStep st st'.

(** A state the page can be in when it starts from empty storage. *)
Definition reachable (st : State) : Prop := rtc uiStep initialState st.

Definition wellFormedRatioString (r : string) : Prop :=
  wellFormedRatio (list_ascii_of_string r).

(** The stored text is the list on the screen; before the first save
    there is neither. *)
Definition storageInSync (st : State) : Prop :=
  match localStorage st !! "customAnalyzerRatios" with
  | None => customRatios st = []
  | Some text => text = JSON.stringify (customRatios st)
  end.

(** *** [src/components/ImageGenerator.tsx] and [generateImage] *)

Module Generator.

Record State : Type := {
  prompt : string;
  selectedAspectRatio : string;
  imageUrl : option string;
  loading : bool;
  error : option string
}.

Definition initialState : State :=
  {| prompt := EmptyString; selectedAspectRatio := "1:1"; imageUrl := None;
     loading := false; error := None |}.

(** The argument of [ai.models.generateImages]. *)
Record Request : Type := {
  model : string;
  requestPrompt : string;
  numberOfImages : N;
  outputMimeType : string;
  aspectRatio : string
}.

Section Service.

(** [ai.models.generateImages]: the [imageBytes] of the generated
    images, when the response has a [generatedImages] field. *)
Variable generateImages : Request -> Settled (option (list string)).

Definition generateImage_request (prompt aspectRatio : string) : Request :=
  {| model := "imagen-4.0-generate-001";
     requestPrompt := prompt;
     numberOfImages := 1;
     outputMimeType := "image/jpeg";
     aspectRatio := aspectRatio |}.

(** [generateImage]: the body of the [try], then the [catch]. *)
Definition generateImage (prompt aspectRatio : string) : Settled string :=
  let attempt :=
    match generateImages (generateImage_request prompt aspectRatio) with
    | resolve (Some (imageBytes :: _)) => resolve imageBytes
    | resolve _ => reject "No image was generated."
    | reject message => reject message
    end in
  match attempt with
  | resolve imageBytes => resolve imageBytes
  | reject _ =>
      reject ("Failed to generate image. Please check your prompt and "
              +:+ "API key.")
  end.

(** [handleGenerate]: the state afterwards and whether the service was
    called. *)
Definition handleGenerate (st : State) : State * bool :=
  if String.eqb (JS.trim (prompt st)) EmptyString then
    ({| prompt := prompt st; selectedAspectRatio := selectedAspectRatio st;
        imageUrl := imageUrl st; loading := loading st;
        error := Some "Please enter a prompt." |}, false)
  else
    match generateImage (prompt st) (selectedAspectRatio st) with
    | resolve imageBytes =>
        ({| prompt := prompt st; selectedAspectRatio := selectedAspectRatio st;
            imageUrl := Some ("data:image/jpeg;base64," +:+ imageBytes);
            loading := false; error := None |}, true)
    | reject message =>
        ({| prompt := prompt st; selectedAspectRatio := selectedAspectRatio st;
            imageUrl := None; loading := false; error := Some message |}, true)
    end.

End Service.

(** [handleDownload]; [now] is [Date.now()]. *)
Definition handleDownload (now : N) (st : State) : option Download :=
  if falsy (imageUrl st) then None
  else match imageUrl st with
       | None => None
       | Some url =>
           Some {| href := url;
                   download := "gemini-generated-" +:+ JS.toString now
                               +:+ ".jpeg" |}
       end.

End Generator.

(** What holds of the ratio list, the selection and the storage in
    every reachable state. *)
Definition uiInvariant (st : State) : Prop :=
  ratiosInvariant (customRatios st) /\
  Forall wellFormedRatioString (customRatios st) /\
  (selectedAspectRatio st ∈ allAspectRatios st) /\
  storageInSync st.

(** A text made of white space only. *)
Definition blank (pad : string) : Prop :=
  Forall (fun c => JS.isWhiteSpace c = true) (list_ascii_of_string pad).

(** The messages [getProcessedImageAsDataUrl] rejects with of its own
    accord. *)
Definition pipelineMessages : list string :=
  [ "Please select an image file first.";
    "Could not determine aspect ratio. Please select one manually.";
    "Failed to load image file for processing.";
    "Could not get temp canvas context";
    "Could not get final canvas context" ].

(** The message [analyzeImage] rejects with. *)
Definition serviceMessage : string :=
  "Failed to analyze image. The image might be invalid or "
  +:+ "the service is unavailable.".

(** *** A sample session *)

(** A photo is chosen and loads, two ratios are added, the second one is
    selected and then removed. *)
Definition sampleSession : State :=
  let s1 := loadedState "image/png" in
  let s2 := handleAddRatio (newRatio_onChange "5:4" s1) in
  let s3 := handleAddRatio (newRatio_onChange " 21:9" s2) in
  let s4 := setSelectedAspectRatio "21:9" s3 in
  handleRemoveRatio "21:9" s4.

(** Two states that differ at most in [analysis], [error] and
    [loading]. *)
Definition sameButOutcome (st st' : State) : Prop :=
  selectedFile st' = selectedFile st /\
  previewUrl st' = previewUrl st /\
  selectedAspectRatio st' = selectedAspectRatio st /\
  autoAspectRatio st' = autoAspectRatio st /\
  resizeMode st' = resizeMode st /\
  imageProperties st' = imageProperties st /\
  filters st' = filters st /\
  rotation st' = rotation st /\
  isMirrored st' = isMirrored st /\
  customRatios st' = customRatios st /\
  newRatio st' = newRatio st /\
  ratioInputError st' = ratioInputError st /\
  localStorage st' = localStorage st.

(** A text without the given code unit. *)
Definition freeOf (sep : ascii) (s : string) : Prop :=
  Forall (fun c => c <> sep) (list_ascii_of_string s).
Example trim_ex : JS.trim "  5:4 " = "5:4".
Proof. reflexivity. Qed.

Example split_ex : JS.split ":" "16:9" = ["16"; "9"].
Proof. reflexivity. Qed.

Example toString_ex : JS.toString 1920 = "1920".
Proof. reflexivity. Qed.

Example Number_ex : JS.Number "1080" = Some 1080%N.
Proof. reflexivity. Qed.

Example spreadSet_ex : JS.spreadSet ["a"; "b"; "a"; "c"; "b"] = ["a"; "b"; "c"].
Proof. reflexivity. Qed.

Example gcd_ex : gcd 1920 1080 = 120%N.
Proof. reflexivity. Qed.

Lemma gcd_zero (a : N) : gcd a 0 = a.
Proof. now simp gcd. Qed.

Lemma gcd_step (a b : N) : b <> 0%N -> gcd a b = gcd b (a mod b)%N.
Proof.
  intros Hb. rewrite (gcd_equation_1 a b).
  destruct (N.eq_dec b 0%N) as [E | E]; [contradiction | reflexivity].
Qed.

Example stringify_ex : JSON.stringify ["5:4"; "7:5"] =
  String.concat EmptyString ["["; JSON.quote "5:4"; ","; JSON.quote "7:5"; "]"].
Proof. reflexivity. Qed.

(** * Double-precision rounding *)

Module DoubleFacts.
Import Double.

Lemma Int_part_bounds (x : R) : IZR (Int_part x) <= x < IZR (Int_part x) + 1.
Proof. pose proof (base_Int_part x). lra. Qed.

Lemma Int_part_unique (x : R) (z : Z) : IZR z <= x < IZR z + 1 -> Int_part x = z.
Proof. intros H. symmetry. apply Int_part_spec. lra. Qed.



Lemma nearestEven_unique (x : R) (m : Z) :
  Rabs (x - IZR m) < 1 / 2 -> nearestEven x = m.
Proof.
  intros H. apply Rabs_def2 in H. unfold nearestEven.
  pose proof (Int_part_bounds x) as Hb.
  set (below := Int_part x) in *.
  assert (Hcases : (m = below \/ m = below + 1)%Z).
  { assert (H1 : (below - 1 < m)%Z) by (apply lt_IZR; rewrite minus_IZR; lra).
    assert (H2 : (m < below + 2)%Z) by (apply lt_IZR; rewrite plus_IZR; lra).
    lia. }
  destruct Hcases as [-> | ->]; rewrite ?plus_IZR in H.
  - destruct (Rlt_dec _ _) as [H1 | H1]; [reflexivity | exfalso; lra].
  - destruct (Rlt_dec _ _) as [H1 | H1]; [exfalso; lra |].
    destruct (Rlt_dec _ _) as [H2 | H2]; [reflexivity | exfalso; lra].
Qed.

Lemma nearestEven_IZR (m : Z) : nearestEven (IZR m) = m.
Proof. apply nearestEven_unique. rewrite Rminus_diag, Rabs_R0. lra. Qed.

Lemma ln_2_pos : 0 < ln 2.
Proof. pose proof ln_lt_2. lra. Qed.

Lemma ln_powerRZ_2 (k : Z) : ln (powerRZ 2 k) = IZR k * ln 2.
Proof.
  rewrite powerRZ_Rpower by lra. unfold Rpower. apply ln_exp.
Qed.

Lemma powerRZ_2_pos (k : Z) : 0 < powerRZ 2 k.
Proof. apply powerRZ_lt. lra. Qed.


Lemma powerRZ_2_opp (k : Z) : powerRZ 2 k * powerRZ 2 (- k) = 1.
Proof.
  rewrite <- powerRZ_add by lra. now rewrite Z.add_opp_diag_r.
Qed.

Lemma powerRZ_2_IZR (k : Z) : (0 <= k)%Z -> powerRZ 2 k = IZR (2 ^ k).
Proof.
  intros H. destruct k as [| p | p]; [reflexivity | | lia].
  now rewrite <- Zpower_pos_powerRZ.
Qed.

(** [mag x] is the exponent of the binade of [x]. *)
Lemma mag_unique (x : R) (k : Z) :
  powerRZ 2 (k - 1) <= Rabs x < powerRZ 2 k -> mag x = k.
Proof.
  intros [Hlo Hhi]. unfold mag.
  pose proof (powerRZ_2_pos (k - 1)) as Hpos.
  pose proof ln_2_pos as Hln.
  assert (Hx : 0 < Rabs x) by lra.
  assert (H1 : IZR (k - 1) * ln 2 <= ln (Rabs x)).
  { rewrite <- ln_powerRZ_2. destruct Hlo as [Hlt | ->]; [| lra].
    left. now apply ln_increasing. }
  assert (H2 : ln (Rabs x) < IZR k * ln 2).
  { rewrite <- ln_powerRZ_2. now apply ln_increasing. }
  rewrite minus_IZR in H1.
  rewrite (Int_part_unique _ (k - 1)); [lia |].
  rewrite minus_IZR. split.
  - apply (Rmult_le_reg_r (ln 2)); [exact Hln |].
    unfold Rdiv. rewrite Rmult_assoc, Rinv_l by lra. lra.
  - apply (Rmult_lt_reg_r (ln 2)); [exact Hln |].
    unfold Rdiv. rewrite Rmult_assoc, Rinv_l by lra. lra.
Qed.


(** What [round] returns, given the binade of [x] and the nearest
    multiple of the spacing of the doubles there. *)
Lemma round_eq (x : R) (k m : Z) :
  powerRZ 2 (k - 1) <= Rabs x < powerRZ 2 k ->
  (-1074 <= k - 53)%Z ->
  Rabs (x * powerRZ 2 (53 - k) - IZR m) < 1 / 2 ->
  round x = IZR m * powerRZ 2 (k - 53).
Proof.
  intros Hk He Hm. unfold round.
  rewrite (mag_unique x k Hk), Z.max_l by lia.
  replace (- (k - 53))%Z with (53 - k)%Z by lia.
  now rewrite (nearestEven_unique _ m Hm).
Qed.


(** The natural numbers below [2^53] are doubles. *)
Lemma round_IZR (n : Z) : (0 < n < 2 ^ 53)%Z -> round (IZR n) = IZR n.
Proof.
  intros [Hpos Hlt].
  destruct (Z.log2_spec n Hpos) as [Hlo Hhi].
  pose proof (Z.log2_nonneg n) as Hnn.
  set (j := Z.log2 n) in *.
  assert (Hj : (j < 53)%Z).
  { apply (Z.pow_lt_mono_r_iff 2); lia. }
  rewrite (round_eq (IZR n) (j + 1) (n * 2 ^ (52 - j))).
  - rewrite mult_IZR, <- (powerRZ_2_IZR (52 - j)) by lia.
    rewrite Rmult_assoc, <- powerRZ_add by lra.
    replace (52 - j + (j + 1 - 53))%Z with 0%Z by lia. cbn. lra.
  - rewrite Rabs_pos_eq by (apply IZR_le; lia).
    replace (j + 1 - 1)%Z with j by lia.
    rewrite !powerRZ_2_IZR by lia. split; [apply IZR_le | apply IZR_lt]; lia.
  - lia.
  - replace (53 - (j + 1))%Z with (52 - j)%Z by lia.
    rewrite powerRZ_2_IZR, <- mult_IZR, Rminus_diag, Rabs_R0 by lia. lra.
Qed.

(** [round] on a value whose binade is known, with the scale [2^j] that
    makes its 53 leading bits an integer. *)
Lemma round_scaled (x : R) (j m : Z) :
  (0 <= j <= 1074)%Z ->
  IZR (2 ^ 52) <= x * IZR (2 ^ j) < IZR (2 ^ 53) ->
  Rabs (x * IZR (2 ^ j) - IZR m) < 1 / 2 ->
  round x = IZR m / IZR (2 ^ j).
Proof.
  intros Hj Hx Hm.
  assert (Hs : 0 < IZR (2 ^ j)) by (apply IZR_lt; lia).
  assert (H52 : 0 < IZR (2 ^ 52)) by (apply IZR_lt; lia).
  assert (Hpos : 0 < x) by nra.
  rewrite <- (powerRZ_2_IZR j) in Hx, Hm, Hs |- * by lia.
  rewrite <- (powerRZ_2_IZR 52), <- (powerRZ_2_IZR 53) in Hx by lia.
  pose proof (powerRZ_2_opp j) as Hinv.
  rewrite (round_eq x (53 - j) m).
  - replace (53 - j - 53)%Z with (- j)%Z by lia. unfold Rdiv. f_equal.
    apply (Rmult_eq_reg_l (powerRZ 2 j)); [| lra].
    rewrite Hinv. field. lra.
  - rewrite Rabs_pos_eq by lra.
    replace (53 - j - 1)%Z with (52 + - j)%Z by lia.
    replace (53 - j)%Z with (53 + - j)%Z by lia.
    rewrite !powerRZ_add by lra.
    pose proof (powerRZ_2_pos (- j)) as Hneg.
    split.
    + apply (Rmult_le_reg_r (powerRZ 2 j)); [exact Hs |].
      rewrite Rmult_assoc, (Rmult_comm (powerRZ 2 (- j))), Hinv. lra.
    + apply (Rmult_lt_reg_r (powerRZ 2 j)); [exact Hs |].
      rewrite Rmult_assoc, (Rmult_comm (powerRZ 2 (- j))), Hinv. lra.
  - lia.
  - now replace (53 - (53 - j))%Z with j by lia.
Qed.


End DoubleFacts.

(** ** [Number] on numerals *)

Module NumberFacts.
Import Double DoubleFacts.
Local Open Scope N_scope.

Lemma size_small (n : N) : n < 2 ^ 53 -> N.size n - 53 = 0.
Proof.
  intros H. apply N.sub_0_le.
  destruct (N.eq_dec n 0) as [-> | Hn]; [cbn; lia |].
  rewrite N.size_log2 by exact Hn.
  apply N.le_succ_l. apply N.log2_lt_pow2; [lia | exact H].
Qed.

Lemma excess_le (n : N) : n <> 0 -> 2 ^ (N.size n - 53) <= n.
Proof.
  intros Hn. rewrite N.size_log2 by exact Hn.
  destruct (N.log2_spec n ltac:(lia)) as [Hlo _].
  etransitivity; [| exact Hlo].
  apply N.pow_le_mono_r; lia.
Qed.

Lemma nearestEvenN_bounds (n excess : N) :
  n / 2 ^ excess <= nearestEvenN n excess <= n / 2 ^ excess + 1.
Proof.
  unfold nearestEvenN. destruct (_ || _); lia.
Qed.

(** Integers below [2^53] are doubles: [Number] reads them exactly. *)
Lemma ofN_exact (n : N) : n < 2 ^ 53 -> ofN n = Some n.
Proof.
  intros H. unfold ofN, nearestEvenN. rewrite (size_small n H).
  change (2 ^ 0) with 1. rewrite N.div_1_r, N.mod_1_r.
  change (2 * 0) with 0. change (1 <? 0) with false.
  change (1 =? 0) with false. cbn [orb andb]. rewrite N.mul_1_r.
  assert (Hlt : n < 2 ^ 1024).
  { eapply N.lt_trans; [exact H |]. apply N.pow_lt_mono_r; lia. }
  apply N.ltb_lt in Hlt. now rewrite Hlt.
Qed.

(** Rounding never turns a positive integer into zero. *)
Lemma ofN_positive (n m : N) : ofN n = Some m -> 0 < n -> 0 < m.
Proof.
  unfold ofN. intros H Hn.
  destruct (_ <? _); [| discriminate]. injection H as <-.
  pose proof (excess_le n ltac:(lia)) as Hle.
  pose proof (nearestEvenN_bounds n (N.size n - 53)) as [Hlo _].
  assert (Hpow : 0 < 2 ^ (N.size n - 53)) by (apply N.neq_0_lt_0, N.pow_nonzero; lia).
  assert (1 <= n / 2 ^ (N.size n - 53)).
  { apply N.div_le_lower_bound; lia. }
  nia.
Qed.


(** Integers below [2^1023] stay finite. *)
Lemma ofN_finite (n : N) : n < 2 ^ 1023 -> is_Some (ofN n).
Proof.
  intros H. unfold ofN.
  destruct (N.eq_dec n 0) as [-> | Hn]; [now eexists |].
  pose proof (excess_le n Hn) as Hle.
  pose proof (nearestEvenN_bounds n (N.size n - 53)) as [_ Hhi].
  set (excess := N.size n - 53) in *.
  assert (Hpow : 2 ^ excess <> 0) by (apply N.pow_nonzero; lia).
  pose proof (N.Div0.mul_div_le n (2 ^ excess)) as Hdiv.
  assert (Hlt : nearestEvenN n excess * 2 ^ excess < 2 ^ 1024).
  { change (2 ^ 1024) with (2 * 2 ^ 1023). nia. }
  apply N.ltb_lt in Hlt. rewrite Hlt. now eexists.
Qed.

Lemma IZR_pow2 (e : N) : IZR (Z.of_N (2 ^ e)) = powerRZ 2 (Z.of_N e).
Proof.
  rewrite powerRZ_2_IZR by lia. f_equal. now rewrite N2Z.inj_pow.
Qed.

(** [nearestEvenN] is [nearestEven] on the quotients of integers by
    powers of two. *)
Lemma nearestEvenN_nearestEven (n e : N) :
  Z.of_N (nearestEvenN n e)
  = nearestEven (IZR (Z.of_N n) * powerRZ 2 (- Z.of_N e)).
Proof.
  pose proof (N.div_mod n (2 ^ e) ltac:(apply N.pow_nonzero; lia)) as Hdiv.
  pose proof (N.mod_lt n (2 ^ e) ltac:(apply N.pow_nonzero; lia)) as Hrem.
  unfold nearestEvenN.
  set (below := n / 2 ^ e) in *. set (rest := n mod 2 ^ e) in *.
  set (E := 2 ^ e) in *.
  assert (HE : (0 < IZR (Z.of_N E))%R) by (apply IZR_lt; lia).
  assert (Hx : (IZR (Z.of_N n) * powerRZ 2 (- Z.of_N e)
                = IZR (Z.of_N below) + IZR (Z.of_N rest) / IZR (Z.of_N E))%R).
  { rewrite powerRZ_neg', <- IZR_pow2. fold E. rewrite Hdiv.
    rewrite N2Z.inj_add, N2Z.inj_mul, plus_IZR, mult_IZR. field. lra. }
  rewrite Hx. clear Hx.
  assert (Hrest : (0 <= IZR (Z.of_N rest) < IZR (Z.of_N E))%R).
  { split; [apply IZR_le | apply IZR_lt]; lia. }
  set (f := (IZR (Z.of_N rest) / IZR (Z.of_N E))%R).
  assert (Hf : (0 <= f < 1)%R).
  { unfold f. split.
    - apply Rmult_le_pos; [lra |]. apply Rlt_le, Rinv_0_lt_compat. lra.
    - apply (Rmult_lt_reg_r (IZR (Z.of_N E))); [exact HE |].
      unfold Rdiv. rewrite Rmult_assoc, Rinv_l by lra. lra. }
  assert (Hcmp : (f * IZR (Z.of_N E) = IZR (Z.of_N rest))%R).
  { unfold f. field. lra. }
  unfold nearestEven.
  rewrite (Int_part_unique _ (Z.of_N below)) by lra.
  replace (IZR (Z.of_N below) + f - IZR (Z.of_N below))%R with f by lra.
  assert (H2 : (2 * IZR (Z.of_N rest) = IZR (Z.of_N (2 * rest)))%R).
  { rewrite N2Z.inj_mul, mult_IZR. reflexivity. }
  destruct (N.ltb_spec E (2 * rest)) as [Hgt | Hle]; cbn [orb].
  - assert (Hgt' : (IZR (Z.of_N E) < IZR (Z.of_N (2 * rest)))%R)
      by (apply IZR_lt; lia).
    destruct (Rlt_dec f (1 / 2)) as [H | _]; [exfalso; nra |].
    destruct (Rlt_dec (1 / 2) f) as [_ | H]; [lia | exfalso; nra].
  - destruct (N.eqb_spec E (2 * rest)) as [Heq | Hne]; cbn [andb].
    + assert (Heq' : (IZR (Z.of_N E) = IZR (Z.of_N (2 * rest)))%R)
        by now rewrite Heq.
      destruct (Rlt_dec f (1 / 2)) as [H | _]; [exfalso; nra |].
      destruct (Rlt_dec (1 / 2) f) as [H | _]; [exfalso; nra |].
      rewrite <- Z.negb_odd.
      replace (Z.odd (Z.of_N below)) with (N.odd below).
      * destruct (N.odd below); cbn [negb]; lia.
      * destruct below as [| [p | p |]]; reflexivity.
    + assert (Hlt' : (IZR (Z.of_N (2 * rest)) < IZR (Z.of_N E))%R)
        by (apply IZR_lt; lia).
      destruct (Rlt_dec f (1 / 2)) as [_ | H]; [reflexivity | exfalso; nra].
Qed.

(** [Number] on a numeral and [round] on its value are the same
    rounding. *)
Lemma ofN_round (n m : N) :
  ofN n = Some m -> IZR (Z.of_N m) = round (IZR (Z.of_N n)).
Proof.
  unfold ofN. intros H.
  destruct (_ <? _); [| discriminate]. injection H as <-.
  destruct (N.eq_dec n 0) as [-> | Hn].
  { change (IZR (Z.of_N _)) with 0%R at 1. change (IZR (Z.of_N 0)) with 0%R.
    unfold round. now rewrite Rmult_0_l, (nearestEven_IZR 0), Rmult_0_l. }
  destruct (N.lt_ge_cases n (2 ^ 53)) as [Hsmall | Hbig].
  { rewrite (size_small n Hsmall). unfold nearestEvenN.
    change (2 ^ 0) with 1. rewrite N.div_1_r, N.mod_1_r.
    change (2 * 0) with 0. change (1 <? 0) with false.
    change (1 =? 0) with false. cbn [orb andb]. rewrite N.mul_1_r.
    symmetry. apply round_IZR. split; [lia |].
    change (2 ^ 53)%Z with (Z.of_N (2 ^ 53)). lia. }
  destruct (N.log2_spec n ltac:(lia)) as [Hlo Hhi].
  assert (HL : 53 <= N.log2 n).
  { apply N.log2_le_pow2; [lia | exact Hbig]. }
  rewrite N.size_log2 by exact Hn.
  set (L := N.log2 n) in *.
  replace (N.succ L - 53) with (L - 52) by lia.
  set (e := L - 52).
  rewrite N2Z.inj_mul, mult_IZR, IZR_pow2, nearestEvenN_nearestEven.
  unfold round.
  rewrite (mag_unique _ (Z.of_N L + 1)).
  - rewrite Z.max_l by lia.
    replace (Z.of_N L + 1 - 53)%Z with (Z.of_N e) by lia. reflexivity.
  - rewrite Rabs_pos_eq by (apply IZR_le; lia).
    replace (Z.of_N L + 1 - 1)%Z with (Z.of_N L) by lia.
    replace (Z.of_N L + 1)%Z with (Z.of_N (N.succ L)) by lia.
    rewrite <- !IZR_pow2.
    split; [apply IZR_le | apply IZR_lt]; lia.
Qed.

(** Above [2^53] the odd integers are not doubles; a numeral of 309
    nines is read as [Infinity]. *)
Example ofN_rounds :
  ofN 9007199254740993 = Some 9007199254740992 /\
  ofN 9007199254740995 = Some 9007199254740996 /\
  ofN (10 ^ 309 - 1) = None /\
  ofN (2 ^ 1024 - 2 ^ 970 - 1) = Some (2 ^ 1024 - 2 ^ 971) /\
  ofN (2 ^ 1024 - 2 ^ 970) = None.
Proof. repeat split; vm_compute; reflexivity. Qed.

End NumberFacts.

(** * The greatest common divisor *)

Lemma gcd_is_Ngcd (a b : N) : gcd a b = N.gcd a b.
Proof.
  funelim (gcd a b).
  - subst. now rewrite N.gcd_0_r.
  - match goal with IH : gcd _ _ = N.gcd _ _ |- _ => rewrite IH end.
    rewrite (N.gcd_comm b), N.Lcm0.gcd_mod. apply N.gcd_comm.
Qed.

Lemma gcd_divide_both (a b : N) : (gcd a b | a)%N /\ (gcd a b | b)%N.
Proof.
  rewrite gcd_is_Ngcd. split; [apply N.gcd_divide_l | apply N.gcd_divide_r].
Qed.

Lemma gcd_nonzero (a b : N) : (0 < a)%N -> gcd a b <> 0%N.
Proof.
  rewrite gcd_is_Ngcd. intros Ha E.
  apply N.gcd_eq_0_l in E. lia.
Qed.

Lemma quotientToString_exact (a g : N) :
  g <> 0%N -> quotientToString a g = JS.toString (a / g).
Proof.
  intros Hg. unfold quotientToString.
  destruct (N.eqb_spec g 0); [contradiction | reflexivity].
Qed.

(** * Selecting a file *)

Section FileSelection.

Variables (file : File.t) (st : State).

(** C5. For positive dimensions [w], [h] the load handler computes
    [g = gcd w h] by Euclid's algorithm ([gcd a 0 = a], otherwise
    [gcd a b = gcd b (a mod b)]), stores the raw ratio string ["w:h"] and
    the simplified ratio ["(w/g):(h/g)"]; the simplified pair is in the
    same proportion as [w : h] (cross-multiplication) and is coprime. *)
Theorem C5_auto_ratio_simplified (w h : N) :
  (0 < w)%N -> (0 < h)%N ->
  let image := {| Image.naturalWidth := w; Image.naturalHeight := h |} in
  let st' := handleFileChange_onload file image st in
  let g := gcd w h in
  let simplifiedW := (w / g)%N in
  let simplifiedH := (h / g)%N in
  (forall a, gcd a 0 = a) /\
  (forall a b, b <> 0%N -> gcd a b = gcd b (a mod b)%N) /\
  g = N.gcd w h /\
  autoAspectRatio st' = Some (JS.toString w +:+ ":" +:+ JS.toString h) /\
  option_map ImageProperties.simplifiedRatio (imageProperties st')
    = Some (JS.toString simplifiedW +:+ ":" +:+ JS.toString simplifiedH) /\
  (w * simplifiedH = h * simplifiedW)%N /\
  N.gcd simplifiedW simplifiedH = 1%N.
Proof.
  intros Hw Hh image st' g simplifiedW simplifiedH.
  assert (Hg : g <> 0%N) by (apply gcd_nonzero; assumption).
  destruct (gcd_divide_both w h) as [[qw Hqw] [qh Hqh]].
  fold g in Hqw, Hqh.
  assert (Ew : simplifiedW = qw).
  { unfold simplifiedW. rewrite Hqw at 1. now apply N.div_mul. }
  assert (Eh : simplifiedH = qh).
  { unfold simplifiedH. rewrite Hqh at 1. now apply N.div_mul. }
  split; [exact gcd_zero |].
  split; [exact gcd_step |].
  split; [apply gcd_is_Ngcd |].
  split; [reflexivity |].
  split.
  { cbn. fold g. now rewrite !quotientToString_exact by assumption. }
  split.
  - rewrite Ew, Eh. rewrite Hqw at 1. rewrite Hqh at 1. lia.
  - apply N.gcd_div_gcd; [assumption | apply gcd_is_Ngcd].
Qed.

(** C6, as the code has it.  The load handler has no failure path: for
    all dimensions, zero included, it stores the raw ratio string, selects
    [Auto], stores image properties and leaves the error state as it was.
    With one dimension 0 the divisor is the other dimension; with both 0
    the simplified ratio is rendered from [0 / 0]. *)
Theorem C6_onload_never_fails (w h : N) :
  let image := {| Image.naturalWidth := w; Image.naturalHeight := h |} in
  let st' := handleFileChange_onload file image st in
  autoAspectRatio st' = Some (JS.toString w +:+ ":" +:+ JS.toString h) /\
  selectedAspectRatio st' = "Auto" /\
  is_Some (imageProperties st') /\
  error st' = error st /\
  signalsFailure st' = bool_decide (is_Some (error st)) /\
  gcd 0 h = h /\ gcd w 0 = w /\
  quotientToString 0 (gcd 0 0) = "NaN".
Proof.
  intros image st'.
  split; [reflexivity |].
  split; [reflexivity |].
  split; [eexists; reflexivity |].
  split; [reflexivity |].
  split; [reflexivity |].
  split; [rewrite gcd_is_Ngcd; apply N.gcd_0_l |].
  split; [apply gcd_zero |].
  reflexivity.
Qed.

End FileSelection.

Lemma C5_auto_ratio_simplified_witness :
  let file := {| File.name := "photo.jpg"; File.type := "image/jpeg";
                 File.size := 204800 |} in
  let image := {| Image.naturalWidth := 1920; Image.naturalHeight := 1080 |} in
  let st' := handleFileChange_onload file image initialState in
  gcd 1920 1080 = 120%N /\
  autoAspectRatio st' = Some "1920:1080" /\
  option_map ImageProperties.simplifiedRatio (imageProperties st')
    = Some "16:9" /\
  N.gcd 16 9 = 1%N.
Proof.
  pose proof (C5_auto_ratio_simplified
    {| File.name := "photo.jpg"; File.type := "image/jpeg"; File.size := 204800 |}
    initialState 1920 1080 eq_refl eq_refl) as H.
  cbv zeta in H. destruct H as (_ & _ & Hg & Hauto & Hsimp & _ & Hco).
  split; [reflexivity |].
  split; [exact Hauto |].
  split; [exact Hsimp | exact Hco].
Defined.

(** C6, as the claim states it, fails: a zero width is not signalled.
    For a 0 x 5 image the handler resolves the ratio ["0:5"], simplifies
    it to ["0:1"] and reports no failure. *)
Lemma C6_counterexample :
  let file := {| File.name := "empty.svg"; File.type := "image/svg+xml";
                 File.size := 120 |} in
  let image := {| Image.naturalWidth := 0; Image.naturalHeight := 5 |} in
  let st' := handleFileChange_onload file image initialState in
  (Image.naturalWidth image = 0%N \/ Image.naturalHeight image = 0%N) /\
  signalsFailure st' = false /\
  autoAspectRatio st' = Some "0:5" /\
  option_map ImageProperties.simplifiedRatio (imageProperties st') = Some "0:1".
Proof.
  cbv zeta.
  split; [left; reflexivity |].
  split; [reflexivity |].
  split; reflexivity.
Qed.

(** * Encoding and analysis *)

Lemma parseRatio_nonempty (r : string) (p : N * N) :
  parseRatio r = Some p -> falsy (Some r) = false.
Proof.
  destruct r as [| c r]; [| reflexivity].
  unfold parseRatio. cbn. discriminate.
Qed.

Lemma getProcessedImageAsDataUrl_resolves toDataURL browser st file image
    ratioW ratioH :
  Processable browser st file image ratioW ratioH ->
  getProcessedImageAsDataUrl toDataURL browser st
    = Some (resolve (toDataURL (processImage st image ratioW ratioH)
                       (outputMimeType file))).
Proof.
  intros [Hfile Hprev Hratio HW HH Himg Htemp Hfinal Hpixels].
  unfold getProcessedImageAsDataUrl.
  rewrite Hfile, Hprev, Himg, Htemp, Hfinal, Hratio. cbn [negb].
  assert (Hfalsy : falsy (effectiveAspectRatio st) = false).
  { destruct (effectiveAspectRatio st) as [r |]; [| discriminate].
    cbn in Hratio. now apply parseRatio_nonempty in Hratio. }
  rewrite Hfalsy.
  destruct (N.eqb_spec ratioW 0); [lia |].
  destruct (N.eqb_spec ratioH 0); [lia |].
  cbn [orb]. now rewrite Hpixels.
Qed.

(** C8. On every input that reaches the encoder, the data URL is the
    final canvas encoded in the file's own MIME type when that type is
    [image/jpeg] or [image/png], and in [image/png] otherwise. *)
Theorem C8_output_mime_type toDataURL browser st file image ratioW ratioH :
  Processable browser st file image ratioW ratioH ->
  let mimeType :=
    if decide (File.type file = "image/jpeg" \/ File.type file = "image/png")
    then File.type file else "image/png" in
  getProcessedImageAsDataUrl toDataURL browser st
    = Some (resolve (toDataURL (processImage st image ratioW ratioH) mimeType)).
Proof.
  intros Hok mimeType.
  rewrite (getProcessedImageAsDataUrl_resolves _ _ _ _ _ _ _ Hok).
  do 3 f_equal. unfold outputMimeType, mimeType.
  destruct (String.eqb_spec (File.type file) "image/jpeg") as [Ej | Ej];
    destruct (String.eqb_spec (File.type file) "image/png") as [Ep | Ep];
    cbn [orb]; destruct (decide _) as [D | D]; try reflexivity;
    solve [exfalso; tauto].
Qed.


(** * The derivative matcher decides the language of a pattern *)

Module RegExpFacts.
Import RegExp.

Lemma nullable_Matches (r : t) : nullable r = true <-> Matches r [].
Proof.
  induction r as [| | c | lo hi | r1 IH1 r2 IH2 | r1 IH1 r2 IH2 | r IH]; cbn.
  - split; [discriminate | inversion 1].
  - split; [constructor | reflexivity].
  - split; [discriminate | inversion 1].
  - split; [discriminate | inversion 1].
  - rewrite andb_true_iff, IH1, IH2. split.
    + intros [H1 H2]. change (@nil ascii) with (@nil ascii ++ []).
      now constructor.
    + intros H. inversion H as [| | | ? ? s1 s2 H1 H2 | | | |]; subst.
      match goal with E : _ ++ _ = [] |- _ =>
        apply app_eq_nil in E as [-> ->] end.
      now split.
  - rewrite orb_true_iff, IH1, IH2. split.
    + intros [H | H]; [now apply M_AltL | now apply M_AltR].
    + inversion 1; subst; tauto.
  - split; [constructor | reflexivity].
Qed.

Lemma deriv_sound (c : ascii) (r : t) :
  forall s, Matches (deriv c r) s -> Matches r (c :: s).
Proof.
  induction r; cbn; intros s H.
  - inversion H.
  - inversion H.
  - destruct (Ascii.eqb_spec c c0); inversion H; subst. constructor.
  - destruct (inRange lo hi c) eqn:E; inversion H; subst. now constructor.
  - destruct (nullable r1) eqn:E.
    + inversion H as [| | | | ? ? ? H' | ? ? ? H' | |]; subst.
      * inversion H'; subst.
        change (c :: s1 ++ s2) with ((c :: s1) ++ s2). constructor; auto.
      * change (c :: s) with ([] ++ c :: s).
        constructor; [now apply nullable_Matches | auto].
    + inversion H; subst.
      change (c :: s1 ++ s2) with ((c :: s1) ++ s2). constructor; auto.
  - inversion H; subst; [apply M_AltL | apply M_AltR]; auto.
  - inversion H; subst.
    change (c :: s1 ++ s2) with ((c :: s1) ++ s2). constructor; auto.
Qed.

Lemma deriv_complete (r : t) (s : list ascii) :
  Matches r s -> forall c s', s = c :: s' -> Matches (deriv c r) s'.
Proof.
  induction 1 as [| c0 | lo hi c0 Hin | r1 r2 s1 s2 H1 IH1 H2 IH2
                  | r1 r2 s H IH | r1 r2 s H IH | r | r s1 s2 H1 IH1 H2 IH2];
    intros c s' E; cbn.
  - discriminate.
  - injection E as -> <-. rewrite Ascii.eqb_refl. constructor.
  - injection E as -> <-. rewrite Hin. constructor.
  - destruct s1 as [| c1 s1]; cbn in E.
    + subst s2. apply nullable_Matches in H1. rewrite H1.
      apply M_AltR. now apply IH2.
    + injection E as -> <-.
      destruct (nullable r1); [apply M_AltL |]; constructor; auto.
  - apply M_AltL. now apply IH.
  - apply M_AltR. now apply IH.
  - discriminate.
  - destruct s1 as [| c1 s1]; cbn in E.
    + now apply IH2.
    + injection E as -> <-. constructor; auto.
Qed.

Lemma matchesb_Matches (r : t) (s : list ascii) :
  matchesb r s = true <-> Matches r s.
Proof.
  revert r. induction s as [| c s IH]; intros r; cbn.
  - apply nullable_Matches.
  - rewrite IH. split.
    + apply deriv_sound.
    + intros H. now apply (deriv_complete r (c :: s)).
Qed.

Lemma Matches_Star_Range (lo hi : ascii) (s : list ascii) :
  Matches (Star (Range lo hi)) s <-> Forall (fun c => inRange lo hi c = true) s.
Proof.
  split.
  - remember (Star (Range lo hi)) as r eqn:Er. intros H.
    induction H; try discriminate.
    + constructor.
    + injection Er as ->. inversion H; subst. cbn. constructor; auto.
  - induction 1 as [| c s Hc _ IH].
    + constructor.
    + change (c :: s) with ([c] ++ s). constructor; [now constructor | exact IH].
Qed.

End RegExpFacts.

Lemma ratioRegex_language (s : list ascii) :
  RegExp.Matches ratioRegex s <-> wellFormedRatio s.
Proof.
  unfold ratioRegex, wellFormedRatio, RegExp.digit. split.
  - intros H.
    inversion H as [| | | ? ? s1 t1 Hw H1 | | | |]; subst; clear H.
    inversion H1 as [| | | ? ? s2 t2 Hws H2 | | | |]; subst; clear H1.
    inversion H2 as [| | | ? ? s3 t3 Hc H3 | | | |]; subst; clear H2.
    inversion H3 as [| | | ? ? s4 t4 Hh Hhs | | | |]; subst; clear H3.
    inversion Hw as [| | ? ? w Hwr | | | | |]; subst.
    inversion Hc; subst.
    inversion Hh as [| | ? ? h Hhr | | | | |]; subst.
    apply RegExpFacts.Matches_Star_Range in Hws, Hhs.
    exists w, s2, h, t4. cbn. auto.
  - intros (w & ws & h & hs & -> & Hw & Hws & Hh & Hhs).
    change ((w :: ws) ++ (":"%char :: h :: hs))
      with ([w] ++ (ws ++ ([":"%char] ++ ([h] ++ hs)))).
    repeat constructor; try assumption;
      now apply RegExpFacts.Matches_Star_Range.
Qed.

Lemma ratioRegex_test_spec (s : string) :
  RegExp.test ratioRegex s = true <-> wellFormedRatio (list_ascii_of_string s).
Proof.
  unfold RegExp.test. rewrite RegExpFacts.matchesb_Matches.
  apply ratioRegex_language.
Qed.

(** * Arrays of strings *)

Lemma includes_elem_of (arr : list string) (x : string) :
  JS.includes arr x = true <-> x ∈ arr.
Proof.
  unfold JS.includes. rewrite existsb_exists, list_elem_of_In. split.
  - intros (y & Hy & E). apply String.eqb_eq in E. now subst.
  - intros H. exists x. split; [exact H | apply String.eqb_refl].
Qed.

Lemma includes_not_elem_of (arr : list string) (x : string) :
  JS.includes arr x = false <-> x ∉ arr.
Proof.
  rewrite <- includes_elem_of. destruct (JS.includes arr x); split; congruence.
Qed.

Lemma Set_insert_elem_of (arr seen : list string) (x : string) :
  x ∈ JS.Set_insert seen arr <-> x ∈ seen \/ x ∈ arr.
Proof.
  revert seen. induction arr as [| y arr IH]; intros seen; cbn.
  - rewrite elem_of_nil. tauto.
  - destruct (JS.includes seen y) eqn:E; rewrite IH, elem_of_cons.
    + apply includes_elem_of in E. split; [tauto |].
      intros [H | [-> | H]]; tauto.
    + rewrite elem_of_app, list_elem_of_singleton. tauto.
Qed.

Lemma Set_insert_NoDup (arr seen : list string) :
  NoDup seen -> NoDup (JS.Set_insert seen arr).
Proof.
  revert seen. induction arr as [| y arr IH]; intros seen Hseen; cbn.
  - exact Hseen.
  - destruct (JS.includes seen y) eqn:E; apply IH; [exact Hseen |].
    apply includes_not_elem_of in E.
    apply NoDup_app. split; [exact Hseen | split].
    + intros z Hz Hy. apply list_elem_of_singleton in Hy. now subst.
    + apply NoDup_singleton.
Qed.

Lemma Set_insert_fresh (arr seen : list string) :
  NoDup (seen ++ arr) -> JS.Set_insert seen arr = seen ++ arr.
Proof.
  revert seen. induction arr as [| y arr IH]; intros seen Hnd; cbn.
  - now rewrite app_nil_r.
  - apply NoDup_app in Hnd as Hnd'. destruct Hnd' as (Hs & Hdisj & Harr).
    assert (E : JS.includes seen y = false).
    { apply includes_not_elem_of. intros Hy. apply (Hdisj y Hy). left. }
    rewrite E, IH; rewrite <- app_assoc; [reflexivity | exact Hnd].
Qed.

Lemma spreadSet_NoDup (arr : list string) : NoDup (JS.spreadSet arr).
Proof. apply Set_insert_NoDup. constructor. Qed.

Lemma spreadSet_elem_of (arr : list string) (x : string) :
  x ∈ JS.spreadSet arr <-> x ∈ arr.
Proof.
  unfold JS.spreadSet. rewrite Set_insert_elem_of, elem_of_nil. tauto.
Qed.

Lemma spreadSet_id (arr : list string) : NoDup arr -> JS.spreadSet arr = arr.
Proof. intros H. now apply (Set_insert_fresh arr []). Qed.

Lemma filter_elem_of (p : string -> bool) (arr : list string) (x : string) :
  x ∈ JS.filter p arr <-> x ∈ arr /\ p x = true.
Proof.
  unfold JS.filter. rewrite !list_elem_of_In. apply filter_In.
Qed.

Lemma filter_NoDup (p : string -> bool) (arr : list string) :
  NoDup arr -> NoDup (JS.filter p arr).
Proof.
  unfold JS.filter. induction 1 as [| x l Hx Hl IH]; cbn.
  - constructor.
  - destruct (p x); [| exact IH].
    constructor; [| exact IH].
    intros Hin. apply Hx. now apply (filter_elem_of p l x).
Qed.

(** * Custom aspect ratios *)

(** The three outcomes of [handleAddRatio]. *)
Lemma handleAddRatio_cases (st : State) :
  let trimmedRatio := JS.trim (newRatio st) in
  let known := analyzerAspectRatios ++ customRatios st ++ ["Auto"] in
  (RegExp.test ratioRegex trimmedRatio = false /\
   handleAddRatio st
     = setRatioInputError (Some "Invalid format. Use W:H (e.g., 5:4).") st) \/
  (RegExp.test ratioRegex trimmedRatio = true /\
   JS.includes known trimmedRatio = true /\
   handleAddRatio st
     = setRatioInputError (Some "This aspect ratio already exists.") st) \/
  (RegExp.test ratioRegex trimmedRatio = true /\
   JS.includes known trimmedRatio = false /\
   handleAddRatio st
     = setRatioInputError None
         (setNewRatio EmptyString
            (saveCustomRatios (customRatios st ++ [trimmedRatio]) st))).
Proof.
  intros trimmedRatio known. unfold handleAddRatio.
  fold trimmedRatio. fold known.
  destruct (RegExp.test ratioRegex trimmedRatio); cbn [negb]; [| tauto].
  destruct (JS.includes known trimmedRatio); tauto.
Qed.

Lemma known_ratio_elem_of (customs : list string) (x : string) :
  x ∈ analyzerAspectRatios ++ customs ++ ["Auto"] <->
  x ∈ analyzerAspectRatios \/ x ∈ customs \/ x = "Auto".
Proof.
  rewrite !elem_of_app, list_elem_of_singleton. tauto.
Qed.

Lemma add_ratio_scenarios :
  let fresh := handleAddRatio (newRatio_onChange "5:4" initialState) in
  let malformed := handleAddRatio (newRatio_onChange "0:4" initialState) in
  let again := handleAddRatio (newRatio_onChange "5:4" fresh) in
  (ratioInputError fresh = None /\ customRatios fresh = ["5:4"]) /\
  (ratioInputError malformed = Some "Invalid format. Use W:H (e.g., 5:4)." /\
   customRatios malformed = []) /\
  (ratioInputError again = Some "This aspect ratio already exists." /\
   customRatios again = ["5:4"]).
Proof. cbv zeta. repeat split; reflexivity. Qed.

(** C7. [handleAddRatio] accepts the trimmed input exactly when it
    matches [^[1-9]\d*:[1-9]\d*$] and is neither a built-in analyzer
    ratio, nor an existing custom ratio, nor [Auto]; an accepted ratio is
    appended to the list and stored, a rejected one leaves the list and
    the storage as they were.  A fresh ["5:4"] is accepted, ["0:4"] is
    rejected for its format, a second ["5:4"] is rejected as a duplicate. *)
Theorem C7_add_ratio_accepted_iff_valid_and_new (st : State) :
  let trimmedRatio := JS.trim (newRatio st) in
  let st' := handleAddRatio st in
  (ratioInputError st' = None <->
     RegExp.Matches ratioRegex (list_ascii_of_string trimmedRatio) /\
     (trimmedRatio ∉ analyzerAspectRatios) /\
     (trimmedRatio ∉ customRatios st) /\
     trimmedRatio <> "Auto") /\
  (ratioInputError st' = None ->
     customRatios st' = JS.spreadSet (customRatios st ++ [trimmedRatio]) /\
     trimmedRatio ∈ customRatios st' /\
     localStorage st'
       = <["customAnalyzerRatios" := JSON.stringify (customRatios st')]>
           (localStorage st)) /\
  (ratioInputError st' <> None ->
     customRatios st' = customRatios st /\ localStorage st' = localStorage st) /\
  (let fresh := handleAddRatio (newRatio_onChange "5:4" initialState) in
   let malformed := handleAddRatio (newRatio_onChange "0:4" initialState) in
   let again := handleAddRatio (newRatio_onChange "5:4" fresh) in
   (ratioInputError fresh = None /\ customRatios fresh = ["5:4"]) /\
   (ratioInputError malformed = Some "Invalid format. Use W:H (e.g., 5:4)." /\
    customRatios malformed = []) /\
   (ratioInputError again = Some "This aspect ratio already exists." /\
    customRatios again = ["5:4"])).
Proof.
  intros trimmedRatio st'.
  split; [| split; [| split; [| exact add_ratio_scenarios]]].
  - unfold st'.
    destruct (handleAddRatio_cases st) as [[Ht ->] | [(Ht & Hk & ->) | (Ht & Hk & ->)]];
      fold trimmedRatio in Ht; try fold trimmedRatio in Hk; cbn.
    + split; [discriminate |]. intros (Hm & _).
      apply RegExpFacts.matchesb_Matches in Hm.
      unfold RegExp.test in Ht. congruence.
    + split; [discriminate |]. intros (_ & Ha & Hc & Hauto).
      apply includes_elem_of, known_ratio_elem_of in Hk. tauto.
    + split; [intros _ | reflexivity].
      apply includes_not_elem_of in Hk. rewrite known_ratio_elem_of in Hk.
      split; [now apply RegExpFacts.matchesb_Matches | tauto].
  - unfold st'.
    destruct (handleAddRatio_cases st) as [[Ht ->] | [(Ht & Hk & ->) | (Ht & Hk & ->)]];
      cbn; try discriminate.
    intros _. fold trimmedRatio.
    split; [reflexivity | split; [| reflexivity]].
    apply spreadSet_elem_of, elem_of_app. right. now apply list_elem_of_singleton.
  - unfold st'.
    destruct (handleAddRatio_cases st) as [[Ht ->] | [(Ht & Hk & ->) | (Ht & Hk & ->)]];
      cbn; try (intros _; split; reflexivity).
    intros H. now contradiction H.
Qed.

Lemma saveCustomRatios_customRatios (ratios : list string) (st : State) :
  customRatios (saveCustomRatios ratios st) = JS.spreadSet ratios.
Proof. reflexivity. Qed.

Lemma handleAddRatio_invariant (st : State) :
  ratiosInvariant (customRatios st) ->
  ratiosInvariant (customRatios (handleAddRatio st)).
Proof.
  intros (Hnd & Hauto & Hbuiltin).
  destruct (handleAddRatio_cases st) as [[Ht ->] | [(Ht & Hk & ->) | (Ht & Hk & ->)]];
    cbn; try (now repeat split).
  apply includes_not_elem_of in Hk. rewrite known_ratio_elem_of in Hk.
  set (trimmedRatio := JS.trim (newRatio st)) in *.
  assert (Hfresh : NoDup (customRatios st ++ [trimmedRatio])).
  { apply NoDup_app. split; [exact Hnd | split; [| apply NoDup_singleton]].
    intros x Hx Hx'. apply list_elem_of_singleton in Hx'. subst. tauto. }
  rewrite spreadSet_id by exact Hfresh.
  split; [exact Hfresh | split].
  - rewrite elem_of_app, list_elem_of_singleton. intros [H | H]; [tauto |].
    apply Hk. right. right. now symmetry.
  - intros r Hr. rewrite elem_of_app, list_elem_of_singleton.
    intros [H | ->]; [now apply (Hbuiltin r) | tauto].
Qed.

Lemma handleRemoveRatio_customRatios (ratioToRemove : string) (st : State) :
  customRatios (handleRemoveRatio ratioToRemove st)
  = JS.spreadSet
      (JS.filter (fun r => negb (String.eqb r ratioToRemove)) (customRatios st)).
Proof.
  unfold handleRemoveRatio.
  destruct (String.eqb (selectedAspectRatio st) ratioToRemove); reflexivity.
Qed.

Lemma handleRemoveRatio_invariant (ratioToRemove : string) (st : State) :
  ratiosInvariant (customRatios st) ->
  ratiosInvariant (customRatios (handleRemoveRatio ratioToRemove st)).
Proof.
  intros (Hnd & Hauto & Hbuiltin).
  rewrite handleRemoveRatio_customRatios.
  rewrite spreadSet_id by now apply filter_NoDup.
  split; [now apply filter_NoDup | split].
  - rewrite filter_elem_of. tauto.
  - intros r Hr. rewrite filter_elem_of. intros [H _]. now apply (Hbuiltin r).
Qed.

Lemma ratioStep_invariant (st st' : State) :
  ratioStep st st' ->
  ratiosInvariant (customRatios st) -> ratiosInvariant (customRatios st').
Proof.
  intros [s value | s | s r] Hinv.
  - exact Hinv.
  - now apply handleAddRatio_invariant.
  - now apply handleRemoveRatio_invariant.
Qed.

(** C10. From a custom-ratio list without duplicates, without [Auto] and
    without a built-in analyzer ratio, every list reached by typing,
    adding and removing ratios is again such a list; and whatever list
    [saveCustomRatios] is given, the list it stores has no duplicates. *)
Theorem C10_custom_ratios_invariant (st st' : State) :
  ratiosInvariant (customRatios st) ->
  rtc ratioStep st st' ->
  ratiosInvariant (customRatios st') /\
  (forall ratios, NoDup (customRatios (saveCustomRatios ratios st'))).
Proof.
  intros Hinv Hsteps. split.
  - induction Hsteps as [s | s1 s2 s3 Hstep _ IH].
    + exact Hinv.
    + apply IH. now apply (ratioStep_invariant s1).
  - intros ratios. apply spreadSet_NoDup.
Qed.

Lemma C10_custom_ratios_invariant_witness :
  ratiosInvariant ["5:4"; "7:5"] /\
  NoDup (JS.spreadSet ["5:4"; "5:4"; "7:5"]).
Proof.
  pose (s1 := handleAddRatio (newRatio_onChange "5:4" initialState)).
  pose (s2 := handleAddRatio (newRatio_onChange "21:9" s1)).
  pose (s3 := handleAddRatio (newRatio_onChange " 7:5 " s2)).
  pose (s4 := handleRemoveRatio "21:9" s3).
  assert (Hinit : ratiosInvariant (customRatios initialState)).
  { split; [constructor | split; [apply not_elem_of_nil |]].
    intros r _. apply not_elem_of_nil. }
  assert (Hrun : rtc ratioStep initialState s4).
  { eapply rtc_l; [apply (step_type initialState "5:4") |].
    eapply rtc_l; [apply step_add |].
    eapply rtc_l; [apply (step_type s1 "21:9") |].
    eapply rtc_l; [apply step_add |].
    eapply rtc_l; [apply (step_type s2 " 7:5 ") |].
    eapply rtc_l; [apply step_add |].
    eapply rtc_l; [apply (step_remove s3 "21:9") |].
    apply rtc_refl. }
  destruct (C10_custom_ratios_invariant initialState s4 Hinit Hrun) as [H4 Hsave].
  split; [exact H4 |].
  exact (Hsave ["5:4"; "5:4"; "7:5"]).
Defined.

(** * Geometry *)

Lemma toDimension_bounds (x : R) :
  0 <= x -> IZR (toDimension x) <= x < IZR (toDimension x) + 1.
Proof.
  intros Hx. unfold toDimension.
  destruct (Rle_dec 0 x) as [_ | Hn]; [| contradiction].
  destruct (base_Int_part x) as [Hlo Hhi]. lra.
Qed.

Lemma toDimension_IZR (z : Z) : (0 <= z)%Z -> toDimension (IZR z) = z.
Proof.
  intros Hz. unfold toDimension.
  destruct (Rle_dec 0 (IZR z)) as [_ | Hn].
  - symmetry. apply Int_part_spec. lra.
  - exfalso. apply Hn. now apply IZR_le.
Qed.

Lemma toDimension_nonneg (x : R) : 0 <= x -> (0 <= toDimension x)%Z.
Proof.
  intros Hx. destruct (toDimension_bounds x Hx) as [_ Hhi].
  apply Z.lt_succ_r. apply lt_IZR. rewrite succ_IZR. lra.
Qed.

Lemma toDimension_ge_1 (x : R) : 1 <= x -> (1 <= toDimension x)%Z.
Proof.
  intros Hx. destruct (toDimension_bounds x ltac:(lra)) as [_ Hhi].
  assert (H : (0 < toDimension x)%Z); [| lia].
  apply lt_IZR. lra.
Qed.


Ltac powers_of_two :=
  repeat match goal with
         | |- context [(2 ^ ?j)%Z] =>
             let v := eval vm_compute in (2 ^ j)%Z in
             change (2 ^ j)%Z with v
         end.

(** 16:9 gives 576 rows, as in exact arithmetic. *)
Lemma div_16_9 : Double.div 1024 (Double.div 16 9) = 576.
Proof.
  unfold Double.div.
  rewrite (DoubleFacts.round_scaled (16 / 9) 52 8006399337547548);
    [| lia | powers_of_two; lra | powers_of_two; apply Rabs_def1; lra].
  rewrite (DoubleFacts.round_scaled _ 43 5066549580791808);
    [| lia | powers_of_two; lra | powers_of_two; apply Rabs_def1; lra].
  powers_of_two. lra.
Qed.

(** 64:93 gives 1487 rows: the exact quotient is 1488, the doubles give
    [1487.9999999999998]. *)
Lemma div_64_93 :
  Double.div 1024 (Double.div 64 93) = 6544293208522751 / 4398046511104 /\
  toDimension (Double.div 1024 (Double.div 64 93)) = 1487%Z /\
  1024 / (64 / 93) = 1488.
Proof.
  assert (E : Double.div 1024 (Double.div 64 93)
              = 6544293208522751 / 4398046511104).
  { unfold Double.div.
    rewrite (DoubleFacts.round_scaled (64 / 93) 53 6198502712940038);
      [| lia | powers_of_two; lra | powers_of_two; apply Rabs_def1; lra].
    rewrite (DoubleFacts.round_scaled _ 42 6544293208522751);
      [| lia | powers_of_two; lra | powers_of_two; apply Rabs_def1; lra].
    powers_of_two. reflexivity. }
  split; [exact E |]. split; [| lra].
  rewrite E. unfold toDimension.
  destruct (Rle_dec 0 _) as [_ | Hn]; [| exfalso; lra].
  apply DoubleFacts.Int_part_unique. lra.
Qed.

(** 1:1 gives 1024 rows. *)
Lemma div_1_1 : Double.div 1024 (Double.div 1 1) = 1024.
Proof.
  unfold Double.div. replace (1 / 1) with 1 by lra.
  rewrite (DoubleFacts.round_IZR 1) by lia.
  replace (1024 / 1) with 1024 by lra.
  apply (DoubleFacts.round_IZR 1024). lia.
Qed.

Lemma degrees_0 : 0 * PI / 180 = 0.
Proof. lra. Qed.

Lemma degrees_90 : 90 * PI / 180 = PI / 2.
Proof. lra. Qed.

Lemma degrees_turn (theta : R) :
  (theta + 360) * PI / 180 = theta * PI / 180 + 2 * INR 1 * PI.
Proof. cbn [INR]. lra. Qed.

Lemma abs_cos_sin_ge_1 (a : R) : 1 <= Rabs (cos a) + Rabs (sin a).
Proof.
  pose proof (sin2_cos2 a) as H. unfold Rsqr in H.
  pose proof (Rabs_pos (cos a)) as Hc. pose proof (Rabs_pos (sin a)) as Hs.
  assert (Hc2 : Rabs (cos a) * Rabs (cos a) = cos a * cos a).
  { rewrite <- Rabs_mult. apply Rabs_pos_eq. nra. }
  assert (Hs2 : Rabs (sin a) * Rabs (sin a) = sin a * sin a).
  { rewrite <- Rabs_mult. apply Rabs_pos_eq. nra. }
  nra.
Qed.

Lemma rotatedSize_0 (w h : R) : rotatedSize w h 0 = (w, h).
Proof.
  unfold rotatedSize.
  rewrite degrees_0, cos_0, sin_0, Rabs_R1, Rabs_R0. f_equal; lra.
Qed.

Lemma rotatedSize_90 (w h : R) : rotatedSize w h 90 = (h, w).
Proof.
  unfold rotatedSize.
  rewrite degrees_90, cos_PI2, sin_PI2, Rabs_R1, Rabs_R0. f_equal; lra.
Qed.

Lemma drawTempCanvas_size image filters rotation isMirrored :
  let tempCanvas := drawTempCanvas image filters rotation isMirrored in
  let box := rotatedSize (sourceWidth image) (sourceHeight image) rotation in
  Canvas.width tempCanvas = toDimension (fst box) /\
  Canvas.height tempCanvas = toDimension (snd box).
Proof. destruct isMirrored; split; reflexivity. Qed.

(** C4. The rotated bounding box is
    [w |cos t| + h |sin t|] by [w |sin t| + h |cos t|] for [t] the angle in
    radians; it is [(w, h)] at 0 degrees, [(h, w)] at 90 degrees, and it
    is the same at [theta] and at [theta + 360] for every [theta], so no
    range clamp is needed.  The temporary canvas is allocated with these
    dimensions. *)
Theorem C4_rotated_bounding_box (w h theta : R) :
  let t := theta * PI / 180 in
  rotatedSize w h theta
    = (w * Rabs (cos t) + h * Rabs (sin t), w * Rabs (sin t) + h * Rabs (cos t)) /\
  rotatedSize w h 0 = (w, h) /\
  rotatedSize w h 90 = (h, w) /\
  rotatedSize w h (theta + 360) = rotatedSize w h theta /\
  (forall image filters isMirrored,
     let tempCanvas := drawTempCanvas image filters theta isMirrored in
     let box := rotatedSize (sourceWidth image) (sourceHeight image) theta in
     Canvas.width tempCanvas = toDimension (fst box) /\
     Canvas.height tempCanvas = toDimension (snd box)).
Proof.
  intros t.
  split; [reflexivity |].
  split; [apply rotatedSize_0 |].
  split; [apply rotatedSize_90 |].
  split.
  { unfold rotatedSize. now rewrite degrees_turn, cos_period, sin_period. }
  intros image filters isMirrored. apply drawTempCanvas_size.
Qed.

Lemma drawTempCanvas_bitmap image filters rotation isMirrored :
  let tempCanvas := drawTempCanvas image filters rotation isMirrored in
  Canvas.bitmap tempCanvas
  = [ {| Canvas.source := image;
         Canvas.withFilter := generateFilterString filters;
         Canvas.withTransform := Canvas.transform tempCanvas;
         Canvas.sx := 0; Canvas.sy := 0;
         Canvas.sWidth := sourceWidth image;
         Canvas.sHeight := sourceHeight image;
         Canvas.dx := - sourceWidth image / 2;
         Canvas.dy := - sourceHeight image / 2;
         Canvas.dWidth := sourceWidth image;
         Canvas.dHeight := sourceHeight image |} ].
Proof. destruct isMirrored; reflexivity. Qed.

Ltac matrix_cbn :=
  unfold DOMMatrix.transformPoint, DOMMatrix.multiply, DOMMatrix.translation,
    DOMMatrix.rotation, DOMMatrix.scaling, DOMMatrix.identity,
    translatePoint, rotatePoint, mirrorPoint;
  cbn [DOMMatrix.a DOMMatrix.b DOMMatrix.c DOMMatrix.d DOMMatrix.e DOMMatrix.f
       fst snd].

Lemma pair_neq_origin (x y : R) : (x, y) <> (0, 0) -> x <> 0 \/ y <> 0.
Proof.
  intros H. destruct (Req_dec x 0) as [-> | Hx]; [| now left].
  right. intros ->. now apply H.
Qed.

(** C3. The image is painted by one [drawImage] under one transform, and
    that transform mirrors a point of the source first (about the
    vertical axis through the image centre), rotates it second and moves
    it to the centre of the bounding box last.  At 90 degrees this is not
    the transform that rotates first and mirrors second: the two send
    every point other than the centre to different places.  The preview's
    CSS transform list mirrors first and rotates second as well. *)
Theorem C3_mirror_applied_before_rotation image filters rotation :
  let angleRad := rotation * PI / 180 in
  let box := rotatedSize (sourceWidth image) (sourceHeight image) rotation in
  let tempCanvas := drawTempCanvas image filters rotation true in
  let quarter := drawTempCanvas image filters 90 true in
  let box90 := rotatedSize (sourceWidth image) (sourceHeight image) 90 in
  (exists call,
     Canvas.bitmap tempCanvas = [call] /\
     Canvas.source call = image /\
     (Canvas.dx call, Canvas.dy call)
       = (- sourceWidth image / 2, - sourceHeight image / 2) /\
     forall p,
       DOMMatrix.transformPoint (Canvas.withTransform call) p
       = translatePoint (fst box / 2) (snd box / 2)
           (rotatePoint angleRad (mirrorPoint p))) /\
  (forall p,
     DOMMatrix.transformPoint
       (Canvas.transform (drawTempCanvas image filters rotation false)) p
     = translatePoint (fst box / 2) (snd box / 2) (rotatePoint angleRad p)) /\
  (forall p, p <> (0, 0) ->
     DOMMatrix.transformPoint (Canvas.transform quarter) p
     <> translatePoint (fst box90 / 2) (snd box90 / 2)
          (mirrorPoint (rotatePoint (90 * PI / 180) p))) /\
  (forall st p,
     DOMMatrix.transformPoint
       (transformList_matrix
          (imageTransform (setIsMirrored true (setRotation rotation st)))) p
     = rotatePoint angleRad (mirrorPoint p)).
Proof.
  intros angleRad box tempCanvas quarter box90.
  split; [| split; [| split]].
  - eexists. split; [apply drawTempCanvas_bitmap |].
    split; [reflexivity | split; [reflexivity |]].
    intros [x y]. cbn. fold angleRad. matrix_cbn. f_equal; field.
  - intros [x y]. cbn. fold angleRad. matrix_cbn. f_equal; field.
  - intros [x y] Hp. cbn. matrix_cbn.
    rewrite degrees_90, cos_PI2, sin_PI2.
    intros E. injection E as Ex Ey.
    destruct (pair_neq_origin x y Hp) as [H | H]; apply H; lra.
  - intros st [x y]. cbn. fold angleRad. matrix_cbn. f_equal; field.
Qed.

(** * Fitting the rotated image into the output *)

Lemma drawFinalCanvas_size tempCanvas ratioW ratioH resizeMode :
  let finalCanvas := drawFinalCanvas tempCanvas ratioW ratioH resizeMode in
  Canvas.width finalCanvas = toDimension outputWidth /\
  Canvas.height finalCanvas
  = toDimension (Double.div outputWidth (Double.div ratioW ratioH)).
Proof.
  unfold drawFinalCanvas. destruct resizeMode.
  - destruct (cropSource _ _ _) as [[[sx sy] sWidth] sHeight]. split; reflexivity.
  - split; reflexivity.
Qed.

Lemma drawFinalCanvas_crop_bitmap tempCanvas ratioW ratioH :
  let region :=
    cropSource (sourceWidth tempCanvas) (sourceHeight tempCanvas)
      (ratioW / ratioH) in
  Canvas.bitmap (drawFinalCanvas tempCanvas ratioW ratioH crop)
  = [ {| Canvas.source := tempCanvas;
         Canvas.withFilter := "none";
         Canvas.withTransform := DOMMatrix.identity;
         Canvas.sx := fst (fst (fst region));
         Canvas.sy := snd (fst (fst region));
         Canvas.sWidth := snd (fst region);
         Canvas.sHeight := snd region;
         Canvas.dx := 0; Canvas.dy := 0;
         Canvas.dWidth := outputWidth;
         Canvas.dHeight := outputWidth / (ratioW / ratioH) |} ].
Proof.
  unfold drawFinalCanvas. cbv zeta.
  destruct (cropSource _ _ _) as [[[sx sy] sWidth] sHeight]. reflexivity.
Qed.

(** The crop region lies inside the intermediate buffer and has the
    target's proportions, so scaling it to the output does not distort it. *)
Lemma cropSource_inside (iw ih t : R) :
  0 < iw -> 0 < ih -> 0 < t ->
  let '(sx, sy, sWidth, sHeight) := cropSource iw ih t in
  0 <= sx /\ 0 <= sy /\ 0 < sWidth /\ 0 < sHeight /\
  sx + sWidth <= iw /\ sy + sHeight <= ih /\
  sWidth / sHeight = t.
Proof.
  intros Hw Hh Ht. unfold cropSource.
  destruct (Rlt_dec t (iw / ih)) as [Hgt | Hngt];
    [| destruct (Rlt_dec (iw / ih) t) as [Hlt | Hnlt]].
  - assert (Hlt' : ih * t < iw).
    { apply (Rmult_lt_compat_r ih) in Hgt; [| exact Hh].
      replace (iw / ih * ih) with iw in Hgt by (field; lra). lra. }
    assert (0 < ih * t) by now apply Rmult_lt_0_compat.
    repeat split; try lra. field. lra.
  - assert (Hlt' : iw / t < ih).
    { apply (Rmult_lt_compat_r ih) in Hlt; [| exact Hh].
      replace (iw / ih * ih) with iw in Hlt by (field; lra).
      apply (Rmult_lt_reg_r t); [exact Ht |].
      replace (iw / t * t) with iw by (field; lra). lra. }
    assert (0 < iw / t) by now apply Rdiv_lt_0_compat.
    repeat split; try lra. field. lra.
  - assert (E : iw / ih = t) by lra.
    repeat split; lra.
Qed.

(** C1. Under the crop policy the final canvas receives one [drawImage]
    of the intermediate buffer, [iw] by [ih], onto the whole output
    rectangle.  Its source rectangle is, for the target ratio [t]: when
    [iw / ih > t], the horizontally centred slice of width [ih * t] and
    full height; when [iw / ih < t], the vertically centred slice of
    height [iw / t] and full width; when [iw / ih = t], the whole buffer.
    For positive [iw], [ih] and [t] the slice lies inside the buffer and
    has the proportions of the output rectangle it is scaled to. *)
Theorem C1_crop_selects_centred_region (tempCanvas : Canvas.t Image.t)
    (ratioW ratioH : R) :
  let iw := sourceWidth tempCanvas in
  let ih := sourceHeight tempCanvas in
  let t := ratioW / ratioH in
  exists call,
    Canvas.bitmap (drawFinalCanvas tempCanvas ratioW ratioH crop) = [call] /\
    Canvas.source call = tempCanvas /\
    (Canvas.dx call, Canvas.dy call, Canvas.dWidth call, Canvas.dHeight call)
      = (0, 0, outputWidth, outputWidth / t) /\
    (iw / ih > t ->
       Canvas.sWidth call = ih * t /\ Canvas.sHeight call = ih /\
       Canvas.sx call = (iw - Canvas.sWidth call) / 2 /\ Canvas.sy call = 0) /\
    (iw / ih < t ->
       Canvas.sHeight call = iw / t /\ Canvas.sWidth call = iw /\
       Canvas.sy call = (ih - Canvas.sHeight call) / 2 /\ Canvas.sx call = 0) /\
    (iw / ih = t ->
       (Canvas.sx call, Canvas.sy call, Canvas.sWidth call, Canvas.sHeight call)
         = (0, 0, iw, ih)) /\
    (0 < iw -> 0 < ih -> 0 < t ->
       0 <= Canvas.sx call /\ 0 <= Canvas.sy call /\
       Canvas.sx call + Canvas.sWidth call <= iw /\
       Canvas.sy call + Canvas.sHeight call <= ih /\
       Canvas.sWidth call / Canvas.sHeight call
         = Canvas.dWidth call / Canvas.dHeight call).
Proof.
  intros iw ih t. eexists.
  split; [apply drawFinalCanvas_crop_bitmap |].
  split; [reflexivity |]. split; [reflexivity |].
  cbn [Canvas.sx Canvas.sy Canvas.sWidth Canvas.sHeight
       Canvas.dWidth Canvas.dHeight].
  fold iw ih t.
  assert (Hcases :
    (iw / ih > t -> cropSource iw ih t = ((iw - ih * t) / 2, 0, ih * t, ih)) /\
    (iw / ih < t -> cropSource iw ih t = (0, (ih - iw / t) / 2, iw, iw / t)) /\
    (iw / ih = t -> cropSource iw ih t = (0, 0, iw, ih))).
  { unfold cropSource.
    destruct (Rlt_dec t (iw / ih)) as [Hgt | Hngt];
      [| destruct (Rlt_dec (iw / ih) t) as [Hlt | Hnlt]];
      (split; [| split]); intros H; try (exfalso; lra); reflexivity. }
  destruct Hcases as (Hwide & Htall & Hsame).
  split; [intros H; rewrite (Hwide H); cbn [fst snd]; now repeat split |].
  split; [intros H; rewrite (Htall H); cbn [fst snd]; now repeat split |].
  split; [intros H; now rewrite (Hsame H) |].
  intros Hw Hh Ht.
  pose proof (cropSource_inside iw ih t Hw Hh Ht) as Hin.
  destruct (cropSource iw ih t) as [[[sx sy] sWidth] sHeight]. cbn [fst snd].
  destruct Hin as (Hsx & Hsy & HsW & HsH & Hxw & Hyh & Hratio).
  repeat split; try assumption.
  rewrite Hratio. unfold outputWidth. field. lra.
Qed.

Lemma toDimension_outputWidth : toDimension outputWidth = 1024%Z.
Proof. unfold outputWidth. now apply toDimension_IZR. Qed.

(** A decoded image of positive size gives a temporary canvas of
    positive size, at every angle. *)
Lemma drawTempCanvas_positive image filters rotation isMirrored :
  (0 < Image.naturalWidth image)%N -> (0 < Image.naturalHeight image)%N ->
  let tempCanvas := drawTempCanvas image filters rotation isMirrored in
  (1 <= Canvas.width tempCanvas)%Z /\ (1 <= Canvas.height tempCanvas)%Z.
Proof.
  intros Hw Hh tempCanvas.
  destruct (drawTempCanvas_size image filters rotation isMirrored) as [Ew Eh].
  fold tempCanvas in Ew, Eh. rewrite Ew, Eh.
  unfold rotatedSize. cbn [sourceWidth sourceHeight Image_source fst snd].
  set (a := rotation * PI / 180).
  assert (HW : 1 <= IZR (Z.of_N (Image.naturalWidth image))) by (apply IZR_le; lia).
  assert (HH : 1 <= IZR (Z.of_N (Image.naturalHeight image))) by (apply IZR_le; lia).
  pose proof (abs_cos_sin_ge_1 a) as Hcs.
  pose proof (Rabs_pos (cos a)) as Hc. pose proof (Rabs_pos (sin a)) as Hs.
  split; apply toDimension_ge_1; nra.
Qed.

Lemma Canvas_isEmpty_false {S} (cv : Canvas.t S) :
  (1 <= Canvas.width cv)%Z -> (1 <= Canvas.height cv)%Z ->
  Canvas_isEmpty cv = false.
Proof.
  intros Hw Hh. unfold Canvas_isEmpty.
  destruct (Z.eqb_spec (Canvas.width cv) 0); [lia |].
  destruct (Z.eqb_spec (Canvas.height cv) 0); [lia | reflexivity].
Qed.

Lemma drawTempCanvas_nonempty image filters rotation isMirrored :
  (0 < Image.naturalWidth image)%N -> (0 < Image.naturalHeight image)%N ->
  Canvas_isEmpty (drawTempCanvas image filters rotation isMirrored) = false.
Proof.
  intros Hw Hh.
  destruct (drawTempCanvas_positive image filters rotation isMirrored Hw Hh).
  now apply Canvas_isEmpty_false.
Qed.

(** * Ratio strings *)

Lemma isDigit_cases (c : ascii) :
  isDigit c ->
  c ∈ ["0"; "1"; "2"; "3"; "4"; "5"; "6"; "7"; "8"; "9"]%char.
Proof.
  unfold isDigit.
  destruct c as [[|] [|] [|] [|] [|] [|] [|] [|]]; cbn; intros H;
    try discriminate; set_solver.
Qed.

Lemma isNonZeroDigit_cases (c : ascii) :
  isNonZeroDigit c ->
  c ∈ ["1"; "2"; "3"; "4"; "5"; "6"; "7"; "8"; "9"]%char.
Proof.
  unfold isNonZeroDigit.
  destruct c as [[|] [|] [|] [|] [|] [|] [|] [|]]; cbn; intros H;
    try discriminate; set_solver.
Qed.

Section Split.

Variable sep : ascii.

Let free (s : string) : Prop :=
  Forall (fun c => c <> sep) (list_ascii_of_string s).

Lemma split_free (s : string) : free s -> JS.split sep s = [s].
Proof.
  unfold free. induction s as [| c s IH];
    cbn [JS.split list_ascii_of_string]; intros H.
  - reflexivity.
  - apply Forall_cons in H as [Hc Hs].
    destruct (Ascii.eqb_spec c sep) as [E | _]; [contradiction |].
    now rewrite (IH Hs).
Qed.

Lemma split_at_sep (a b : string) :
  free a -> JS.split sep (a +:+ String sep b) = a :: JS.split sep b.
Proof.
  unfold free. induction a as [| c a IH]; intros H.
  - change (EmptyString +:+ String sep b) with (String sep b).
    cbn [JS.split]. now rewrite Ascii.eqb_refl.
  - change (String c a +:+ String sep b) with (String c (a +:+ String sep b)).
    cbn [JS.split list_ascii_of_string] in *.
    apply Forall_cons in H as [Hc Ha].
    destruct (Ascii.eqb_spec c sep) as [E | _]; [contradiction |].
    now rewrite (IH Ha).
Qed.

End Split.

Lemma isDigit_not_colon (c : ascii) : isDigit c -> c <> ":"%char.
Proof. intros H ->. discriminate H. Qed.

Lemma Number_digits (l : list ascii) :
  Forall isDigit l ->
  exists d, NilEmpty.uint_of_string (string_of_list_ascii l) = Some d.
Proof.
  induction 1 as [| c l Hc _ [d IH]]; cbn.
  - now exists Decimal.Nil.
  - rewrite IH. apply isDigit_cases in Hc.
    repeat (apply elem_of_cons in Hc as [-> | Hc]; [cbn; eauto |]).
    now apply elem_of_nil in Hc.
Qed.

(** A numeral that does not start with 0 has a positive value. *)
Lemma numericValue_numeral (w : ascii) (ws : list ascii) :
  isNonZeroDigit w -> Forall isDigit ws ->
  exists n,
    JS.numericValue (string_of_list_ascii (w :: ws)) = Some n /\ (0 < n)%N.
Proof.
  intros Hw Hws. destruct (Number_digits ws Hws) as [d Hd].
  unfold JS.numericValue. cbn. rewrite Hd. apply isNonZeroDigit_cases in Hw.
  repeat (apply elem_of_cons in Hw as [-> | Hw];
          [cbn; eexists; split; [reflexivity | reflexivity] |]).
  now apply elem_of_nil in Hw.
Qed.

Lemma isNonZeroDigit_isDigit (c : ascii) : isNonZeroDigit c -> isDigit c.
Proof.
  intros H. apply isNonZeroDigit_cases in H.
  repeat (apply elem_of_cons in H as [-> | H]; [reflexivity |]).
  now apply elem_of_nil in H.
Qed.

Lemma string_of_list_ascii_app (l1 l2 : list ascii) :
  string_of_list_ascii (l1 ++ l2)
  = string_of_list_ascii l1 +:+ string_of_list_ascii l2.
Proof. induction l1 as [| c l1 IH]; cbn; [reflexivity | now rewrite IH]. Qed.

(** What the pipeline reads from a text that splits into two numerals:
    the doubles nearest to their values. *)
Lemma parseRatio_values (s : string) (w h : N) :
  map JS.numericValue (JS.split ":" s) = [Some w; Some h] ->
  parseRatio s = (W ← Double.ofN w; H ← Double.ofN h; Some (W, H)) /\
  (forall W H, parseRatio s = Some (W, H) ->
               Double.ofN w = Some W /\ Double.ofN h = Some H) /\
  ((w < 2 ^ 53)%N -> (h < 2 ^ 53)%N -> parseRatio s = Some (w, h)).
Proof.
  intros Hparts. unfold parseRatio.
  destruct (JS.split ":" s) as [| a [| b [| c l]]]; try discriminate Hparts.
  cbn [map] in *. injection Hparts as Ha Hb.
  unfold JS.Number. rewrite Ha, Hb.
  assert (E : match Double.ofN w, Double.ofN h with
              | Some W, Some H => Some (W, H)
              | _, _ => None
              end
              = (W ← Double.ofN w; H ← Double.ofN h; Some (W, H))).
  { destruct (Double.ofN w), (Double.ofN h); reflexivity. }
  split; [| split].
  - destruct (Double.ofN w), (Double.ofN h); reflexivity.
  - intros W H. destruct (Double.ofN w), (Double.ofN h); try discriminate.
    intros [= <- <-]. now split.
  - intros Hw Hh.
    now rewrite (NumberFacts.ofN_exact w Hw), (NumberFacts.ofN_exact h Hh).
Qed.


(** Every string that [ratioRegex] accepts splits at the colon into two
    numerals of positive value, which [getProcessedImageAsDataUrl] reads
    as the nearest doubles: never zero, and exact below [2^53]. *)
Lemma wellFormedRatio_parses (s : string) :
  wellFormedRatio (list_ascii_of_string s) ->
  exists w h,
    (0 < w)%N /\ (0 < h)%N /\
    map JS.numericValue (JS.split ":" s) = [Some w; Some h] /\
    parseRatio s = (W ← Double.ofN w; H ← Double.ofN h; Some (W, H)) /\
    (forall W H, parseRatio s = Some (W, H) -> (0 < W)%N /\ (0 < H)%N) /\
    ((w < 2 ^ 53)%N -> (h < 2 ^ 53)%N -> parseRatio s = Some (w, h)) /\
    ((w < 2 ^ 1023)%N -> (h < 2 ^ 1023)%N -> is_Some (parseRatio s)).
Proof.
  intros (w & ws & h & hs & E & Hw & Hws & Hh & Hhs).
  apply (f_equal string_of_list_ascii) in E.
  rewrite string_of_list_ascii_of_string, string_of_list_ascii_app in E.
  change (string_of_list_ascii (":"%char :: h :: hs))
    with (String ":" (string_of_list_ascii (h :: hs))) in E.
  destruct (numericValue_numeral w ws Hw Hws) as (ratioW & EW & HW).
  destruct (numericValue_numeral h hs Hh Hhs) as (ratioH & EH & HH).
  exists ratioW, ratioH.
  assert (Hparts : map JS.numericValue (JS.split ":" s)
                   = [Some ratioW; Some ratioH]).
  { rewrite E, split_at_sep, split_free.
    - cbn [map]. now rewrite EW, EH.
    - rewrite list_ascii_of_string_of_list_ascii.
      constructor; [apply isDigit_not_colon, isNonZeroDigit_isDigit, Hh |].
      eapply Forall_impl; [exact Hhs | apply isDigit_not_colon].
    - rewrite list_ascii_of_string_of_list_ascii.
      constructor; [apply isDigit_not_colon, isNonZeroDigit_isDigit, Hw |].
      eapply Forall_impl; [exact Hws | apply isDigit_not_colon]. }
  destruct (parseRatio_values s ratioW ratioH Hparts) as (Hparse & Hread & Hexact).
  split; [exact HW |]. split; [exact HH |]. split; [exact Hparts |].
  split; [exact Hparse |]. split; [| split; [exact Hexact |]].
  - intros W H HWH. destruct (Hread W H HWH) as [HrW HrH].
    split; eapply NumberFacts.ofN_positive; eassumption.
  - intros HfW HfH. rewrite Hparse.
    destruct (NumberFacts.ofN_finite ratioW HfW) as [W ->].
    destruct (NumberFacts.ofN_finite ratioH HfH) as [H ->].
    now eexists.
Qed.

(** The pattern also accepts numerals beyond the doubles: one followed
    by 309 zeros reads as [Infinity], which the embedding leaves out. *)
Example accepted_ratio_beyond_doubles :
  let r := JS.toString (10 ^ 309) +:+ ":1" in
  RegExp.test ratioRegex r = true /\ parseRatio r = None.
Proof. vm_compute. split; reflexivity. Qed.

Lemma toString_NilEmpty (n : N) :
  JS.toString n = NilEmpty.string_of_uint (N.to_uint n).
Proof.
  unfold JS.toString, NilZero.string_of_uint.
  destruct (N.to_uint n) eqn:E; try reflexivity.
  destruct n as [| p]; [discriminate |].
  now apply DecimalPos.Unsigned.to_uint_nonnil in E.
Qed.

Lemma numericValue_toString (n : N) :
  JS.numericValue (JS.toString n) = Some n.
Proof.
  unfold JS.numericValue.
  rewrite toString_NilEmpty, NilEmpty.usu. cbn [option_map].
  now rewrite DecimalN.Unsigned.of_to.
Qed.

Lemma Number_toString (n : N) : JS.Number (JS.toString n) = Double.ofN n.
Proof. unfold JS.Number. now rewrite numericValue_toString. Qed.

Lemma string_of_uint_digits (d : Decimal.uint) :
  Forall (fun c => c <> ":"%char)
    (list_ascii_of_string (NilEmpty.string_of_uint d)).
Proof. induction d; cbn; constructor; try discriminate; assumption. Qed.

(** The automatic ratio string reads back as the image's dimensions,
    each rounded to the nearest double: exactly, for the dimensions an
    image can have. *)
Lemma parseRatio_auto (w h : N) :
  parseRatio (JS.toString w +:+ ":" +:+ JS.toString h)
  = (W ← Double.ofN w; H ← Double.ofN h; Some (W, H)).
Proof.
  apply parseRatio_values.
  change (":" +:+ JS.toString h) with (String ":" (JS.toString h)).
  rewrite split_at_sep, split_free.
  - cbn [map]. now rewrite !numericValue_toString.
  - rewrite toString_NilEmpty. apply string_of_uint_digits.
  - rewrite toString_NilEmpty. apply string_of_uint_digits.
Qed.

Lemma parseRatio_auto_exact (w h : N) :
  (w < 2 ^ 53)%N -> (h < 2 ^ 53)%N ->
  parseRatio (JS.toString w +:+ ":" +:+ JS.toString h) = Some (w, h).
Proof.
  intros Hw Hh. rewrite parseRatio_auto.
  now rewrite (NumberFacts.ofN_exact w Hw), (NumberFacts.ofN_exact h Hh).
Qed.

(** Once an image of positive size has loaded, and while [Auto] stays
    selected, the pipeline has everything it needs. *)
Lemma loaded_image_processable (file : File.t) (image : Image.t)
    (url message : string) (st : State) :
  url <> EmptyString ->
  (0 < Image.naturalWidth image < 2 ^ 53)%N ->
  (0 < Image.naturalHeight image < 2 ^ 53)%N ->
  let st' := handleFileChange_onload file image
               (handleFileChange (Some file) url st) in
  Processable {| decoded := Some image; tempCtx := true; finalCtx := true;
                 invalidStateError := message |}
    st' file image (Image.naturalWidth image) (Image.naturalHeight image).
Proof.
  intros Hurl [Hw Hw'] [Hh Hh'] st'. split; try reflexivity; try assumption.
  - cbn. now apply String.eqb_neq.
  - cbn. now apply parseRatio_auto_exact.
  - now apply drawTempCanvas_nonempty.
Qed.

Lemma sampleTempCanvas_size :
  let tempCanvas := drawTempCanvas sampleImage initialFilterState 0 false in
  Canvas.width tempCanvas = 1920%Z /\ Canvas.height tempCanvas = 1080%Z.
Proof.
  intros tempCanvas.
  destruct (drawTempCanvas_size sampleImage initialFilterState 0 false)
    as [Ew Eh].
  fold tempCanvas in Ew, Eh. rewrite Ew, Eh, rotatedSize_0.
  split; now apply toDimension_IZR.
Qed.

Lemma loadedState_processable (type : string) :
  Processable sampleBrowser (loadedState type) (sampleFile type) sampleImage
    1920 1080.
Proof.
  split; try reflexivity.
  now apply (drawTempCanvas_nonempty sampleImage).
Qed.

Lemma C8_output_mime_type_witness :
  getProcessedImageAsDataUrl sampleEncoder sampleBrowser (loadedState "image/jpeg")
    = Some (resolve "data:image/jpeg;base64,AAAA") /\
  getProcessedImageAsDataUrl sampleEncoder sampleBrowser (loadedState "image/webp")
    = Some (resolve "data:image/png;base64,AAAA").
Proof.
  split.
  - exact (C8_output_mime_type sampleEncoder _ _ _ _ _ _
             (loadedState_processable "image/jpeg")).
  - exact (C8_output_mime_type sampleEncoder _ _ _ _ _ _
             (loadedState_processable "image/webp")).
Defined.





(** The ratio 64:93 asks for 1488 rows and gets 1487: the doubles give
    [1487.9999999999998], which the canvas truncates. *)
Example scenario_64_93 (tempCanvas : Canvas.t Image.t) (resizeMode : ResizeMode) :
  Canvas.height (drawFinalCanvas tempCanvas 64 93 resizeMode) = 1487%Z /\
  1024 / (64 / 93) = 1488.
Proof.
  destruct (drawFinalCanvas_size tempCanvas 64 93 resizeMode) as [_ Hheight].
  destruct div_64_93 as (_ & Hrows & Hexact).
  split; [| exact Hexact]. rewrite Hheight. exact Hrows.
Qed.

Lemma C1_crop_selects_centred_region_witness :
  let tempCanvas := drawTempCanvas sampleImage initialFilterState 0 false in
  exists call,
    Canvas.bitmap (drawFinalCanvas tempCanvas 1 1 crop) = [call] /\
    Canvas.sWidth call = 1080 /\ Canvas.sHeight call = 1080 /\
    Canvas.sx call = 420 /\ Canvas.sy call = 0 /\
    Canvas.sx call + Canvas.sWidth call <= 1920.
Proof.
  intros tempCanvas.
  destruct sampleTempCanvas_size as [Ew Eh]. fold tempCanvas in Ew, Eh.
  destruct (C1_crop_selects_centred_region tempCanvas 1 1)
    as (call & Hbitmap & _ & _ & Hwide & _ & _ & Hinside).
  cbn [sourceWidth sourceHeight Canvas_source] in Hwide, Hinside.
  rewrite Ew, Eh in Hwide, Hinside.
  destruct (Hwide ltac:(lra)) as (HsW & HsH & Hsx & Hsy).
  destruct (Hinside ltac:(lra) ltac:(lra) ltac:(lra)) as (_ & _ & Hfit & _).
  exists call. rewrite HsW in Hsx.
  split; [exact Hbitmap |].
  split; [lra |]. split; [lra |]. split; [lra |]. split; [exact Hsy | exact Hfit].
Defined.

(** * The scenarios of the specification *)

(** A 1920 x 1080 source, no rotation, [Auto], crop: the output is
    1024 x 576, the simplified ratio is 16:9 and nothing is cropped. *)
Example scenario_full_hd :
  let st := loadedState "image/jpeg" in
  let finalCanvas := processImage st sampleImage 1920 1080 in
  effectiveAspectRatio st = Some "1920:1080" /\
  option_map ImageProperties.simplifiedRatio (imageProperties st) = Some "16:9" /\
  Canvas.width finalCanvas = 1024%Z /\
  Canvas.height finalCanvas = 576%Z /\
  exists call,
    Canvas.bitmap finalCanvas = [call] /\
    Canvas.width (Canvas.source call) = 1920%Z /\
    Canvas.height (Canvas.source call) = 1080%Z /\
    (Canvas.sx call, Canvas.sy call, Canvas.sWidth call, Canvas.sHeight call)
      = (0, 0, 1920, 1080).
Proof.
  intros st finalCanvas.
  split; [reflexivity |]. split; [reflexivity |].
  set (tempCanvas := drawTempCanvas sampleImage initialFilterState 0 false).
  destruct sampleTempCanvas_size as [Ew Eh]. fold tempCanvas in Ew, Eh.
  change finalCanvas with (drawFinalCanvas tempCanvas 1920 1080 crop).
  destruct (drawFinalCanvas_size tempCanvas 1920 1080 crop) as [EW EH].
  split; [now rewrite EW, toDimension_outputWidth |].
  split.
  { rewrite EH. unfold outputWidth.
    unfold Double.div at 2. replace (1920 / 1080) with (16 / 9) by lra.
    fold (Double.div 16 9). rewrite div_16_9. now apply toDimension_IZR. }
  eexists. split; [apply drawFinalCanvas_crop_bitmap |].
  cbn [Canvas.source Canvas.sx Canvas.sy Canvas.sWidth Canvas.sHeight].
  split; [exact Ew | split; [exact Eh |]].
  cbn [sourceWidth sourceHeight Canvas_source]. rewrite Ew, Eh.
  unfold cropSource.
  destruct (Rlt_dec (1920 / 1080) (1920 / 1080)) as [H | _]; [lra |].
  reflexivity.
Qed.

Lemma sqrt2_bounds : 1414 <= 1000 * sqrt 2 < 1415.
Proof.
  pose proof (sqrt_sqrt 2 ltac:(lra)) as Hsq.
  pose proof (sqrt_pos 2) as Hpos.
  split; nra.
Qed.

Lemma rotatedSize_45 (w : R) :
  0 <= w -> rotatedSize w w 45 = (w * sqrt 2, w * sqrt 2).
Proof.
  intros Hw. unfold rotatedSize.
  replace (45 * PI / 180) with (PI / 4) by lra.
  rewrite cos_PI4, sin_PI4.
  pose proof (sqrt_lt_R0 2 ltac:(lra)) as Hs.
  pose proof (sqrt_sqrt 2 ltac:(lra)) as Hsq.
  rewrite Rabs_pos_eq by (apply Rlt_le, Rdiv_lt_0_compat; lra).
  f_equal; field_simplify; try lra; rewrite <- Hsq at 1; field; lra.
Qed.

(** A 1000 x 1000 source at 45 degrees, ratio 1:1, crop: the bounding
    box is 1414 x 1414, the output is 1024 x 1024 and the region is the
    whole buffer, without an offset. *)
Example scenario_square_at_45_degrees :
  let tempCanvas := drawTempCanvas squareImage initialFilterState 45 false in
  let finalCanvas := drawFinalCanvas tempCanvas 1 1 crop in
  Canvas.width tempCanvas = 1414%Z /\
  Canvas.height tempCanvas = 1414%Z /\
  Canvas.width finalCanvas = 1024%Z /\
  Canvas.height finalCanvas = 1024%Z /\
  exists call,
    Canvas.bitmap finalCanvas = [call] /\
    (Canvas.sx call, Canvas.sy call, Canvas.sWidth call, Canvas.sHeight call)
      = (0, 0, 1414, 1414).
Proof.
  intros tempCanvas finalCanvas.
  assert (Etemp : Canvas.width tempCanvas = 1414%Z /\
                  Canvas.height tempCanvas = 1414%Z).
  { destruct (drawTempCanvas_size squareImage initialFilterState 45 false)
      as [Ew Eh].
    fold tempCanvas in Ew, Eh. rewrite Ew, Eh.
    change (sourceWidth squareImage) with 1000.
    change (sourceHeight squareImage) with 1000.
    rewrite rotatedSize_45 by lra. cbn [fst snd].
    pose proof sqrt2_bounds as Hb.
    assert (E : toDimension (1000 * sqrt 2) = 1414%Z).
    { unfold toDimension. destruct (Rle_dec 0 (1000 * sqrt 2)); [| lra].
      symmetry. apply Int_part_spec. lra. }
    now rewrite E. }
  destruct Etemp as [Ew Eh].
  split; [exact Ew | split; [exact Eh |]].
  destruct (drawFinalCanvas_size tempCanvas 1 1 crop) as [EW EH].
  fold finalCanvas in EW, EH.
  split; [now rewrite EW, toDimension_outputWidth |].
  split.
  { rewrite EH. unfold outputWidth.
    rewrite div_1_1. now apply toDimension_IZR. }
  eexists. split; [apply drawFinalCanvas_crop_bitmap |].
  cbn [Canvas.sx Canvas.sy Canvas.sWidth Canvas.sHeight].
  cbn [sourceWidth sourceHeight Canvas_source]. rewrite Ew, Eh.
  unfold cropSource.
  destruct (Rlt_dec (1 / 1) (1414 / 1414)) as [H | _]; [lra |].
  destruct (Rlt_dec (1414 / 1414) (1 / 1)) as [H | _]; [lra |].
  reflexivity.
Qed.

(** The download path names the file after the encoding it asked for:
    the extension is [jpg] exactly when the data URL was requested as
    [image/jpeg], and [png] otherwise. *)
Lemma handleDownload_extension toDataURL browser st file image ratioW ratioH :
  Processable browser st file image ratioW ratioH ->
  exists st' link extension,
    handleDownload toDataURL browser st = Some (st', Some link) /\
    href link = toDataURL (processImage st image ratioW ratioH)
                  (outputMimeType file) /\
    download link
      = JS.join "." (removelast (JS.split "." (File.name file)))
        +:+ "-edited." +:+ extension /\
    (outputMimeType file = "image/jpeg" -> extension = "jpg") /\
    (outputMimeType file = "image/png" -> extension = "png").
Proof.
  intros Hok. unfold handleDownload.
  rewrite (has_file _ _ _ _ _ _ Hok).
  rewrite (getProcessedImageAsDataUrl_resolves _ _ _ _ _ _ _ Hok).
  eexists _, _, _. split; [reflexivity |].
  split; [reflexivity |]. split; [reflexivity |].
  unfold outputMimeType.
  destruct (String.eqb_spec (File.type file) "image/jpeg") as [-> | Hj]; cbn.
  - split; [reflexivity | discriminate].
  - destruct (String.eqb_spec (File.type file) "image/png") as [-> | Hp];
      split; congruence.
Qed.

(** End to end: on every processable input the promise resolves with the
    encoding of a canvas 1024 pixels wide whose height is that of the
    target ratio as the doubles compute it, truncated. *)
Lemma getProcessedImageAsDataUrl_output toDataURL browser st file image
    ratioW ratioH :
  Processable browser st file image ratioW ratioH ->
  exists finalCanvas,
    getProcessedImageAsDataUrl toDataURL browser st
      = Some (resolve (toDataURL finalCanvas (outputMimeType file))) /\
    Canvas.width finalCanvas = 1024%Z /\
    Canvas.height finalCanvas
      = toDimension (Double.div 1024
                       (Double.div (IZR (Z.of_N ratioW)) (IZR (Z.of_N ratioH)))).
Proof.
  intros Hok. exists (processImage st image ratioW ratioH).
  split; [now apply getProcessedImageAsDataUrl_resolves |].
  unfold processImage.
  destruct (drawFinalCanvas_size
              (drawTempCanvas image (filters st) (rotation st) (isMirrored st))
              (IZR (Z.of_N ratioW)) (IZR (Z.of_N ratioH)) (resizeMode st))
    as [Ew Eh].
  split; [now rewrite Ew, toDimension_outputWidth | exact Eh].
Qed.

(** * Stored ratios: writing and reading back *)

Module JSONTextFacts.
Import JSONText.

Lemma chars_app (s1 s2 : string) :
  list_ascii_of_string (s1 +:+ s2)
  = list_ascii_of_string s1 ++ list_ascii_of_string s2.
Proof.
  induction s1 as [| c s1 IH]; [reflexivity |].
  change (String c s1 +:+ s2) with (String c (s1 +:+ s2)).
  cbn [list_ascii_of_string app]. now rewrite IH.
Qed.

Lemma run_app (s : state) (a b : list ascii) :
  run s (a ++ b) = run (run s a) b.
Proof. apply fold_left_app. Qed.

(** One escaped code unit is read back as that code unit. *)
Lemma run_quoteChar (items : list string) (cur : list ascii) (c : ascii) :
  run (InString items cur) (list_ascii_of_string (JSON.quoteChar c))
  = InString items (c :: cur).
Proof.
  destruct c as [[|] [|] [|] [|] [|] [|] [|] [|]]; reflexivity.
Qed.

Lemma run_quoteChars (s : string) (items : list string) (cur : list ascii) :
  run (InString items cur) (list_ascii_of_string (JSON.quoteChars s))
  = InString items (rev (list_ascii_of_string s) ++ cur).
Proof.
  revert cur. induction s as [| c s IH]; intros cur.
  - reflexivity.
  - cbn [JSON.quoteChars]. rewrite chars_app, run_app, run_quoteChar, IH.
    cbn [list_ascii_of_string rev]. now rewrite <- app_assoc.
Qed.

Lemma run_quote_from (s : string) (items : list string) (cur : list ascii) :
  run (InString items cur)
    (list_ascii_of_string (JSON.quoteChars s) ++ [ascii_of_N 34])
  = AfterString
      (items ++ [string_of_list_ascii (rev cur ++ list_ascii_of_string s)]).
Proof.
  rewrite run_app, run_quoteChars. cbn.
  now rewrite rev_app_distr, rev_involutive.
Qed.

Lemma chars_quote (s : string) :
  list_ascii_of_string (JSON.quote s)
  = ascii_of_N 34
      :: list_ascii_of_string (JSON.quoteChars s) ++ [ascii_of_N 34].
Proof.
  unfold JSON.quote. cbv zeta. rewrite !chars_app. reflexivity.
Qed.

Lemma run_quote_AfterComma (s : string) (items : list string) :
  run (AfterComma items) (list_ascii_of_string (JSON.quote s))
  = AfterString (items ++ [s]).
Proof.
  rewrite chars_quote.
  change (run (AfterComma items) (ascii_of_N 34 :: ?l))
    with (run (InString items []) l).
  rewrite run_quote_from. cbn [rev app].
  now rewrite string_of_list_ascii_of_string.
Qed.

Lemma run_quote_AfterOpen (s : string) :
  run AfterOpen (list_ascii_of_string (JSON.quote s)) = AfterString [s].
Proof.
  rewrite chars_quote.
  change (run AfterOpen (ascii_of_N 34 :: ?l)) with (run (InString [] []) l).
  rewrite run_quote_from. cbn [rev app].
  now rewrite string_of_list_ascii_of_string.
Qed.

Lemma append_empty_r (s : string) : s +:+ EmptyString = s.
Proof.
  induction s as [| c s IH]; [reflexivity |].
  change (String c s +:+ EmptyString) with (String c (s +:+ EmptyString)).
  now rewrite IH.
Qed.

Lemma join_quote_cons (x : string) (rest : list string) :
  JS.join "," (map JSON.quote (x :: rest))
  = JSON.quote x +:+
    match rest with
    | [] => EmptyString
    | _ => "," +:+ JS.join "," (map JSON.quote rest)
    end.
Proof.
  destruct rest; cbn [map JS.join]; [| reflexivity].
  now rewrite append_empty_r.
Qed.

Lemma run_rest (rest : list string) (items : list string) :
  run (AfterString items)
    (list_ascii_of_string
       (match rest with
        | [] => EmptyString
        | _ => "," +:+ JS.join "," (map JSON.quote rest)
        end))
  = AfterString (items ++ rest).
Proof.
  revert items. induction rest as [| x rest IH]; intros items.
  - cbn. now rewrite app_nil_r.
  - rewrite join_quote_cons, !chars_app, !run_app.
    change (run (AfterString items) (list_ascii_of_string ","))
      with (AfterComma items).
    rewrite run_quote_AfterComma, IH. now rewrite <- app_assoc.
Qed.

Lemma parse_stringify (arr : list string) :
  parse (JSON.stringify arr) = StringArray arr.
Proof.
  unfold parse, JSON.stringify. rewrite !chars_app, !run_app.
  change (run Start (list_ascii_of_string "[")) with AfterOpen.
  destruct arr as [| x rest].
  - reflexivity.
  - rewrite join_quote_cons, chars_app, run_app, run_quote_AfterOpen, run_rest.
    reflexivity.
Qed.

End JSONTextFacts.

(** * Invariants of the component *)

Lemma uiInvariant_frame (st st' : State) :
  customRatios st' = customRatios st ->
  localStorage st' = localStorage st ->
  selectedAspectRatio st' = selectedAspectRatio st ->
  uiInvariant st -> uiInvariant st'.
Proof.
  unfold uiInvariant, allAspectRatios, storageInSync.
  intros -> -> ->. tauto.
Qed.

Lemma uiInvariant_selection (st st' : State) :
  customRatios st' = customRatios st ->
  localStorage st' = localStorage st ->
  selectedAspectRatio st' ∈ allAspectRatios st ->
  uiInvariant st -> uiInvariant st'.
Proof.
  unfold uiInvariant, allAspectRatios, storageInSync.
  intros -> -> Hsel. tauto.
Qed.

Lemma Auto_selectable (st : State) : "Auto" ∈ allAspectRatios st.
Proof. apply elem_of_cons. now left. Qed.

Lemma saveCustomRatios_inSync (ratios : list string) (st : State) :
  storageInSync (saveCustomRatios ratios st).
Proof.
  unfold storageInSync, saveCustomRatios, localStorage_setItem.
  cbn [localStorage customRatios setCustomRatios].
  now rewrite lookup_insert_eq.
Qed.

Lemma handleAnalyze_frame toDataURL generateContent browser st st' request :
  handleAnalyze toDataURL generateContent browser st = Some (st', request) ->
  customRatios st' = customRatios st /\
  localStorage st' = localStorage st /\
  selectedAspectRatio st' = selectedAspectRatio st.
Proof.
  unfold handleAnalyze. intros H.
  destruct (selectedFile st); [| injection H as <- _; now repeat split].
  destruct (getProcessedImageAsDataUrl _ _ _) as [[url | m] |];
    [| injection H as <- _; now repeat split | discriminate].
  destruct (analyzeImage _ _); injection H as <- _; now repeat split.
Qed.

Lemma handleDownload_frame toDataURL browser st st' link :
  handleDownload toDataURL browser st = Some (st', link) ->
  customRatios st' = customRatios st /\
  localStorage st' = localStorage st /\
  selectedAspectRatio st' = selectedAspectRatio st.
Proof.
  unfold handleDownload. intros H.
  destruct (selectedFile st); [| injection H as <- _; now repeat split].
  destruct (getProcessedImageAsDataUrl _ _ _) as [[url | m] |];
    [| | discriminate];
    injection H as <- _; destruct (falsy (error st)); now repeat split.
Qed.

Lemma stringify_not_empty (arr : list string) :
  falsy (Some (JSON.stringify arr)) = false.
Proof. reflexivity. Qed.

(** Loading the page with a storage that is in sync brings the list
    back and resets the rest. *)
Lemma pageLoad_inSync (st : State) :
  storageInSync st ->
  exists st',
    pageLoad (localStorage st) = Some st' /\
    customRatios st' = customRatios st /\
    localStorage st' = localStorage st /\
    selectedAspectRatio st' = "Auto".
Proof.
  unfold storageInSync, pageLoad, useEffect_mount.
  cbn [localStorage].
  destruct (localStorage st !! "customAnalyzerRatios") as [text |] eqn:E.
  - intros ->. rewrite stringify_not_empty, JSONTextFacts.parse_stringify.
    eexists. split; [reflexivity |]. now repeat split.
  - intros ->. cbn. eexists. split; [reflexivity |]. now repeat split.
Qed.

Lemma builtin_not_Auto : "Auto" ∉ analyzerAspectRatios.
Proof.
  intros H.
  repeat (apply elem_of_cons in H as [H | H]; [discriminate |]).
  now apply elem_of_nil in H.
Qed.

Lemma handleAddRatio_uiInvariant (st : State) :
  uiInvariant st -> uiInvariant (handleAddRatio st).
Proof.
  intros Hinv.
  pose proof Hinv as (Hlist & Hwf & Hsel & Hsync).
  pose proof (handleAddRatio_invariant st Hlist) as Hlist'.
  destruct (handleAddRatio_cases st)
    as [[Ht E] | [(Ht & Hk & E) | (Ht & Hk & E)]];
    try (rewrite E; now apply (uiInvariant_frame st)).
  rewrite E in Hlist' |- *. cbn [customRatios setRatioInputError setNewRatio]
    in Hlist'.
  rewrite saveCustomRatios_customRatios in Hlist'.
  unfold uiInvariant, allAspectRatios, storageInSync.
  cbn [customRatios selectedAspectRatio localStorage setRatioInputError
       setNewRatio].
  rewrite saveCustomRatios_customRatios.
  split; [exact Hlist' |].
  destruct Hlist as (Hnd & _).
  apply includes_not_elem_of in Hk. rewrite known_ratio_elem_of in Hk.
  assert (Hfresh : NoDup (customRatios st ++ [JS.trim (newRatio st)])).
  { apply NoDup_app. split; [exact Hnd | split; [| apply NoDup_singleton]].
    intros x Hx Hx'. apply list_elem_of_singleton in Hx'. subst. tauto. }
  rewrite spreadSet_id by exact Hfresh.
  split; [| split].
  - apply Forall_app. split; [exact Hwf |].
    constructor; [| constructor]. now apply ratioRegex_test_spec.
  - unfold allAspectRatios in Hsel. cbn [selectedAspectRatio saveCustomRatios
      localStorage_setItem setCustomRatios].
    rewrite !elem_of_cons, !elem_of_app in *. tauto.
  - pose proof (saveCustomRatios_inSync
                  (customRatios st ++ [JS.trim (newRatio st)]) st) as Hs.
    unfold storageInSync in Hs.
    rewrite saveCustomRatios_customRatios, spreadSet_id in Hs by exact Hfresh.
    exact Hs.
Qed.

Lemma handleRemoveRatio_uiInvariant (ratioToRemove : string) (st : State) :
  uiInvariant st -> uiInvariant (handleRemoveRatio ratioToRemove st).
Proof.
  intros (Hlist & Hwf & Hsel & Hsync).
  pose proof (handleRemoveRatio_invariant ratioToRemove st Hlist) as Hlist'.
  destruct Hlist as (Hnd & _).
  pose proof (handleRemoveRatio_customRatios ratioToRemove st) as El.
  rewrite spreadSet_id in El by now apply filter_NoDup.
  unfold uiInvariant. split; [exact Hlist' | split; [| split]].
  - rewrite El. unfold JS.filter. clear -Hwf.
    induction Hwf as [| x l Hx _ IH]; cbn; [constructor |].
    destruct (negb (String.eqb x ratioToRemove)); [now constructor | exact IH].
  - unfold allAspectRatios in *. rewrite El.
    unfold handleRemoveRatio.
    destruct (String.eqb_spec (selectedAspectRatio st) ratioToRemove) as [E | E].
    + cbn. apply elem_of_cons. now left.
    + cbn [selectedAspectRatio saveCustomRatios localStorage_setItem
           setCustomRatios].
      rewrite !elem_of_cons, !elem_of_app, filter_elem_of in *.
      destruct Hsel as [H | [H | H]]; [tauto | tauto |].
      right. right. split; [exact H |].
      apply negb_true_iff. now apply String.eqb_neq.
  - unfold storageInSync, handleRemoveRatio.
    pose proof (saveCustomRatios_inSync
                  (JS.filter (fun r => negb (String.eqb r ratioToRemove))
                     (customRatios st)) st) as Hs.
    unfold storageInSync in Hs.
    destruct (String.eqb (selectedAspectRatio st) ratioToRemove); exact Hs.
Qed.

Lemma uiStep_invariant (st st' : State) :
  uiStep st st' -> uiInvariant st -> uiInvariant st'.
Proof.
  intros Hstep Hinv.
  destruct Hstep as [s v | s | s r | s ratio Hin Hen | s m | s v | s | s n v
                     | s | s file url | s file image | s
                     | s enc gen b s' req Han | s enc b s' link Hdl
                     | s s' Hload];
    try (now apply (uiInvariant_frame s)).
  - now apply handleAddRatio_uiInvariant.
  - now apply handleRemoveRatio_uiInvariant.
  - now apply (uiInvariant_selection s).
  - destruct file; [now apply (uiInvariant_frame s) | exact Hinv].
  - apply (uiInvariant_selection s); try reflexivity; [| exact Hinv].
    apply Auto_selectable.
  - apply (uiInvariant_selection s); try reflexivity; [| exact Hinv].
    cbn. apply elem_of_cons. right. apply elem_of_cons. now left.
  - destruct (handleAnalyze_frame _ _ _ _ _ _ Han) as (E1 & E2 & E3).
    now apply (uiInvariant_frame s).
  - destruct (handleDownload_frame _ _ _ _ _ Hdl) as (E1 & E2 & E3).
    now apply (uiInvariant_frame s).
  - destruct Hinv as (Hl & Hw & Hsel & Hs).
    destruct (pageLoad_inSync s Hs) as (s'' & E & E1 & E2 & E3).
    rewrite Hload in E. injection E as <-.
    apply (uiInvariant_selection s); try assumption.
    + rewrite E3. apply Auto_selectable.
    + unfold uiInvariant. tauto.
Qed.

Lemma initialState_uiInvariant : uiInvariant initialState.
Proof.
  unfold uiInvariant, ratiosInvariant, allAspectRatios, storageInSync. cbn.
  repeat split; try constructor.
  - apply not_elem_of_nil.
  - intros r _. apply not_elem_of_nil.
Qed.

Lemma rtc_uiInvariant (st st' : State) :
  rtc uiStep st st' -> uiInvariant st -> uiInvariant st'.
Proof.
  induction 1 as [s | s1 s2 s3 Hstep _ IH]; intros Hinv.
  - exact Hinv.
  - apply IH. now apply (uiStep_invariant s1).
Qed.

Lemma reachable_uiInvariant (st : State) : reachable st -> uiInvariant st.
Proof.
  intros H. apply (rtc_uiInvariant initialState); [exact H |].
  apply initialState_uiInvariant.
Qed.

Lemma sampleSession_reachable : reachable sampleSession.
Proof.
  unfold reachable, sampleSession, loadedState.
  eapply rtc_l; [apply (ui_file _ (Some (sampleFile "image/png")) "blob:preview") |].
  eapply rtc_l; [apply (ui_onload _ (sampleFile "image/png") sampleImage) |].
  eapply rtc_l; [apply (ui_type _ "5:4") |].
  eapply rtc_l; [apply ui_add |].
  eapply rtc_l; [apply (ui_type _ " 21:9") |].
  eapply rtc_l; [apply ui_add |].
  eapply rtc_l.
  { apply (ui_select _ "21:9"); [| reflexivity].
    apply includes_elem_of. reflexivity. }
  eapply rtc_l; [apply (ui_remove _ "21:9") |].
  apply rtc_refl.
Qed.

Example sampleSession_customRatios :
  customRatios sampleSession = ["5:4"] /\
  selectedAspectRatio sampleSession = "Auto" /\
  localStorage sampleSession !! "customAnalyzerRatios"
    = Some (JSON.stringify ["5:4"]).
Proof. repeat split; reflexivity. Qed.

Lemma sampleSession_processable :
  Processable sampleBrowser sampleSession (sampleFile "image/png") sampleImage
    1920 1080.
Proof.
  split; try reflexivity.
  now apply (drawTempCanvas_nonempty sampleImage).
Qed.

(** An error message on the screen does not change what the pipeline
    does. *)
Lemma Processable_setError browser st file image ratioW ratioH message :
  Processable browser st file image ratioW ratioH ->
  Processable browser (setError message st) file image ratioW ratioH.
Proof. intros []. split; assumption. Qed.

(** * Further properties of the code *)

(** X1. [gcd] returns the greatest common divisor of its arguments: it
    divides both, every common divisor divides it, and the order of the
    arguments does not matter. *)
Theorem X1_gcd_is_greatest_common_divisor (a b : N) :
  (gcd a b | a)%N /\ (gcd a b | b)%N /\
  (forall d, (d | a)%N -> (d | b)%N -> (d | gcd a b)%N) /\
  gcd a b = gcd b a.
Proof.
  rewrite !gcd_is_Ngcd.
  split; [apply N.gcd_divide_l |]. split; [apply N.gcd_divide_r |].
  split; [intros d; apply N.gcd_greatest | apply N.gcd_comm].
Qed.

(** X2. What the load handler stores as the automatic ratio is read back
    by the pipeline as the image's width and height, each as the nearest
    double, for every image and whatever the state was before: exactly
    the width and the height when they are below [2^53], as those of
    every image a browser decodes are. *)
Theorem X2_auto_ratio_reads_back (file : File.t) (image : Image.t) (st : State) :
  let st' := handleFileChange_onload file image st in
  let w := Image.naturalWidth image in
  let h := Image.naturalHeight image in
  selectedAspectRatio st' = "Auto" /\
  effectiveAspectRatio st' ≫= parseRatio
    = (W ← Double.ofN w; H ← Double.ofN h; Some (W, H)) /\
  ((w < 2 ^ 53)%N -> (h < 2 ^ 53)%N ->
   effectiveAspectRatio st' ≫= parseRatio = Some (w, h)).
Proof.
  intros st' w h. split; [reflexivity |].
  unfold st', effectiveAspectRatio. cbn.
  split; [apply parseRatio_auto | apply parseRatio_auto_exact].
Qed.

Lemma drawFinalCanvas_ratio tempCanvas (ratioW ratioH ratioW' ratioH' : R)
    (resizeMode : ResizeMode) :
  ratioW / ratioH = ratioW' / ratioH' ->
  drawFinalCanvas tempCanvas ratioW ratioH resizeMode
  = drawFinalCanvas tempCanvas ratioW' ratioH' resizeMode.
Proof. intros E. unfold drawFinalCanvas, Double.div. now rewrite E. Qed.

(** X3. The final canvas depends on the target ratio only through its
    value: [k W : k H] gives the same canvas as [W : H].  So the raw
    automatic ratio ["w:h"] and its simplified form produce the same
    output. *)
Theorem X3_ratio_scale_invariance (st : State) (image : Image.t) (k W H : N) :
  (0 < k)%N -> (0 < H)%N ->
  processImage st image (k * W) (k * H) = processImage st image W H.
Proof.
  intros Hk HH. unfold processImage. apply drawFinalCanvas_ratio.
  rewrite !N2Z.inj_mul, !mult_IZR.
  assert (IZR (Z.of_N k) <> 0) by (apply not_0_IZR; lia).
  assert (IZR (Z.of_N H) <> 0) by (apply not_0_IZR; lia).
  now field.
Qed.

Lemma X3_ratio_scale_invariance_witness :
  processImage (loadedState "image/png") sampleImage 1920 1080
  = processImage (loadedState "image/png") sampleImage 16 9.
Proof.
  exact (X3_ratio_scale_invariance (loadedState "image/png") sampleImage
           120 16 9 eq_refl eq_refl).
Defined.

(** X4. A ratio that [handleAddRatio] accepts goes into the list, and
    its text splits at the colon into two numerals of positive value.
    The pipeline reads them as the nearest doubles: never as zero,
    exactly when the values are below [2^53], and as finite numbers when
    they are below [2^1023]. *)
Theorem X4_accepted_ratio_parses (st : State) :
  ratioInputError (handleAddRatio st) = None ->
  let r := JS.trim (newRatio st) in
  r ∈ customRatios (handleAddRatio st) /\
  exists w h,
    (0 < w)%N /\ (0 < h)%N /\
    map JS.numericValue (JS.split ":" r) = [Some w; Some h] /\
    parseRatio r = (W ← Double.ofN w; H ← Double.ofN h; Some (W, H)) /\
    (forall W H, parseRatio r = Some (W, H) -> (0 < W)%N /\ (0 < H)%N) /\
    ((w < 2 ^ 53)%N -> (h < 2 ^ 53)%N -> parseRatio r = Some (w, h)) /\
    ((w < 2 ^ 1023)%N -> (h < 2 ^ 1023)%N -> is_Some (parseRatio r)).
Proof.
  intros Hok r.
  destruct (handleAddRatio_cases st)
    as [[Ht E] | [(Ht & Hk & E) | (Ht & Hk & E)]];
    rewrite E in Hok |- *; try discriminate Hok.
  split.
  - cbn [customRatios setRatioInputError setNewRatio].
    rewrite saveCustomRatios_customRatios.
    apply spreadSet_elem_of, elem_of_app. right.
    now apply list_elem_of_singleton.
  - now apply wellFormedRatio_parses, ratioRegex_test_spec.
Qed.

Lemma X4_accepted_ratio_parses_witness :
  "21:9" ∈ ["21:9"] /\ parseRatio "21:9" = Some (21%N, 9%N).
Proof.
  destruct (X4_accepted_ratio_parses
              (newRatio_onChange "  21:9 " initialState) eq_refl)
    as (Hin & w & h & _ & _ & Hparts & _ & _ & Hexact & _).
  split; [exact Hin |].
  vm_compute in Hparts. injection Hparts as <- <-.
  exact (Hexact eq_refl eq_refl).
Defined.

(** X5. The pattern of [handleAddRatio] accepts exactly the texts
    [W:H] in which [W] and [H] are non-empty runs of decimal digits that
    do not start with 0. *)
Theorem X5_ratioRegex_language (s : string) :
  RegExp.test ratioRegex s = true <->
  exists w ws h hs,
    s = string_of_list_ascii ((w :: ws) ++ (":"%char :: h :: hs)) /\
    isNonZeroDigit w /\ Forall isDigit ws /\
    isNonZeroDigit h /\ Forall isDigit hs.
Proof.
  rewrite ratioRegex_test_spec. unfold wellFormedRatio. split.
  - intros (w & ws & h & hs & E & H). exists w, ws, h, hs.
    split; [| exact H].
    now rewrite <- E, string_of_list_ascii_of_string.
  - intros (w & ws & h & hs & E & H). exists w, ws, h, hs.
    split; [| exact H].
    now rewrite E, list_ascii_of_string_of_list_ascii.
Qed.

Lemma analyzerAspectRatios_wellFormed :
  Forall wellFormedRatioString analyzerAspectRatios.
Proof.
  unfold analyzerAspectRatios, wellFormedRatioString.
  repeat constructor; now apply ratioRegex_test_spec.
Qed.

Lemma ratiosInvariant_NoDup_all (customs : list string) :
  ratiosInvariant customs <-> NoDup ("Auto" :: analyzerAspectRatios ++ customs).
Proof.
  assert (Hb : NoDup analyzerAspectRatios).
  { unfold analyzerAspectRatios.
    repeat (constructor;
            [intros H;
             repeat (apply elem_of_cons in H as [H | H]; [discriminate |]);
             now apply elem_of_nil in H |]).
    constructor. }
  unfold ratiosInvariant.
  rewrite NoDup_cons, NoDup_app, elem_of_app. split.
  - intros (Hnd & Hauto & Hbuiltin). split.
    + intros [H | H]; [now apply builtin_not_Auto | contradiction].
    + split; [exact Hb | split; [exact Hbuiltin | exact Hnd]].
  - intros (Hauto & _ & Hdisj & Hnd). split; [exact Hnd |].
    split; [tauto | exact Hdisj].
Qed.

(** X6. In every state the page can reach from empty storage, every
    ratio that can be selected, other than [Auto], is a text that splits
    at the colon into two numerals of positive value.  The pipeline
    reads them as the nearest doubles: never as zero, exactly when the
    values are below [2^53], and as finite numbers when they are below
    [2^1023]. *)
Theorem X6_selectable_ratios_parse (st : State) (r : string) :
  reachable st ->
  r ∈ allAspectRatios st -> r <> "Auto" ->
  exists w h,
    (0 < w)%N /\ (0 < h)%N /\
    map JS.numericValue (JS.split ":" r) = [Some w; Some h] /\
    parseRatio r = (W ← Double.ofN w; H ← Double.ofN h; Some (W, H)) /\
    (forall W H, parseRatio r = Some (W, H) -> (0 < W)%N /\ (0 < H)%N) /\
    ((w < 2 ^ 53)%N -> (h < 2 ^ 53)%N -> parseRatio r = Some (w, h)) /\
    ((w < 2 ^ 1023)%N -> (h < 2 ^ 1023)%N -> is_Some (parseRatio r)).
Proof.
  intros Hreach Hin Hne.
  destruct (reachable_uiInvariant st Hreach) as (_ & Hwf & _ & _).
  apply wellFormedRatio_parses.
  unfold allAspectRatios in Hin.
  apply elem_of_cons in Hin as [-> | Hin]; [contradiction |].
  apply elem_of_app in Hin as [Hin | Hin].
  - pose proof analyzerAspectRatios_wellFormed as Hb.
    rewrite Forall_forall in Hb. now apply Hb.
  - rewrite Forall_forall in Hwf. now apply Hwf.
Qed.

Lemma X6_selectable_ratios_parse_witness :
  parseRatio "5:4" = Some (5%N, 4%N).
Proof.
  destruct (X6_selectable_ratios_parse sampleSession "5:4"
              sampleSession_reachable)
    as (w & h & _ & _ & Hparts & _ & _ & Hexact & _).
  - apply includes_elem_of. reflexivity.
  - discriminate.
  - vm_compute in Hparts. injection Hparts as <- <-.
    exact (Hexact eq_refl eq_refl).
Defined.

(** X7. In every reachable state the list of ratio buttons, [Auto], the
    built-in ratios and the custom ones, has no repeated entry, so the
    React keys of the buttons are distinct. *)
Theorem X7_ratio_buttons_are_distinct (st : State) :
  reachable st -> NoDup (allAspectRatios st).
Proof.
  intros Hreach.
  destruct (reachable_uiInvariant st Hreach) as (Hlist & _).
  exact (proj1 (ratiosInvariant_NoDup_all (customRatios st)) Hlist).
Qed.

Lemma X7_ratio_buttons_are_distinct_witness :
  NoDup ["Auto"; "16:9"; "3:2"; "4:3"; "1:1"; "3:4"; "2:3"; "9:16"; "5:4"].
Proof.
  exact (X7_ratio_buttons_are_distinct sampleSession sampleSession_reachable).
Defined.

(** X8. In every reachable state the selected ratio is one of the ratio
    buttons: removing the selected custom ratio, a failed load and a
    page load all leave a selection that exists. *)
Theorem X8_selection_is_never_dangling (st : State) :
  reachable st -> selectedAspectRatio st ∈ allAspectRatios st.
Proof.
  intros Hreach.
  now destruct (reachable_uiInvariant st Hreach) as (_ & _ & Hsel & _).
Qed.

Lemma X8_selection_is_never_dangling_witness :
  "Auto" ∈ allAspectRatios sampleSession.
Proof.
  exact (X8_selection_is_never_dangling sampleSession sampleSession_reachable).
Defined.

(** X9. In every reachable state the stored text is the list on the
    screen, so loading the page again brings back exactly the custom
    ratios that were there, with [Auto] selected. *)
Theorem X9_reload_restores_custom_ratios (st : State) :
  reachable st ->
  exists st',
    pageLoad (localStorage st) = Some st' /\
    customRatios st' = customRatios st /\
    selectedAspectRatio st' = "Auto" /\
    reachable st'.
Proof.
  intros Hreach.
  destruct (reachable_uiInvariant st Hreach) as (_ & _ & _ & Hsync).
  destruct (pageLoad_inSync st Hsync) as (st' & Hload & Hl & _ & Hsel).
  exists st'. repeat split; try assumption.
  unfold reachable in *. eapply rtc_r; [exact Hreach |].
  now apply ui_reload.
Qed.

Lemma X9_reload_restores_custom_ratios_witness :
  exists st',
    pageLoad (localStorage sampleSession) = Some st' /\
    customRatios st' = ["5:4"] /\
    selectedAspectRatio st' = "Auto" /\
    reachable st'.
Proof.
  exact (X9_reload_restores_custom_ratios sampleSession sampleSession_reachable).
Defined.

(** X10. Whatever strings [saveCustomRatios] is given, quotes,
    backslashes and control characters included, the mount effect reads
    the stored text back as the list that was saved, without its
    duplicates. *)
Theorem X10_saved_ratios_read_back (ratios : list string) (st : State) :
  let saved := saveCustomRatios ratios st in
  localStorage saved !! "customAnalyzerRatios"
    = Some (JSON.stringify (JS.spreadSet ratios)) /\
  JSONText.parse (JSON.stringify (JS.spreadSet ratios))
    = JSONText.StringArray (JS.spreadSet ratios) /\
  exists st',
    pageLoad (localStorage saved) = Some st' /\
    customRatios st' = JS.spreadSet ratios.
Proof.
  intros saved.
  assert (Hstored : localStorage saved !! "customAnalyzerRatios"
                    = Some (JSON.stringify (JS.spreadSet ratios))).
  { unfold saved, saveCustomRatios, localStorage_setItem. cbn [localStorage].
    now rewrite lookup_insert_eq. }
  split; [exact Hstored |].
  split; [apply JSONTextFacts.parse_stringify |].
  unfold pageLoad, useEffect_mount. cbn [localStorage].
  rewrite Hstored, stringify_not_empty, JSONTextFacts.parse_stringify.
  eexists. split; reflexivity.
Qed.

(** X11. [handleRemoveRatio] removes exactly the given ratio: the new
    list holds the old entries other than that ratio, in their old order
    when the old list had no duplicates; and the selection moves to
    [Auto] exactly when the removed ratio was the selected one. *)
Theorem X11_remove_ratio (ratioToRemove : string) (st : State) :
  let st' := handleRemoveRatio ratioToRemove st in
  (forall x, x ∈ customRatios st' <->
             x ∈ customRatios st /\ x <> ratioToRemove) /\
  (NoDup (customRatios st) ->
   customRatios st'
   = List.filter (fun r => negb (String.eqb r ratioToRemove)) (customRatios st)) /\
  selectedAspectRatio st'
  = (if decide (selectedAspectRatio st = ratioToRemove)
     then "Auto" else selectedAspectRatio st) /\
  (ratioToRemove <> "Auto" -> selectedAspectRatio st' <> ratioToRemove).
Proof.
  intros st'. unfold st'.
  split; [| split; [| split]].
  - intros x. rewrite handleRemoveRatio_customRatios, spreadSet_elem_of,
      filter_elem_of, negb_true_iff, String.eqb_neq. reflexivity.
  - intros Hnd. rewrite handleRemoveRatio_customRatios.
    apply spreadSet_id. now apply filter_NoDup.
  - unfold handleRemoveRatio.
    destruct (String.eqb_spec (selectedAspectRatio st) ratioToRemove) as [E | E];
      destruct (decide _); try contradiction; reflexivity.
  - intros Hne. unfold handleRemoveRatio.
    destruct (String.eqb_spec (selectedAspectRatio st) ratioToRemove) as [E | E];
      cbn; [congruence | exact E].
Qed.

(** X12. Adding a ratio and removing it again gives back the list as it
    was, when that list had no duplicates. *)
Theorem X12_add_then_remove (st : State) :
  NoDup (customRatios st) ->
  ratioInputError (handleAddRatio st) = None ->
  customRatios (handleRemoveRatio (JS.trim (newRatio st)) (handleAddRatio st))
  = customRatios st.
Proof.
  intros Hnd Hok.
  destruct (handleAddRatio_cases st)
    as [[Ht E] | [(Ht & Hk & E) | (Ht & Hk & E)]];
    rewrite E in Hok; try discriminate Hok.
  set (t := JS.trim (newRatio st)) in *.
  apply includes_not_elem_of in Hk. rewrite known_ratio_elem_of in Hk.
  assert (Hfresh : NoDup (customRatios st ++ [t])).
  { apply NoDup_app. split; [exact Hnd | split; [| apply NoDup_singleton]].
    intros x Hx Hx'. apply list_elem_of_singleton in Hx'. subst. tauto. }
  rewrite handleRemoveRatio_customRatios, E.
  cbn [customRatios setRatioInputError setNewRatio].
  rewrite saveCustomRatios_customRatios, (spreadSet_id _ Hfresh).
  unfold JS.filter. rewrite List.filter_app. cbn [List.filter].
  rewrite String.eqb_refl. cbn [negb]. rewrite app_nil_r.
  assert (Hkeep : List.filter (fun r => negb (String.eqb r t)) (customRatios st)
                  = customRatios st).
  { assert (Hnot : t ∉ customRatios st) by tauto. clear -Hnot.
    induction (customRatios st) as [| x l IH]; [reflexivity |].
    cbn. destruct (String.eqb_spec x t) as [-> | _].
    - exfalso. apply Hnot. now left.
    - cbn. f_equal. apply IH. intros H. apply Hnot. now right. }
  rewrite Hkeep. now apply spreadSet_id.
Qed.

Lemma X12_add_then_remove_witness :
  customRatios
    (handleRemoveRatio "7:5"
       (handleAddRatio (newRatio_onChange "7:5" sampleSession)))
  = ["5:4"].
Proof.
  apply (X12_add_then_remove (newRatio_onChange "7:5" sampleSession)).
  - repeat constructor. apply not_elem_of_nil.
  - reflexivity.
Defined.

(** ** White space around a typed ratio *)

Lemma trimStart_blank (pad : string) : blank pad -> JS.trimStart pad = EmptyString.
Proof.
  unfold blank. induction pad as [| c pad IH]; cbn; intros H; [reflexivity |].
  apply Forall_cons in H as [Hc Hpad]. rewrite Hc. now apply IH.
Qed.

Lemma trimEnd_blank (pad : string) : blank pad -> JS.trimEnd pad = EmptyString.
Proof.
  unfold blank. induction pad as [| c pad IH]; cbn; intros H; [reflexivity |].
  apply Forall_cons in H as [Hc Hpad]. now rewrite (IH Hpad), Hc.
Qed.

Lemma trimStart_pad_l (pad s : string) :
  blank pad -> JS.trimStart (pad +:+ s) = JS.trimStart s.
Proof.
  unfold blank. induction pad as [| c pad IH]; intros H; [reflexivity |].
  change (String c pad +:+ s) with (String c (pad +:+ s)).
  cbn [list_ascii_of_string] in H. apply Forall_cons in H as [Hc Hpad].
  cbn [JS.trimStart]. rewrite Hc. now apply IH.
Qed.

Lemma trimEnd_pad_r (s pad : string) :
  blank pad -> JS.trimEnd (s +:+ pad) = JS.trimEnd s.
Proof.
  intros H. induction s as [| c s IH].
  - change (EmptyString +:+ pad) with pad. now rewrite trimEnd_blank.
  - change (String c s +:+ pad) with (String c (s +:+ pad)).
    cbn [JS.trimEnd]. now rewrite IH.
Qed.

Lemma trimStart_pad_r (s pad : string) :
  blank pad ->
  JS.trimEnd (JS.trimStart (s +:+ pad)) = JS.trimEnd (JS.trimStart s).
Proof.
  intros H. induction s as [| c s IH].
  - change (EmptyString +:+ pad) with pad. now rewrite trimStart_blank.
  - change (String c s +:+ pad) with (String c (s +:+ pad)).
    cbn [JS.trimStart]. destruct (JS.isWhiteSpace c); [exact IH |].
    change (String c (s +:+ pad)) with (String c s +:+ pad).
    now apply trimEnd_pad_r.
Qed.

Lemma trim_padded (pad1 s pad2 : string) :
  blank pad1 -> blank pad2 -> JS.trim (pad1 +:+ s +:+ pad2) = JS.trim s.
Proof.
  intros H1 H2. unfold JS.trim.
  now rewrite trimStart_pad_l, trimStart_pad_r.
Qed.

(** X13. White space typed before or after a ratio makes no difference:
    the list, the stored text and the error message end up as if the
    ratio had been typed without it. *)
Theorem X13_add_ratio_ignores_surrounding_space (st : State)
    (pad1 typed pad2 : string) :
  blank pad1 -> blank pad2 ->
  let padded := handleAddRatio (newRatio_onChange (pad1 +:+ typed +:+ pad2) st) in
  let plain := handleAddRatio (newRatio_onChange typed st) in
  customRatios padded = customRatios plain /\
  localStorage padded = localStorage plain /\
  ratioInputError padded = ratioInputError plain.
Proof.
  intros H1 H2 padded plain. unfold padded, plain, handleAddRatio.
  cbn [newRatio customRatios newRatio_onChange setRatioInputError setNewRatio].
  rewrite (trim_padded pad1 typed pad2 H1 H2).
  destruct (RegExp.test ratioRegex (JS.trim typed)); cbn [negb];
    [| now repeat split].
  destruct (JS.includes _ _); now repeat split.
Qed.

Lemma X13_add_ratio_ignores_surrounding_space_witness :
  customRatios (handleAddRatio (newRatio_onChange "  7:5 " sampleSession))
  = ["5:4"; "7:5"].
Proof.
  destruct (X13_add_ratio_ignores_surrounding_space sampleSession
              "  " "7:5" " ") as (Hlist & _ & _).
  - repeat constructor.
  - repeat constructor.
  - exact Hlist.
Defined.

(** ** When the pipeline resolves and when it rejects *)



(** What the promise can be rejected with: one of the five messages of
    the function itself, or what [drawImage] threw. *)
Lemma rejection_is_known toDataURL browser st message :
  getProcessedImageAsDataUrl toDataURL browser st = Some (reject message) ->
  message ∈ pipelineMessages \/
  (message = invalidStateError browser /\
   exists image,
     decoded browser = Some image /\
     Canvas_isEmpty
       (drawTempCanvas image (filters st) (rotation st) (isMirrored st))
     = true).
Proof.
  unfold getProcessedImageAsDataUrl, pipelineMessages. intros H.
  destruct (selectedFile st); [| injection H as <-; left; set_solver].
  destruct (falsy (previewUrl st)); [injection H as <-; left; set_solver |].
  destruct (falsy (effectiveAspectRatio st));
    [injection H as <-; left; set_solver |].
  destruct (decoded browser) as [image |];
    [| injection H as <-; left; set_solver].
  destruct (tempCtx browser); [| injection H as <-; left; set_solver].
  destruct (finalCtx browser); [| injection H as <-; left; set_solver].
  cbn [negb] in H.
  destruct (effectiveAspectRatio st ≫= parseRatio) as [[ratioW ratioH] |];
    [| discriminate].
  destruct ((ratioW =? 0)%N || (ratioH =? 0)%N); [discriminate |].
  destruct (Canvas_isEmpty _) eqn:Epixels; [| discriminate].
  injection H as <-. right. split; [reflexivity |]. now exists image.
Qed.

Lemma empty_canvas_rejects toDataURL browser st file image ratioW ratioH :
  selectedFile st = Some file ->
  falsy (previewUrl st) = false ->
  effectiveAspectRatio st ≫= parseRatio = Some (ratioW, ratioH) ->
  (0 < ratioW)%N -> (0 < ratioH)%N ->
  decoded browser = Some image ->
  tempCtx browser = true -> finalCtx browser = true ->
  Canvas_isEmpty
    (drawTempCanvas image (filters st) (rotation st) (isMirrored st)) = true ->
  getProcessedImageAsDataUrl toDataURL browser st
  = Some (reject (invalidStateError browser)).
Proof.
  intros Hfile Hprev Hratio HW HH Himg Htemp Hfinal Hempty.
  unfold getProcessedImageAsDataUrl.
  rewrite Hfile, Hprev, Himg, Htemp, Hfinal, Hratio. cbn [negb].
  assert (Hfalsy : falsy (effectiveAspectRatio st) = false).
  { destruct (effectiveAspectRatio st) as [r |]; [| discriminate].
    cbn in Hratio. now apply parseRatio_nonempty in Hratio. }
  rewrite Hfalsy.
  destruct (N.eqb_spec ratioW 0); [lia |].
  destruct (N.eqb_spec ratioH 0); [lia |].
  cbn [orb]. now rewrite Hempty.
Qed.

(** X15. The rejections of [getProcessedImageAsDataUrl] in their order
    of precedence: a missing file or preview URL comes first, then a
    missing ratio, then an image that does not load, then a missing
    temporary context, then a missing final context.  Past these checks,
    with a target ratio of two positive numbers, an empty temporary
    canvas makes [drawImage] throw, and the promise is rejected with the
    browser's message.  It rejects with no other message than these
    five and that one. *)
Theorem X15_rejections_in_order toDataURL browser st :
  let result := getProcessedImageAsDataUrl toDataURL browser st in
  (selectedFile st = None \/ falsy (previewUrl st) = true ->
   result = Some (reject "Please select an image file first.")) /\
  (selectedFile st <> None -> falsy (previewUrl st) = false ->
   (falsy (effectiveAspectRatio st) = true ->
    result = Some (reject
      "Could not determine aspect ratio. Please select one manually.")) /\
   (falsy (effectiveAspectRatio st) = false ->
    (decoded browser = None ->
     result = Some (reject "Failed to load image file for processing.")) /\
    (forall image, decoded browser = Some image ->
     (tempCtx browser = false ->
      result = Some (reject "Could not get temp canvas context")) /\
     (tempCtx browser = true -> finalCtx browser = false ->
      result = Some (reject "Could not get final canvas context")) /\
     (tempCtx browser = true -> finalCtx browser = true ->
      forall ratioW ratioH,
        effectiveAspectRatio st ≫= parseRatio = Some (ratioW, ratioH) ->
        (0 < ratioW)%N -> (0 < ratioH)%N ->
        Canvas_isEmpty
          (drawTempCanvas image (filters st) (rotation st) (isMirrored st))
        = true ->
        result = Some (reject (invalidStateError browser)))))) /\
  (forall message,
     result = Some (reject message) ->
     message ∈ pipelineMessages \/ message = invalidStateError browser).
Proof.
  intros result. unfold result.
  split; [| split].
  - unfold getProcessedImageAsDataUrl. intros [H | H].
    + now rewrite H.
    + destruct (selectedFile st); [now rewrite H | reflexivity].
  - intros Hfile Hprev. unfold getProcessedImageAsDataUrl.
    destruct (selectedFile st) as [file |]; [| contradiction]. rewrite Hprev.
    split; [now intros -> |]. intros ->.
    split; [now intros -> |]. intros image ->.
    split; [now intros -> |]. split; [now intros -> -> |].
    intros -> -> ratioW ratioH -> HW HH ->. cbn [negb].
    destruct (N.eqb_spec ratioW 0); [lia |].
    destruct (N.eqb_spec ratioH 0); [lia |]. reflexivity.
  - intros m Hm. destruct (rejection_is_known _ _ _ _ Hm) as [H | [H _]];
      [now left | now right].
Qed.

(** An image without width, at no rotation and with the ratio 1:1: the
    temporary canvas is empty and the promise is rejected with what
    [drawImage] threw. *)
Example scenario_empty_image :
  let image := {| Image.naturalWidth := 0; Image.naturalHeight := 5 |} in
  let file := sampleFile "image/svg+xml" in
  let st := setSelectedAspectRatio "1:1"
              (handleFileChange_onload file image
                 (handleFileChange (Some file) "blob:preview" initialState)) in
  let browser := {| decoded := Some image; tempCtx := true; finalCtx := true;
                    invalidStateError := "InvalidStateError" |} in
  getProcessedImageAsDataUrl sampleEncoder browser st
  = Some (reject "InvalidStateError").
Proof.
  intros image file st browser.
  apply (empty_canvas_rejects sampleEncoder browser st file image 1 1);
    try reflexivity.
  destruct (drawTempCanvas_size image initialFilterState 0 false) as [Ew _].
  change (drawTempCanvas image (filters st) (rotation st) (isMirrored st))
    with (drawTempCanvas image initialFilterState 0 false).
  unfold Canvas_isEmpty. rewrite Ew, rotatedSize_0. cbn [fst].
  change (sourceWidth image) with (IZR 0).
  now rewrite toDimension_IZR.
Qed.

(** ** Analysis and download *)

(** X16. When [handleAnalyze] has finished on a state with a selected
    file, [loading] is off again; there is never both an error message
    and an analysis text; the service was called exactly when the
    pipeline resolved, and a pipeline failure leaves an error message;
    and nothing but [analysis], [error] and [loading] has changed. *)
Theorem X16_handleAnalyze_outcome toDataURL generateContent browser st st'
    request file :
  selectedFile st = Some file ->
  handleAnalyze toDataURL generateContent browser st = Some (st', request) ->
  loading st' = false /\
  (error st' = None \/ analysis st' = EmptyString) /\
  (is_Some request <->
   exists url, getProcessedImageAsDataUrl toDataURL browser st
               = Some (resolve url)) /\
  (request = None -> exists message, error st' = Some message) /\
  sameButOutcome st st'.
Proof.
  intros Hfile H. unfold handleAnalyze in H. rewrite Hfile in H.
  destruct (getProcessedImageAsDataUrl _ _ _) as [[url | m] |];
    [| | discriminate].
  - destruct (analyzeImage _ _) as [result | m]; injection H as <- <-.
    + split; [reflexivity |]. split; [now left |].
      split; [split; [intros _; now exists url | intros _; now eexists] |].
      split; [discriminate |]. now repeat split.
    + split; [reflexivity |]. split; [now right |].
      split; [split; [intros _; now exists url | intros _; now eexists] |].
      split; [discriminate |]. now repeat split.
  - injection H as <- <-.
    split; [reflexivity |]. split; [now right |].
    split; [split; [intros [x Hx]; discriminate | intros [u Hu]; discriminate] |].
    split; [intros _; now exists m |]. now repeat split.
Qed.

Lemma X16_handleAnalyze_outcome_witness :
  exists st',
    handleAnalyze sampleEncoder sampleService sampleBrowser sampleSession
      = Some (st', Some {| mimeType := "image/png"; data := Some "AAAA" |}) /\
    loading st' = false /\ analysis st' = "A landscape." /\ error st' = None.
Proof.
  pose proof (getProcessedImageAsDataUrl_resolves sampleEncoder _ _ _ _ _ _
                sampleSession_processable) as Hurl.
  eexists. split.
  { unfold handleAnalyze. rewrite Hurl. reflexivity. }
  pose proof (X16_handleAnalyze_outcome sampleEncoder sampleService
                sampleBrowser sampleSession _ _ (sampleFile "image/png")
                eq_refl
                ltac:(unfold handleAnalyze; rewrite Hurl; reflexivity))
    as (Hloading & _).
  split; [exact Hloading |]. split; reflexivity.
Defined.

(** X17. [analyzeImage] sends the image part first and the fixed prompt
    second, to the model [gemini-2.5-flash]; it resolves with the text
    the model returned; and whatever the client throws, it rejects with
    its own fixed message.  So the error [handleAnalyze] leaves is one
    of the five messages of the pipeline, the message of the service
    module, or what [drawImage] threw for an empty canvas: never what
    the client threw. *)
Theorem X17_service_errors_are_opaque generateContent (imageData : InlineData) :
  (exists prompt,
     analyzeImage_parts imageData = [inlineDataPart imageData; textPart prompt]) /\
  (forall text,
     analyzeImage generateContent imageData = resolve text <->
     generateContent "gemini-2.5-flash" (analyzeImage_parts imageData)
       = resolve text) /\
  (forall message,
     analyzeImage generateContent imageData = reject message ->
     message = serviceMessage) /\
  (forall toDataURL browser st st' request message,
     selectedFile st <> None ->
     handleAnalyze toDataURL generateContent browser st = Some (st', request) ->
     error st' = Some message ->
     message ∈ pipelineMessages \/ message = serviceMessage \/
     message = invalidStateError browser).
Proof.
  split; [| split; [| split]].
  - destruct imageData. eexists. reflexivity.
  - intros text. unfold analyzeImage.
    destruct (generateContent _ _); split; congruence.
  - intros message. unfold analyzeImage.
    destruct (generateContent _ _); [discriminate |].
    now intros [= <-].
  - intros toDataURL browser st st' request message Hfile H Herr.
    unfold handleAnalyze in H.
    destruct (selectedFile st) as [file |]; [| contradiction].
    destruct (getProcessedImageAsDataUrl _ _ _) as [[url | m] |] eqn:Ep;
      [| | discriminate].
    + unfold analyzeImage in H.
      destruct (generateContent _ _); injection H as <- <-;
        cbn in Herr; [discriminate |].
      right. left. now injection Herr as <-.
    + injection H as <- <-. cbn in Herr. injection Herr as <-.
      destruct (rejection_is_known _ _ _ _ Ep) as [Hm | [Hm _]];
        [now left | now right; right].
Qed.

Lemma split_not_nil (sep : ascii) (s : string) : JS.split sep s <> [].
Proof.
  destruct s as [| c s]; cbn [JS.split]; [discriminate |].
  destruct (Ascii.eqb c sep); [discriminate |].
  destruct (JS.split sep s); discriminate.
Qed.

Lemma join_cons_char (sep : string) (c : ascii) (h : string) (t : list string) :
  JS.join sep (String c h :: t) = String c (JS.join sep (h :: t)).
Proof. destruct t; reflexivity. Qed.

(** Joining what was split gives the text back. *)
Lemma join_split (sep : ascii) (s : string) :
  JS.join (String sep EmptyString) (JS.split sep s) = s.
Proof.
  induction s as [| c s IH]; [reflexivity |].
  cbn [JS.split]. destruct (Ascii.eqb_spec c sep) as [-> | Hne].
  - pose proof (split_not_nil sep s) as Hnil.
    destruct (JS.split sep s) as [| h t] eqn:E; [contradiction |].
    change (JS.join (String sep EmptyString) (EmptyString :: h :: t))
      with (String sep (JS.join (String sep EmptyString) (h :: t))).
    now rewrite IH.
  - pose proof (split_not_nil sep s) as Hnil.
    destruct (JS.split sep s) as [| h t] eqn:E; [contradiction |].
    rewrite join_cons_char, IH. reflexivity.
Qed.

Lemma split_last (sep : ascii) (a b : string) :
  freeOf sep b ->
  JS.split sep (a +:+ String sep b) = JS.split sep a ++ [b].
Proof.
  intros Hb. induction a as [| c a IH].
  - change (EmptyString +:+ String sep b) with (String sep b).
    cbn [JS.split]. rewrite Ascii.eqb_refl. now rewrite (split_free sep b Hb).
  - change (String c a +:+ String sep b) with (String c (a +:+ String sep b)).
    cbn [JS.split]. rewrite IH.
    destruct (Ascii.eqb c sep); [reflexivity |].
    pose proof (split_not_nil sep a) as Hnil.
    destruct (JS.split sep a) as [| h t]; [contradiction | reflexivity].
Qed.

Lemma downloadName_extension (base extension : string) :
  freeOf "." extension ->
  JS.join "." (removelast (JS.split "." (base +:+ "." +:+ extension))) = base.
Proof.
  intros Hfree.
  change ("." +:+ extension) with (String "." extension).
  rewrite split_last by exact Hfree.
  rewrite removelast_last. apply join_split.
Qed.

Lemma downloadName_no_extension (name : string) :
  freeOf "." name ->
  JS.join "." (removelast (JS.split "." name)) = EmptyString.
Proof. intros Hfree. now rewrite split_free. Qed.

(** X18. [handleDownload] never clears an error that was on the screen:
    an error present before is present afterwards, whether the download
    worked or not.  Without a previous error, a failed download leaves
    the pipeline's message and a successful one leaves none.  A link is
    clicked exactly when the pipeline resolved, and nothing but [error]
    changes. *)
Theorem X18_handleDownload_keeps_error toDataURL browser st st' link :
  handleDownload toDataURL browser st = Some (st', link) ->
  (falsy (error st) = false -> error st' = error st) /\
  (falsy (error st) = true -> selectedFile st <> None ->
   (is_Some link -> error st' = None) /\
   (forall message,
      getProcessedImageAsDataUrl toDataURL browser st = Some (reject message) ->
      error st' = Some message)) /\
  (is_Some link <->
   selectedFile st <> None /\
   exists url, getProcessedImageAsDataUrl toDataURL browser st
               = Some (resolve url)) /\
  analysis st' = analysis st /\ loading st' = loading st /\
  sameButOutcome st st'.
Proof.
  unfold handleDownload. intros H.
  destruct (selectedFile st) as [file |] eqn:Efile.
  - destruct (getProcessedImageAsDataUrl _ _ _) as [[url | m] |];
      [| | discriminate]; injection H as <- <-;
      destruct (falsy (error st)) eqn:Eerr.
    + split; [discriminate |].
      split; [intros _ _; split; [reflexivity | discriminate] |].
      split; [split; [intros _; split; [discriminate | now exists url]
                     | intros _; now eexists] |].
      now repeat split.
    + split; [reflexivity |].
      split; [discriminate |].
      split; [split; [intros _; split; [discriminate | now exists url]
                     | intros _; now eexists] |].
      now repeat split.
    + split; [discriminate |].
      split; [intros _ _; split; [intros [x Hx]; discriminate
                                 | now intros message [= <-]] |].
      split; [split; [intros [x Hx]; discriminate
                     | intros [_ [u Hu]]; discriminate] |].
      now repeat split.
    + split; [reflexivity |].
      split; [discriminate |].
      split; [split; [intros [x Hx]; discriminate
                     | intros [_ [u Hu]]; discriminate] |].
      now repeat split.
  - injection H as <- <-.
    split; [reflexivity |].
    split; [intros _ Hne; now contradiction Hne |].
    split; [split; [intros [x Hx]; discriminate | intros [Hne _]; now contradiction Hne] |].
    now repeat split.
Qed.

Lemma X18_handleDownload_keeps_error_witness :
  exists st' link,
    handleDownload sampleEncoder sampleBrowser
      (setError (Some "Earlier failure.") sampleSession)
    = Some (st', Some link) /\
    error st' = Some "Earlier failure.".
Proof.
  pose proof (getProcessedImageAsDataUrl_resolves sampleEncoder _ _ _ _ _ _
                (Processable_setError _ _ _ _ _ _ (Some "Earlier failure.")
                   sampleSession_processable))
    as Hurl.
  eexists _, _. split.
  { unfold handleDownload. rewrite Hurl. reflexivity. }
  pose proof (X18_handleDownload_keeps_error sampleEncoder sampleBrowser
                (setError (Some "Earlier failure.") sampleSession) _ _
                ltac:(unfold handleDownload; rewrite Hurl; reflexivity))
    as (Hkeep & _).
  exact (Hkeep eq_refl).
Defined.

(** X19. The name [handleDownload] gives the file: for a file name
    [base.extension] it is [base-edited.jpg] when the data was requested
    as JPEG and [base-edited.png] otherwise, so the new extension always
    matches the requested encoding; a file name without a dot loses its
    base and becomes [-edited.jpg] or [-edited.png]. *)
Theorem X19_download_name toDataURL browser st file image ratioW ratioH :
  Processable browser st file image ratioW ratioH ->
  exists st' link extension,
    handleDownload toDataURL browser st = Some (st', Some link) /\
    href link
      = toDataURL (processImage st image ratioW ratioH) (outputMimeType file) /\
    (outputMimeType file = "image/jpeg" /\ extension = "jpg" \/
     outputMimeType file = "image/png" /\ extension = "png") /\
    (forall base old,
       File.name file = base +:+ "." +:+ old -> freeOf "." old ->
       download link = base +:+ "-edited." +:+ extension) /\
    (freeOf "." (File.name file) ->
     download link = "-edited." +:+ extension).
Proof.
  intros Hok. unfold handleDownload.
  rewrite (has_file _ _ _ _ _ _ Hok).
  rewrite (getProcessedImageAsDataUrl_resolves _ _ _ _ _ _ _ Hok).
  eexists _, _,
    (if String.eqb (File.type file) "image/jpeg" then "jpg" else "png").
  split; [reflexivity |]. split; [reflexivity |].
  cbn [download]. split; [| split].
  - unfold outputMimeType.
    destruct (String.eqb_spec (File.type file) "image/jpeg") as [-> | Hj];
      [now left |].
    right. cbn [orb].
    destruct (String.eqb_spec (File.type file) "image/png") as [-> | Hp];
      now split.
  - intros base old Hname Hfree.
    now rewrite Hname, downloadName_extension.
  - intros Hfree. now rewrite downloadName_no_extension.
Qed.

Lemma X19_download_name_witness :
  exists st' link,
    handleDownload sampleEncoder sampleBrowser (loadedState "image/webp")
      = Some (st', Some link) /\
    download link = "-edited.png".
Proof.
  destruct (X19_download_name sampleEncoder sampleBrowser
              (loadedState "image/webp") (sampleFile "image/webp") sampleImage
              1920 1080 (loadedState_processable "image/webp"))
    as (st' & link & extension & Hdl & _ & Hext & _ & Hplain).
  exists st', link. split; [exact Hdl |].
  rewrite Hplain by (repeat constructor; discriminate).
  destruct Hext as [[Hjpeg _] | [_ ->]]; [discriminate Hjpeg | reflexivity].
Defined.

(** ** Geometry of the temporary canvas *)

Lemma scaled_within (m t k : R) :
  - m <= t <= m -> - (m * Rabs k) <= t * k <= m * Rabs k.
Proof.
  intros [Hlo Hhi]. unfold Rabs. destruct (Rcase_abs k) as [Hk | Hk]; nra.
Qed.

Lemma drawTempCanvas_transform image filters rotation isMirrored (p : R * R) :
  let box := rotatedSize (sourceWidth image) (sourceHeight image) rotation in
  let angleRad := rotation * PI / 180 in
  DOMMatrix.transformPoint
    (Canvas.transform (drawTempCanvas image filters rotation isMirrored)) p
  = translatePoint (fst box / 2) (snd box / 2)
      (rotatePoint angleRad (if isMirrored then mirrorPoint p else p)).
Proof.
  intros box angleRad. destruct p as [x y].
  destruct isMirrored; cbn; fold angleRad; matrix_cbn; f_equal; field.
Qed.

(** X20. The bounding box is large enough: whatever the angle and the
    mirror flag, every point of the image is painted inside the rectangle
    [rotatedWidth] by [rotatedHeight] (in real arithmetic). *)
Theorem X20_rotated_image_fits_the_box image filters rotation isMirrored
    (u v : R) :
  let w := sourceWidth image in
  let h := sourceHeight image in
  0 <= u <= w -> 0 <= v <= h ->
  let box := rotatedSize w h rotation in
  let tempCanvas := drawTempCanvas image filters rotation isMirrored in
  let p := DOMMatrix.transformPoint (Canvas.transform tempCanvas)
             (- w / 2 + u, - h / 2 + v) in
  0 <= fst p <= fst box /\ 0 <= snd p <= snd box.
Proof.
  intros w h Hu Hv box tempCanvas p. unfold p, tempCanvas.
  rewrite drawTempCanvas_transform. fold w h box.
  set (a := rotation * PI / 180).
  assert (Ebox : box = (w * Rabs (cos a) + h * Rabs (sin a),
                        w * Rabs (sin a) + h * Rabs (cos a))) by reflexivity.
  rewrite Ebox. clear Ebox.
  set (X := - w / 2 + u). set (Y := - h / 2 + v).
  assert (HX : - (w / 2) <= X <= w / 2) by (unfold X; lra).
  assert (HY : - (h / 2) <= Y <= h / 2) by (unfold Y; lra).
  assert (HX' : - (w / 2) <= - X <= w / 2) by lra.
  pose proof (scaled_within _ _ (cos a) HX) as Hxc.
  pose proof (scaled_within _ _ (sin a) HX) as Hxs.
  pose proof (scaled_within _ _ (cos a) HX') as Hxc'.
  pose proof (scaled_within _ _ (sin a) HX') as Hxs'.
  pose proof (scaled_within _ _ (cos a) HY) as Hyc.
  pose proof (scaled_within _ _ (sin a) HY) as Hys.
  destruct isMirrored; unfold translatePoint, rotatePoint, mirrorPoint;
    cbn [fst snd]; lra.
Qed.

Lemma X20_rotated_image_fits_the_box_witness :
  let tempCanvas := drawTempCanvas sampleImage initialFilterState 30 true in
  let box := rotatedSize 1920 1080 30 in
  let p := DOMMatrix.transformPoint (Canvas.transform tempCanvas)
             (- 1920 / 2 + 1920, - 1080 / 2 + 0) in
  0 <= fst p <= fst box /\ 0 <= snd p <= snd box.
Proof.
  apply (X20_rotated_image_fits_the_box sampleImage initialFilterState 30 true
           1920 0); cbn; lra.
Defined.

(** X21. The paint transform moves the image rigidly: the distance
    between two points of the image is the distance between their
    places on the canvas, with or without the mirror, and the centre of
    the image goes to the centre of the bounding box. *)
Theorem X21_paint_is_an_isometry image filters rotation isMirrored
    (p q : R * R) :
  let m := Canvas.transform (drawTempCanvas image filters rotation isMirrored) in
  let box := rotatedSize (sourceWidth image) (sourceHeight image) rotation in
  let p' := DOMMatrix.transformPoint m p in
  let q' := DOMMatrix.transformPoint m q in
  (fst p' - fst q') * (fst p' - fst q') + (snd p' - snd q') * (snd p' - snd q')
  = (fst p - fst q) * (fst p - fst q) + (snd p - snd q) * (snd p - snd q) /\
  DOMMatrix.transformPoint m (0, 0) = (fst box / 2, snd box / 2).
Proof.
  intros m box p' q'. unfold p', q', m.
  rewrite !drawTempCanvas_transform. fold box.
  set (a := rotation * PI / 180).
  pose proof (sin2_cos2 a) as Hone. unfold Rsqr in Hone.
  destruct p as [px py], q as [qx qy].
  split.
  - destruct isMirrored; unfold translatePoint, rotatePoint, mirrorPoint;
      cbn [fst snd].
    + replace ((px - qx) * (px - qx) + (py - qy) * (py - qy))
        with (((px - qx) * (px - qx) + (py - qy) * (py - qy))
              * (sin a * sin a + cos a * cos a)) by (rewrite Hone; ring).
      ring.
    + replace ((px - qx) * (px - qx) + (py - qy) * (py - qy))
        with (((px - qx) * (px - qx) + (py - qy) * (py - qy))
              * (sin a * sin a + cos a * cos a)) by (rewrite Hone; ring).
      ring.
  - destruct isMirrored; unfold translatePoint, rotatePoint, mirrorPoint;
      cbn [fst snd]; f_equal; ring.
Qed.

Lemma degrees_half_turn (theta : R) :
  (theta + 180) * PI / 180 = theta * PI / 180 + PI.
Proof. lra. Qed.

Lemma degrees_quarter_turn (theta : R) :
  (theta + 90) * PI / 180 = theta * PI / 180 + PI / 2.
Proof. lra. Qed.

Lemma degrees_opposite (theta : R) : - theta * PI / 180 = - (theta * PI / 180).
Proof. lra. Qed.

(** X22. The bounding box does not depend on the direction of the
    rotation, repeats every 180 degrees, and swaps its width and height
    with every quarter turn (in real arithmetic). *)
Theorem X22_bounding_box_symmetries (w h theta : R) :
  rotatedSize w h (- theta) = rotatedSize w h theta /\
  rotatedSize w h (theta + 180) = rotatedSize w h theta /\
  rotatedSize w h (theta + 90)
    = (snd (rotatedSize w h theta), fst (rotatedSize w h theta)) /\
  rotatedSize w h (theta + 90) = rotatedSize h w theta.
Proof.
  unfold rotatedSize. cbn [fst snd].
  split; [| split; [| split]].
  - now rewrite degrees_opposite, cos_neg, sin_neg, Rabs_Ropp.
  - now rewrite degrees_half_turn, neg_cos, neg_sin, !Rabs_Ropp.
  - rewrite degrees_quarter_turn, cos_plus, sin_plus, cos_PI2, sin_PI2.
    rewrite !Rmult_0_r, !Rmult_1_r, Rminus_0_l, Rplus_0_l, Rabs_Ropp.
    f_equal; ring.
  - rewrite degrees_quarter_turn, cos_plus, sin_plus, cos_PI2, sin_PI2.
    rewrite !Rmult_0_r, !Rmult_1_r, Rminus_0_l, Rplus_0_l, Rabs_Ropp.
    f_equal; ring.
Qed.

(** X23. An image of positive size always gets a temporary canvas of at
    least one pixel each way, at every angle, and the canvas is less than
    one pixel smaller than the bounding box in each direction. *)
Theorem X23_temp_canvas_is_never_empty image filters rotation isMirrored :
  (0 < Image.naturalWidth image)%N -> (0 < Image.naturalHeight image)%N ->
  let tempCanvas := drawTempCanvas image filters rotation isMirrored in
  let box := rotatedSize (sourceWidth image) (sourceHeight image) rotation in
  (1 <= Canvas.width tempCanvas)%Z /\ (1 <= Canvas.height tempCanvas)%Z /\
  IZR (Canvas.width tempCanvas) <= fst box < IZR (Canvas.width tempCanvas) + 1 /\
  IZR (Canvas.height tempCanvas) <= snd box < IZR (Canvas.height tempCanvas) + 1.
Proof.
  intros Hw Hh tempCanvas box.
  destruct (drawTempCanvas_positive image filters rotation isMirrored Hw Hh)
    as [H1 H2].
  fold tempCanvas in H1, H2.
  destruct (drawTempCanvas_size image filters rotation isMirrored) as [Ew Eh].
  fold tempCanvas box in Ew, Eh.
  split; [exact H1 |]. split; [exact H2 |].
  assert (Hpos : 0 <= fst box /\ 0 <= snd box).
  { unfold box, rotatedSize. cbn [fst snd].
    set (a := rotation * PI / 180).
    pose proof (Rabs_pos (cos a)). pose proof (Rabs_pos (sin a)).
    assert (0 <= sourceWidth image) by (apply IZR_le; lia).
    assert (0 <= sourceHeight image) by (apply IZR_le; lia).
    split; nra. }
  rewrite Ew, Eh. split; apply toDimension_bounds; tauto.
Qed.

Lemma X23_temp_canvas_is_never_empty_witness :
  let tempCanvas := drawTempCanvas squareImage initialFilterState 45 true in
  (1 <= Canvas.width tempCanvas)%Z /\ (1 <= Canvas.height tempCanvas)%Z.
Proof.
  intros tempCanvas.
  destruct (X23_temp_canvas_is_never_empty squareImage initialFilterState 45
              true eq_refl eq_refl) as (H1 & H2 & _).
  split; [exact H1 | exact H2].
Defined.

Lemma cropSource_same (iw ih : R) : cropSource iw ih (iw / ih) = (0, 0, iw, ih).
Proof.
  unfold cropSource.
  destruct (Rlt_dec (iw / ih) (iw / ih)) as [H | _]; [lra | reflexivity].
Qed.

(** X24. A freshly loaded image is processed as it is: the temporary
    canvas has the image's own size, every pixel is painted where it
    was, and with [Auto] still selected the whole image goes onto the
    output rectangle, under crop as under stretch. *)
Theorem X24_fresh_image_is_not_cropped (file : File.t) (image : Image.t)
    (newPreviewUrl : string) (st : State) :
  let w := Image.naturalWidth image in
  let h := Image.naturalHeight image in
  (0 < w)%N -> (0 < h)%N ->
  let st' := handleFileChange_onload file image
               (handleFileChange (Some file) newPreviewUrl st) in
  let tempCanvas :=
    drawTempCanvas image (filters st') (rotation st') (isMirrored st') in
  Canvas.width tempCanvas = Z.of_N w /\
  Canvas.height tempCanvas = Z.of_N h /\
  (forall u v,
     DOMMatrix.transformPoint (Canvas.transform tempCanvas)
       (- sourceWidth image / 2 + u, - sourceHeight image / 2 + v) = (u, v)) /\
  exists call,
    Canvas.bitmap (processImage st' image w h) = [call] /\
    Canvas.source call = tempCanvas /\
    (Canvas.sx call, Canvas.sy call, Canvas.sWidth call, Canvas.sHeight call)
      = (0, 0, sourceWidth image, sourceHeight image).
Proof.
  intros w h Hw Hh st' tempCanvas.
  assert (Ew : Canvas.width tempCanvas = Z.of_N w /\
               Canvas.height tempCanvas = Z.of_N h).
  { destruct (drawTempCanvas_size image initialFilterState 0 false) as [E1 E2].
    change (drawTempCanvas image initialFilterState 0 false)
      with tempCanvas in E1, E2.
    rewrite E1, E2, rotatedSize_0. cbn [fst snd sourceWidth sourceHeight
      Image_source]. split; apply toDimension_IZR; lia. }
  destruct Ew as [Ew Eh].
  split; [exact Ew |]. split; [exact Eh |]. split.
  - intros u v.
    change tempCanvas with (drawTempCanvas image initialFilterState 0 false).
    rewrite drawTempCanvas_transform, rotatedSize_0.
    unfold translatePoint, rotatePoint. cbn [fst snd].
    rewrite degrees_0, cos_0, sin_0. f_equal; field.
  - unfold processImage. fold tempCanvas.
    change (resizeMode st') with (resizeMode st).
    assert (Esrc : sourceWidth tempCanvas = sourceWidth image /\
                   sourceHeight tempCanvas = sourceHeight image).
    { cbn [sourceWidth sourceHeight Canvas_source Image_source].
      now rewrite Ew, Eh. }
    destruct Esrc as [EW EH].
    destruct (resizeMode st).
    + eexists. split; [apply drawFinalCanvas_crop_bitmap |].
      split; [reflexivity |].
      cbn [Canvas.sx Canvas.sy Canvas.sWidth Canvas.sHeight].
      rewrite EW, EH.
      change (IZR (Z.of_N w)) with (sourceWidth image).
      change (IZR (Z.of_N h)) with (sourceHeight image).
      now rewrite cropSource_same.
    + eexists. split; [reflexivity |]. split; [reflexivity |].
      cbn [Canvas.sx Canvas.sy Canvas.sWidth Canvas.sHeight].
      unfold Canvas.drawImage5, Canvas.drawImage9.
      cbn [Canvas.sx Canvas.sy Canvas.sWidth Canvas.sHeight Canvas.bitmap].
      now rewrite EW, EH.
Qed.

Lemma X24_fresh_image_is_not_cropped_witness :
  let tempCanvas := drawTempCanvas sampleImage initialFilterState 0 false in
  Canvas.width tempCanvas = 1920%Z /\ Canvas.height tempCanvas = 1080%Z.
Proof.
  intros tempCanvas.
  destruct (X24_fresh_image_is_not_cropped (sampleFile "image/png") sampleImage
              "blob:preview" initialState eq_refl eq_refl) as (Ew & Eh & _).
  split; [exact Ew | exact Eh].
Defined.

(** X25. The crop rectangle is centred on the centre of the buffer, and
    it spans the buffer in at least one direction; when the buffer
    already has the target's proportions, crop and stretch draw exactly
    the same thing. *)
Theorem X25_crop_is_centred_and_maximal (tempCanvas : Canvas.t Image.t)
    (ratioW ratioH : R) :
  let iw := sourceWidth tempCanvas in
  let ih := sourceHeight tempCanvas in
  let t := ratioW / ratioH in
  let region := cropSource iw ih t in
  let sx := fst (fst (fst region)) in
  let sy := snd (fst (fst region)) in
  let sWidth := snd (fst region) in
  let sHeight := snd region in
  sx + sWidth / 2 = iw / 2 /\
  sy + sHeight / 2 = ih / 2 /\
  (sWidth = iw \/ sHeight = ih) /\
  (iw / ih = t ->
   drawFinalCanvas tempCanvas ratioW ratioH crop
   = drawFinalCanvas tempCanvas ratioW ratioH stretch).
Proof.
  intros iw ih t region sx sy sWidth sHeight.
  unfold sx, sy, sWidth, sHeight, region.
  split; [| split; [| split]].
  - unfold cropSource.
    destruct (Rlt_dec t (iw / ih)); [| destruct (Rlt_dec (iw / ih) t)];
      cbn [fst snd]; lra.
  - unfold cropSource.
    destruct (Rlt_dec t (iw / ih)); [| destruct (Rlt_dec (iw / ih) t)];
      cbn [fst snd]; lra.
  - unfold cropSource.
    destruct (Rlt_dec t (iw / ih)); [| destruct (Rlt_dec (iw / ih) t)];
      cbn [fst snd]; auto.
  - intros E. unfold drawFinalCanvas. fold iw ih t.
    rewrite <- E, cropSource_same. reflexivity.
Qed.

(** ** The generator *)

(** X26. [generateImage] resolves exactly when the client returned at
    least one image, and then with the bytes of the first one.  Every
    failure, an exception of the client or an empty answer, is rejected
    with the same fixed message: the text [No image was generated.]
    thrown inside the [try] never reaches the caller. *)
Theorem X26_generateImage_outcomes generateImages (prompt aspectRatio : string) :
  let request := Generator.generateImage_request prompt aspectRatio in
  let result := Generator.generateImage generateImages prompt aspectRatio in
  (Generator.numberOfImages request = 1%N /\
   Generator.outputMimeType request = "image/jpeg" /\
   Generator.aspectRatio request = aspectRatio /\
   Generator.requestPrompt request = prompt) /\
  (forall imageBytes,
     result = resolve imageBytes <->
     exists others,
       generateImages request = resolve (Some (imageBytes :: others))) /\
  (forall message,
     result = reject message ->
     message <> "No image was generated." /\
     message = "Failed to generate image. Please check your prompt and "
               +:+ "API key.").
Proof.
  intros request result. unfold result, Generator.generateImage. fold request.
  split; [now repeat split |]. split.
  - intros imageBytes.
    destruct (generateImages request) as [[[| b others] |] | m]; split;
      try discriminate; try (intros [others' H]; discriminate).
    + intros [= <-]. now exists others.
    + intros [others' [= <- _]]. reflexivity.
  - intros message.
    destruct (generateImages request) as [[[| b others] |] | m];
      try discriminate; intros [= <-]; split; (discriminate || reflexivity).
Qed.

(** X27. [handleGenerate]: a prompt of white space only never reaches
    the service and leaves the message [Please enter a prompt.] with the
    previous image untouched.  Any other prompt calls the service, and
    afterwards [loading] is off and there is either a JPEG data URL and
    no error, or an error and no image. *)
Theorem X27_handleGenerate_outcomes generateImages (st : Generator.State) :
  let outcome := Generator.handleGenerate generateImages st in
  let st' := fst outcome in
  let called := snd outcome in
  (JS.trim (Generator.prompt st) = EmptyString ->
   called = false /\
   Generator.error st' = Some "Please enter a prompt." /\
   Generator.imageUrl st' = Generator.imageUrl st /\
   Generator.loading st' = Generator.loading st) /\
  (JS.trim (Generator.prompt st) <> EmptyString ->
   called = true /\
   Generator.loading st' = false /\
   ((exists imageBytes,
       Generator.imageUrl st'
         = Some ("data:image/jpeg;base64," +:+ imageBytes) /\
       Generator.error st' = None) \/
    (Generator.imageUrl st' = None /\
     exists message, Generator.error st' = Some message))) /\
  Generator.prompt st' = Generator.prompt st /\
  Generator.selectedAspectRatio st' = Generator.selectedAspectRatio st.
Proof.
  intros outcome st' called. unfold st', called, outcome, Generator.handleGenerate.
  destruct (String.eqb_spec (JS.trim (Generator.prompt st)) EmptyString)
    as [E | E].
  - split; [intros _; now repeat split |].
    split; [intros H; now contradiction H | now split].
  - split; [intros H; now contradiction E |].
    destruct (Generator.generateImage _ _ _) as [bytes | m]; cbn [fst snd].
    + split; [| now split]. intros _. split; [reflexivity |].
      split; [reflexivity |]. left. now exists bytes.
    + split; [| now split]. intros _. split; [reflexivity |].
      split; [reflexivity |]. right. split; [reflexivity | now exists m].
Qed.

(** ** The preview box and the built-in ratios *)

Lemma replace_first (sep : ascii) (replacement a b : string) :
  freeOf sep a ->
  JS_replace sep replacement (a +:+ String sep b) = a +:+ replacement +:+ b.
Proof.
  unfold freeOf. induction a as [| c a IH]; intros H.
  - change (EmptyString +:+ String sep b) with (String sep b).
    cbn [JS_replace]. now rewrite Ascii.eqb_refl.
  - change (String c a +:+ String sep b) with (String c (a +:+ String sep b)).
    cbn [list_ascii_of_string] in H. apply Forall_cons in H as [Hc Ha].
    cbn [JS_replace]. destruct (Ascii.eqb_spec c sep) as [E | _];
      [contradiction |].
    now rewrite (IH Ha).
Qed.

Lemma colon_text_not_special (a b : string) :
  falsy (Some (a +:+ String ":" b)) = false /\
  String.eqb (a +:+ String ":" b) "Auto" = false.
Proof.
  split.
  - destruct a; reflexivity.
  - apply String.eqb_neq. intros E.
    apply (f_equal list_ascii_of_string) in E.
    rewrite JSONTextFacts.chars_app in E. cbn in E.
    assert (Hin : ":"%char ∈ list_ascii_of_string a ++
                    ":"%char :: list_ascii_of_string b).
    { apply elem_of_app. right. now left. }
    rewrite E in Hin.
    repeat (apply elem_of_cons in Hin as [Hin | Hin]; [discriminate |]).
    now apply elem_of_nil in Hin.
Qed.

(** X28. The preview box gets the CSS ratio [W / H] for a target ratio
    [W:H], the colon replaced once; with no ratio to go by it falls back
    to [16 / 9].  Right after an image has loaded the box has the
    image's own proportions. *)
Theorem X28_display_aspect_ratio (st : State) :
  (falsy (effectiveAspectRatio st) = true ->
   getDisplayAspectRatio st = "16 / 9") /\
  (forall a b,
     effectiveAspectRatio st = Some (a +:+ ":" +:+ b) -> freeOf ":" a ->
     getDisplayAspectRatio st = a +:+ " / " +:+ b) /\
  (forall file image,
     getDisplayAspectRatio (handleFileChange_onload file image st)
     = JS.toString (Image.naturalWidth image) +:+ " / " +:+
       JS.toString (Image.naturalHeight image)).
Proof.
  assert (Hcolon : forall s a b,
            effectiveAspectRatio s = Some (a +:+ ":" +:+ b) -> freeOf ":" a ->
            getDisplayAspectRatio s = a +:+ " / " +:+ b).
  { intros s a b E Hfree. unfold getDisplayAspectRatio. rewrite E.
    change (":" +:+ b) with (String ":" b).
    destruct (colon_text_not_special a b) as [-> ->]. cbn [orb].
    now apply replace_first. }
  split; [| split].
  - unfold getDisplayAspectRatio. intros H.
    destruct (effectiveAspectRatio st) as [r |]; [| reflexivity].
    now rewrite H.
  - apply Hcolon.
  - intros file image. apply Hcolon; [reflexivity |].
    unfold freeOf. rewrite toString_NilEmpty. apply string_of_uint_digits.
Qed.

(** X29. The built-in analyzer ratios are listed from the widest to the
    tallest, each strictly wider than the next, as the comment on the
    list says; each of them passes the pattern for custom ratios, and
    every generator ratio is among them. *)
Theorem X29_builtin_ratios_are_ordered :
  exists pairs,
    map parseRatio analyzerAspectRatios = map Some pairs /\
    StronglySorted
      (fun wide tall => (fst tall * snd wide < fst wide * snd tall)%N) pairs /\
    Forall (fun r => RegExp.test ratioRegex r = true) analyzerAspectRatios /\
    Forall (fun r => r ∈ analyzerAspectRatios) generatorAspectRatios.
Proof.
  exists [(16, 9); (3, 2); (4, 3); (1, 1); (3, 4); (2, 3); (9, 16)]%N.
  split; [reflexivity |].
  split; [repeat constructor |].
  split; [repeat constructor |].
  repeat constructor; apply includes_elem_of; reflexivity.
Qed.

(** X30. Choosing a new file does not reset the automatic ratio: until
    the new image has loaded, the state still carries the ratio of the
    image before it, and with [Auto] selected that old ratio, read as the
    nearest doubles (exactly, for dimensions below [2^53]), is the target
    the pipeline would use for the new file. *)
Theorem X30_auto_ratio_is_stale_until_load (fileA fileB : File.t)
    (imageA : Image.t) (newPreviewUrl : string) (st : State) :
  let loaded := handleFileChange_onload fileA imageA st in
  let chosen := handleFileChange (Some fileB) newPreviewUrl loaded in
  let w := Image.naturalWidth imageA in
  let h := Image.naturalHeight imageA in
  selectedFile chosen = Some fileB /\
  previewUrl chosen = Some newPreviewUrl /\
  imageProperties chosen = None /\
  autoAspectRatio chosen = autoAspectRatio loaded /\
  effectiveAspectRatio chosen ≫= parseRatio
    = (W ← Double.ofN w; H ← Double.ofN h; Some (W, H)) /\
  ((w < 2 ^ 53)%N -> (h < 2 ^ 53)%N ->
   effectiveAspectRatio chosen ≫= parseRatio = Some (w, h)).
Proof.
  intros loaded chosen w h.
  split; [reflexivity |]. split; [reflexivity |]. split; [reflexivity |].
  split; [reflexivity |].
  unfold chosen, loaded, effectiveAspectRatio. cbn.
  split; [apply parseRatio_auto | apply parseRatio_auto_exact].
Qed.
